(** * Amulet-Core: chunk translation engine and LevelDB chunk-version table

  A shallow embedding of
  - [amulet/world_interface/chunk/interfaces/leveldb/leveldb_chunk_versions.py]
  - [amulet/world_interface/chunk/translators/__init__.py]
  followed by the properties the specification states about them.

  Part I holds the definitions, Part II the lemmas and theorems. *)

From stdpp Require Import gmap strings list sorting.
From Stdlib Require Import ZArith Lia.

(** * Part I: definitions *)

(** ** Python tuples of integers and their ordering *)

Module PyTuple.
Local Open Scope Z_scope.

(** Python compares tuples lexicographically; a strict prefix is smaller. *)
Fixpoint lt (a b : list Z) : bool :=
  match a, b with
  | [], [] => false
  | [], _ :: _ => true
  | _ :: _, [] => false
  | x :: a', y :: b' => if x =? y then lt a' b' else x <? y
  end.

Fixpoint le (a b : list Z) : bool :=
  match a, b with
  | [], _ => true
  | _ :: _, [] => false
  | x :: a', y :: b' => if x =? y then le a' b' else x <? y
  end.

(** [min(a, b)]: the builtin keeps its first argument unless a later one is
    strictly smaller. *)
Definition min (a b : list Z) : list Z := if lt b a then b else a.

(** The componentwise minimum, for comparison with the builtin. *)
Definition componentwise_min (a b : list Z) : list Z := zip_with Z.min a b.

End PyTuple.

(** ** leveldb_chunk_versions.py *)

Module ChunkVersions.
Local Open Scope Z_scope.

(** [chunk_version_to_max_version]: a dict literal, kept in insertion
    order because [game_to_chunk_version] iterates over it. *)
Definition chunk_version_to_max_version : list (Z * (list Z * list Z)) :=
  [ (0, ([0; 9; 0; 0], [0; 9; 1; 9999]));
    (1, ([0; 9; 2; 0], [0; 9; 4; 9999]));
    (2, ([0; 9; 5; 0], [0; 16; 999; 9999]));
    (3, ([0; 17; 0; 0], [0; 17; 999; 9999]));
    (4, ([0; 18; 0; 0], [0; 18; 0; 0]));
    (5, ([0; 18; 0; 0], [1; 1; 999; 9999]));
    (6, ([1; 2; 0; 0], [1; 2; 0; 0]));
    (7, ([1; 2; 0; 0], [1; 2; 999; 9999]));
    (8, ([1; 3; 0; 0], [1; 7; 999; 9999]));
    (9, ([1; 8; 0; 0], [1; 8; 999; 9999]));
    (10, ([1; 9; 0; 0], [1; 9; 999; 9999]));
    (11, ([1; 10; 0; 0], [1; 10; 999; 9999]));
    (12, ([1; 11; 0; 0], [1; 11; 0; 9999]));
    (13, ([1; 11; 1; 0], [1; 11; 1; 9999]));
    (14, ([1; 11; 2; 0], [1; 11; 999; 999]));
    (15, ([1; 12; 0; 0], [999; 999; 999; 9999])) ].

(** Subscripting the dict; [None] stands for [KeyError]. *)
Fixpoint dict_get {V} (d : list (Z * V)) (k : Z) : option V :=
  match d with
  | [] => None
  | (k', v) :: d' => if k' =? k then Some v else dict_get d' k
  end.

Definition chunk_to_game_version
    (max_game_version : list Z) (chunk_version : Z) : option (list Z) :=
  match dict_get chunk_version_to_max_version chunk_version with
  | Some range => Some (PyTuple.min range.2 max_game_version)
  | None => None
  end.

(** The [for] loop with its early [return]; falling off the end returns
    Python's [None]. *)
Fixpoint first_containing (d : list (Z * (list Z * list Z)))
    (max_game_version : list Z) : option Z :=
  match d with
  | [] => None
  | (chunk_version, (first, last)) :: d' =>
      if PyTuple.le first max_game_version && PyTuple.le max_game_version last
      then Some chunk_version
      else first_containing d' max_game_version
  end.

Definition game_to_chunk_version (max_game_version : list Z) : option Z :=
  first_containing chunk_version_to_max_version max_game_version.

End ChunkVersions.

(** ** The objects of [amulet.api] the translator works on *)

Module Api.

(** One layer of a block: identifier and property set. *)
Record BlockState := mkBlockState {
  bs_namespace : string;
  bs_base_name : string;
  bs_properties : gmap string string;
}.

(** Modelled from the spec: [amulet.api.block.Block] is outside the
    files embedded here.  A block definition is an identifier plus a
    property set, plus an ordered list of zero or more extra layers
    stacked on the base definition; layer order is significant. *)
Record Block := mkBlock {
  base_state : BlockState;
  extra_states : list BlockState;
}.

Definition namespace (b : Block) : string := bs_namespace (base_state b).
Definition base_name (b : Block) : string := bs_base_name (base_state b).

(** [block.base_block]: the block without its extra layers. *)
Definition base_block (b : Block) : Block := mkBlock (base_state b) [].

(** [block.extra_blocks]: each extra layer as a block of its own. *)
Definition extra_blocks (b : Block) : list Block :=
  (λ s, mkBlock s []) <$> extra_states b.

(** Modelled from the spec: [Block.__add__] is outside the files
    embedded here.  Block-like outputs are composed preserving layer order: the
    first layer determines the primary identity, subsequent layers are
    appended as the composite's extra layers. *)
Definition block_add (a b : Block) : Block :=
  mkBlock (base_state a) (extra_states a ++ base_state b :: extra_states b).

(** Modelled from the spec: [amulet.api.entity.Entity] is outside the
    files embedded here: identifier, property set and world position.  The
    translator never looks inside an entity. *)
Record Entity := mkEntity {
  entity_namespace : string;
  entity_base_name : string;
  entity_position : Z * Z * Z;
  entity_properties : gmap string string;
}.

(** A block-entity name as [namespaced_name] stores it: the namespace is
    [None] for a bare name. *)
Abbreviation EntityName := (option string * string)%type.

(** Modelled from the spec: [amulet.api.block_entity.BlockEntity] is
    outside the files embedded here.  A block entity owns an absolute world
    position and a name that is either namespaced or bare. *)
Record BlockEntity := mkBlockEntity {
  be_namespace : option string;
  be_base_name : string;
  be_x : Z;
  be_y : Z;
  be_z : Z;
  be_nbt : string;
}.

Definition namespaced_name (be : BlockEntity) : EntityName :=
  (be_namespace be, be_base_name be).

(** The [namespaced_name] setter. *)
Definition set_namespaced_name (be : BlockEntity) (n : EntityName) : BlockEntity :=
  mkBlockEntity n.1 n.2 (be_x be) (be_y be) (be_z be) (be_nbt be).

(** [be.new_at_location(x, y, z)]: a copy at another position. *)
Definition new_at_location (be : BlockEntity) (x y z : Z) : BlockEntity :=
  mkBlockEntity (be_namespace be) (be_base_name be) x y z (be_nbt be).

#[global] Instance BlockState_eq_dec : EqDecision BlockState.
Proof. solve_decision. Defined.
#[global] Instance Block_eq_dec : EqDecision Block.
Proof. solve_decision. Defined.
#[global] Instance Entity_eq_dec : EqDecision Entity.
Proof. solve_decision. Defined.
#[global] Instance BlockEntity_eq_dec : EqDecision BlockEntity.
Proof. solve_decision. Defined.

(** Modelled from the spec: [amulet.api.block.BlockManager] is outside
    the files embedded here.  It is a deduplicating append-only table
    mapping a definition to a stable integer slot. *)
Section block_manager.
Context {A : Type} `{EqDecision A}.

Fixpoint index_of (b : A) (l : list A) : option nat :=
  match l with
  | [] => None
  | x :: l' => if decide (x = b) then Some 0%nat else S <$> index_of b l'
  end.

(** [finished.get_add_block(block)]: the slot, and the table after the
    call. *)
Definition get_add_block (m : list A) (b : A) : nat * list A :=
  match index_of b m with
  | Some i => (i, m)
  | None => (length m, m ++ [b])
  end.
End block_manager.

End Api.

(** ** The numpy operations the translator uses *)

Module Numpy.
Import Api.

(** An n-dimensional array: its shape and its elements in C order. *)
Record ndarray (A : Type) := mkArray {
  shape : list nat;
  data : list A;
}.
Arguments mkArray {A} _ _.
Arguments shape {A} _.
Arguments data {A} _.

(** The sorted distinct values of the flattened input. *)
Definition unique_values (d : list Z) : list Z :=
  merge_sort Z.le (remove_dups d).

(** Modelled from the spec: [numpy.unique(a, return_inverse=True)] is a
    library routine.  It factors the array into the sorted sequence of
    distinct values present and a same-shaped index array such that
    indexing the former by the latter reconstructs the input. *)
Definition unique (a : ndarray Z) : list Z * ndarray nat :=
  let u := unique_values (data a) in
  (u, mkArray (shape a) ((λ v, default 0%nat (index_of v u)) <$> data a)).

(** [values[index_array]]: a subscript out of range is an [IndexError],
    here [None]. *)
Definition take {A} (values : list A) (idx : ndarray nat) : option (ndarray A) :=
  mkArray (shape idx) <$> mapM (λ i, values !! i) (data idx).

(** The block grid is always three-dimensional and subscripted per axis:
    [blocks[x][y][z]]. *)
Abbreviation Grid := (list (list (list nat))).

Definition getitem3 (g : Grid) (x y z : nat) : option nat :=
  g !! x ≫= λ plane, plane !! y ≫= λ row, row !! z.

(** Subscripting one axis with a Python integer: a negative subscript
    counts from the end, anything outside [-n, n) is an [IndexError]. *)
Definition np_index {A} (l : list A) (i : Z) : option A :=
  let n := Z.of_nat (length l) in
  let j := if (i <? 0)%Z then (i + n)%Z else i in
  if (j <? 0)%Z then None else l !! Z.to_nat j.

Definition np_getitem3 (g : Grid) (x y z : Z) : option nat :=
  np_index g x ≫= λ plane, np_index plane y ≫= λ row, np_index row z.

(** [numpy.where(blocks == i)], zipped into coordinate triples: the
    coordinates holding [i], in C order. *)
Definition where_eq (g : Grid) (i : nat) : list (nat * nat * nat) :=
  mjoin (imap (λ x plane,
    mjoin (imap (λ y row,
      mjoin (imap (λ z v, if decide (v = i) then [(x, y, z)] else []) row))
    plane)) g).

(** [blocks[blocks == old] = new]. *)
Definition mask_assign (g : Grid) (old new : nat) : Grid :=
  (λ plane : list (list nat),
     (λ row : list nat,
        (λ v, if decide (v = old) then new else v) <$> row) <$> plane) <$> g.

(** [blocks[x, y, z] = new].  numpy raises [IndexError] out of range; the
    commit only subscripts coordinates that [numpy.where] produced on the
    same grid, which are in range, so the update is written for those. *)
Definition setitem3 (g : Grid) (c : nat * nat * nat) (new : nat) : Grid :=
  alter (alter (<[c.2 := new]>) c.1.2) c.1.1 g.

End Numpy.

(** ** translators/__init__.py *)

Module Translator.
Import Api Numpy.

(** *** Python values and effects *)

Inductive PyError :=
| NotImplementedError
| IndexError
| TypeError
| OtherError (msg : string).

(** What a palette slot can hold: a block, an entity, Bedrock's tuple of
    [(version, Block)] pairs, or [None]. *)
Inductive PaletteEntry :=
| PBlock (b : Block)
| PEntity (e : Entity)
| PVersioned (entries : list (Z * Block))
| PNone.

Abbreviation Palette := (list PaletteEntry).

Inductive Direction := ToUniversal | FromUniversal.

#[global] Instance Direction_eq_dec : EqDecision Direction.
Proof. solve_decision. Defined.

(** The [log.debug] messages. *)
Inductive Diagnostic :=
| ErrorTranslatingToUniversal (input output : Block)
| ErrorTranslatingFromUniversal (input output : Block)
| NoPrettyName (name : EntityName).

(** Calls that leave the translator, in the order they are made. *)
Inductive Event :=
| BlockRuleCalled (d : Direction) (layer : Block) (with_callback : bool)
| BiomeRuleCalled (d : Direction) (code : Z)
| ResolverCalled (dcx dcz : Z)
| DebugLogged (msg : Diagnostic).

(** A computation: the calls it made, and an exception or a value. *)
Record M (A : Type) := mkM {
  trace : list Event;
  outcome : PyError + A;
}.
Arguments mkM {A} _ _.
Arguments trace {A} _.
Arguments outcome {A} _.

#[global] Instance M_ret : MRet M := λ A a, mkM [] (inr a).

#[global] Instance M_bind : MBind M := λ A B f m,
  match outcome m with
  | inl e => mkM (trace m) (inl e)
  | inr a => mkM (trace m ++ trace (f a)) (outcome (f a))
  end.

Definition throw {A} (e : PyError) : M A := mkM [] (inl e).
Definition emit (ev : Event) : M unit := mkM [ev] (inr tt).

(** A failed subscript raises [IndexError]. *)
Definition lift_index {A} (o : option A) : M A :=
  match o with
  | Some a => mret a
  | None => throw IndexError
  end.

(** A [for] loop threading its variables, and a list comprehension. *)
Fixpoint foldM {A S} (f : S → A → M S) (l : list A) (s : S) : M S :=
  match l with
  | [] => mret s
  | a :: l' => s' ← f s a; foldM f l' s'
  end.

Fixpoint map_M {A B} (f : A → M B) (l : list A) : M (list B) :=
  match l with
  | [] => mret []
  | a :: l' => b ← f a; bs ← map_M f l'; mret (b :: bs)
  end.

Fixpoint enumerate_from {A} (n : nat) (l : list A) : list (nat * A) :=
  match l with
  | [] => []
  | a :: l' => (n, a) :: enumerate_from (S n) l'
  end.

Definition enumerate {A} (l : list A) : list (nat * A) := enumerate_from 0 l.

(** [d[k] = v] on a dict kept in insertion order. *)
Fixpoint dict_set {K V} `{EqDecision K} (d : list (K * V)) (k : K) (v : V)
    : list (K * V) :=
  match d with
  | [] => [(k, v)]
  | (k', v') :: d' =>
      if decide (k' = k) then (k, v) :: d' else (k', v') :: dict_set d' k v
  end.

(** *** Chunks and version rule sets *)

(** Modelled from the spec: [amulet.api.chunk.Chunk] is outside the
    files embedded here.  A chunk owns a grid of palette-slot indices, a
    chunk-grid coordinate pair, a biome array, an ordered list of block
    entities and an entity list. *)
Record Chunk := mkChunk {
  cx : Z;
  cz : Z;
  blocks : Grid;
  biomes : ndarray Z;
  block_entities : list BlockEntity;
  entities : list Entity;
}.

Definition set_blocks (c : Chunk) (g : Grid) : Chunk :=
  mkChunk (cx c) (cz c) g (biomes c) (block_entities c) (entities c).
Definition set_biomes (c : Chunk) (b : ndarray Z) : Chunk :=
  mkChunk (cx c) (cz c) (blocks c) b (block_entities c) (entities c).
Definition set_block_entities (c : Chunk) (bes : list BlockEntity) : Chunk :=
  mkChunk (cx c) (cz c) (blocks c) (biomes c) bes (entities c).
Definition set_entities (c : Chunk) (es : list Entity) : Chunk :=
  mkChunk (cx c) (cz c) (blocks c) (biomes c) (block_entities c) es.

(** [get_chunk_callback], when one is supplied. *)
Abbreviation Resolver := (Z → Z → PyError + (Chunk * Palette)).

Abbreviation GetBlockCallback :=
  (Z * Z * Z → M (PaletteEntry * option BlockEntity)).

Inductive BlockOrEntity :=
| OutBlock (b : Block)
| OutEntity (e : Entity).

Abbreviation RuleOutput := (BlockOrEntity * option BlockEntity * bool)%type.

(** A per-block rule of the version-rules provider is foreign code: given a
    layer and told whether a neighbour lookup is available, it returns,
    raises, or asks for the block at a relative offset and goes on with the
    answer. *)
Inductive Probe (A : Type) :=
| Return (a : A)
| Raise (e : PyError)
| GetBlock (pos : Z * Z * Z) (k : PaletteEntry * option BlockEntity → Probe A).
Arguments Return {A} _.
Arguments Raise {A} _.
Arguments GetBlock {A} _ _.

(** Running a rule against the callback it was handed; calling a missing
    callback is a [TypeError], and an exception of the callback
    propagates. *)
Fixpoint run_probe {A} (cb : option GetBlockCallback) (p : Probe A) : M A :=
  match p with
  | Return a => mret a
  | Raise e => throw e
  | GetBlock pos k =>
      match cb with
      | None => throw TypeError
      | Some f => r ← f pos; run_probe cb (k r)
      end
  end.

(** The rule set [translation_manager.get_version(...)] returns. *)
Record Version := mkVersion {
  block_to_universal : Block → bool → Probe RuleOutput;
  block_from_universal : Block → bool → Probe RuleOutput;
  biome_to_universal : Z → Z;
  biome_from_universal : Z → Z;
  block_entity_map : option (gmap string EntityName);
  block_entity_map_inverse : gmap EntityName EntityName;
}.

Abbreviation TranslateResult :=
  (option Block * option BlockEntity * list Entity * bool)%type.

Abbreviation TranslateCallback :=
  (PaletteEntry → option GetBlockCallback → M TranslateResult).

Definition supplied {A} (o : option A) : bool :=
  match o with Some _ => true | None => false end.


(** *** The neighbour lookup closure *)

Definition call_resolver (get_chunk_callback : option Resolver)
    (dcx dcz : Z) : M (Chunk * Palette) :=
  match get_chunk_callback with
  | None => throw TypeError
  | Some f => mkM [ResolverCalled dcx dcz] (f dcx dcz)
  end.

(** [if isinstance(block, tuple): block = block[0][1]]. *)
Definition unwrap_entry (block : PaletteEntry) : M PaletteEntry :=
  match block with
  | PVersioned [] => throw IndexError
  | PVersioned ((_, b) :: _) => mret (PBlock b)
  | _ => mret block
  end.

(** [next((be for be in bes if (be.x, be.y, be.z) == (x, y, z)), None)]. *)
Definition find_block_entity (bes : list BlockEntity) (x y z : Z)
    : option BlockEntity :=
  List.find (λ be, bool_decide ((be_x be, be_y be, be_z be) = (x, y, z))) bes.

(** The body shared by the two branches of [get_block_at]: subscript the
    grid at [(dx % 16, dy, dz % 16)], then the palette, unwrap the entry
    and look for a block entity at the absolute position. *)
Definition block_in (c : Chunk) (p : Palette) (dx dy dz abs_x abs_y abs_z : Z)
    : M (PaletteEntry * option BlockEntity) :=
  idx ← lift_index (np_getitem3 (blocks c) (dx `mod` 16) dy (dz `mod` 16));
  block ← lift_index (p !! idx);
  block ← unwrap_entry block;
  mret (block, find_block_entity (block_entities c) abs_x abs_y abs_z).

(** [get_block_at] for the coordinate [(x, y, z)] of [chunk]. *)
Definition get_block_at (chunk : Chunk) (palette : Palette)
    (get_chunk_callback : option Resolver) (x y z : Z) : GetBlockCallback :=
  λ pos,
    let '(dx, dy, dz) := pos in
    let dx := (dx + x)%Z in
    let dy := (dy + y)%Z in
    let dz := (dz + z)%Z in
    let abs_x := (dx + cx chunk * 16)%Z in
    let abs_y := dy in
    let abs_z := (dz + cz chunk * 16)%Z in
    let cx' := (dx `div` 16)%Z in
    let cz' := (dz `div` 16)%Z in
    if bool_decide (cx' = 0%Z) && bool_decide (cz' = 0%Z) then
      block_in chunk palette dx dy dz abs_x abs_y abs_z
    else
      '(local_chunk, local_palette) ← call_resolver get_chunk_callback cx' cz';
      block_in local_chunk local_palette dx dy dz abs_x abs_y abs_z.

(** *** [_translate] *)

(** The loop variables of [_translate]. *)
Record Work := mkWork {
  todo : list nat;
  output_block_entities : list BlockEntity;
  finished : list (option Block);
  palette_mappings : list (nat * nat);
  block_mappings : list (nat * nat * nat * nat);
}.

Definition empty_work : Work := mkWork [] [] [] [] [].

(** [output_block_entity.new_at_location(x + chunk.cx * 16, y, z + chunk.cz * 16)]. *)
Definition place (chunk : Chunk) (be : BlockEntity) (c : nat * nat * nat)
    : BlockEntity :=
  new_at_location be (Z.of_nat c.1.1 + cx chunk * 16)%Z (Z.of_nat c.1.2)
                     (Z.of_nat c.2 + cz chunk * 16)%Z.

(** One iteration of [for i, input_block in enumerate(palette)]. *)
Definition first_pass_step (chunk : Chunk)
    (get_chunk_callback : option Resolver) (translate : TranslateCallback)
    (w : Work) (slot : nat * PaletteEntry) : M Work :=
  '(output_block, output_block_entity, output_entities, extra) ←
    translate slot.2 None;
  if extra && supplied get_chunk_callback then
    mret (mkWork (todo w ++ [slot.1]) (output_block_entities w) (finished w)
                 (palette_mappings w) (block_mappings w))
  else
    let added := get_add_block (finished w) output_block in
    mret (mkWork (todo w)
                 (output_block_entities w ++
                    match output_block_entity with
                    | Some be => place chunk be <$> where_eq (blocks chunk) slot.1
                    | None => []
                    end)
                 added.2
                 (dict_set (palette_mappings w) slot.1 added.1)
                 (block_mappings w)).

Definition first_pass (chunk : Chunk) (palette : Palette)
    (get_chunk_callback : option Resolver) (translate : TranslateCallback)
    : M Work :=
  foldM (first_pass_step chunk get_chunk_callback translate)
        (enumerate palette) empty_work.

(** The body of the inner loop of [for index in todo]. *)
Definition second_pass_step (chunk : Chunk) (palette : Palette)
    (get_chunk_callback : option Resolver) (translate : TranslateCallback)
    (w : Work) (c : nat * nat * nat) : M Work :=
  idx ← lift_index (getitem3 (blocks chunk) c.1.1 c.1.2 c.2);
  input_block ← lift_index (palette !! idx);
  '(output_block, output_block_entity, output_entities, extra) ←
    translate input_block
      (Some (get_block_at chunk palette get_chunk_callback
               (Z.of_nat c.1.1) (Z.of_nat c.1.2) (Z.of_nat c.2)));
  let added := get_add_block (finished w) output_block in
  mret (mkWork (todo w)
               (output_block_entities w ++
                  match output_block_entity with
                  | Some be => [place chunk be c]
                  | None => []
                  end)
               added.2
               (palette_mappings w)
               (dict_set (block_mappings w) c added.1)).

Definition second_pass (chunk : Chunk) (palette : Palette)
    (get_chunk_callback : option Resolver) (translate : TranslateCallback)
    (w : Work) : M Work :=
  foldM (λ w index,
           foldM (second_pass_step chunk palette get_chunk_callback translate)
                 (where_eq (blocks chunk) index) w)
        (todo w) w.

(** The two loops that rewrite the grid. *)
Definition commit (g : Grid) (pm : list (nat * nat))
    (bm : list (nat * nat * nat * nat)) : Grid :=
  foldl (λ g e, setitem3 g e.1 e.2)
        (foldl (λ g e, mask_assign g e.1 e.2) g pm) bm.

(** An element of [numpy.array(finished.blocks())]. *)
Definition entry_of_output (o : option Block) : PaletteEntry :=
  match o with
  | Some b => PBlock b
  | None => PNone
  end.

Definition _translate (chunk : Chunk) (palette : Palette)
    (get_chunk_callback : option Resolver) (translate : TranslateCallback)
    (full_translate : bool) : M (Chunk * Palette) :=
  if negb full_translate then mret (chunk, palette)
  else
    w ← first_pass chunk palette get_chunk_callback translate;
    w ← second_pass chunk palette get_chunk_callback translate w;
    mret (set_block_entities
            (set_blocks chunk
               (commit (blocks chunk) (palette_mappings w) (block_mappings w)))
            (output_block_entities w),
          entry_of_output <$> finished w).


(** *** The per-block wrapper [translate] of the two directions *)

Definition block_rule (d : Direction) (version : Version)
    : Block → bool → Probe RuleOutput :=
  match d with
  | ToUniversal => block_to_universal version
  | FromUniversal => block_from_universal version
  end.

(** The namespace check and its [log.debug].  [to_universal] tests
    [not output_object.namespace.startswith("universal")]; [from_universal]
    tests [__debug__ and output_object.namespace.startswith("universal")],
    where [__debug__] is the interpreter's constant, false when Python runs
    with -O.  The forward test does not read the constant. *)
Definition check_namespace (__debug__ : bool) (d : Direction)
    (input_object output_object : Block) : M unit :=
  let universal := String.prefix "universal" (namespace output_object) in
  match d with
  | ToUniversal =>
      if negb universal
      then emit (DebugLogged (ErrorTranslatingToUniversal input_object output_object))
      else mret tt
  | FromUniversal =>
      if __debug__ && universal
      then emit (DebugLogged (ErrorTranslatingFromUniversal input_object output_object))
      else mret tt
  end.

(** What one layer's output does to
    [(final_block, final_block_entity, final_entities, final_extra)]. *)
Definition merge_layer (depth : nat) (out : RuleOutput) (acc : TranslateResult)
    : TranslateResult :=
  let '(final_block, final_block_entity, final_entities, final_extra) := acc in
  let '(output_object, output_block_entity, extra) := out in
  match output_object with
  | OutBlock b =>
      (Some (match final_block with
             | None => b
             | Some fb => block_add fb b
             end),
       if decide (depth = 0%nat) then output_block_entity else final_block_entity,
       final_entities,
       final_extra || extra)
  | OutEntity e =>
      (final_block, final_block_entity, final_entities ++ [e],
       final_extra || extra)
  end.

(** One iteration of the loop over the layers. *)
Definition translate_layer (__debug__ : bool) (d : Direction)
    (version : Version) (input_object : Block)
    (get_block_callback : option GetBlockCallback)
    (acc : TranslateResult) (layer : nat * Block) : M TranslateResult :=
  emit (BlockRuleCalled d layer.2 (supplied get_block_callback));;
  out ← run_probe get_block_callback
          (block_rule d version layer.2 (supplied get_block_callback));
  match out.1.1 with
  | OutBlock b => check_namespace __debug__ d input_object b
  | OutEntity _ => mret tt
  end;;
  mret (merge_layer layer.1 out acc).

(** The [isinstance(input_object, Block)] branch. *)
Definition translate_block (__debug__ : bool) (d : Direction)
    (version : Version) (input_object : Block)
    (get_block_callback : option GetBlockCallback) : M TranslateResult :=
  foldM (translate_layer __debug__ d version input_object get_block_callback)
        (enumerate (base_block input_object :: extra_blocks input_object))
        (None, None, [], false).

(** [translate] as [to_universal] defines it; its namespace test has no
    [__debug__] conjunct, which is the test with the conjunct true. *)
Definition to_universal_translate (version : Version) : TranslateCallback :=
  λ input_object get_block_callback,
    match input_object with
    | PBlock b => translate_block true ToUniversal version b get_block_callback
    | PEntity _ => throw NotImplementedError
    | _ => mret (None, None, [], false)
    end.

(** [translate] as [from_universal] defines it. *)
Definition from_universal_translate (__debug__ : bool) (version : Version)
    : TranslateCallback :=
  λ input_object get_block_callback,
    match input_object with
    | PBlock b =>
        translate_block __debug__ FromUniversal version b get_block_callback
    | PEntity _ => mret (None, None, [], false)
    | _ => mret (None, None, [], false)
    end.

(** *** Biomes, palettes and block-entity names *)

Definition _biomes_to_universal (translator_version : Version)
    (biome_array : ndarray Z) : M (ndarray Z) :=
  let '(biome_palette, biome_compact_array) := unique biome_array in
  universal_biome_palette ←
    map_M (λ biome,
             emit (BiomeRuleCalled ToUniversal biome);;
             mret (biome_to_universal translator_version biome))
          biome_palette;
  lift_index (take universal_biome_palette biome_compact_array).

Definition _biomes_from_universal (translator_version : Version)
    (biome_array : ndarray Z) : M (ndarray Z) :=
  let '(biome_palette, biome_compact_array) := unique biome_array in
  universal_biome_palette ←
    map_M (λ biome,
             emit (BiomeRuleCalled FromUniversal biome);;
             mret (biome_from_universal translator_version biome))
          biome_palette;
  lift_index (take universal_biome_palette biome_compact_array).

Definition _unpack_palette (version : Version) (palette : Palette) : Palette :=
  palette.

Definition _pack_palette (version : Version) (palette : Palette) : Palette :=
  palette.

(** The loop over [chunk.block_entities] in [to_universal]. *)
Definition name_to_universal (version : Version) (bes : list BlockEntity)
    : M (list BlockEntity) :=
  match block_entity_map version with
  | None => mret bes
  | Some names =>
      map_M (λ block_entity,
               match be_namespace block_entity,
                     names !! be_base_name block_entity with
               | None, Some n => mret (set_namespaced_name block_entity n)
               | _, _ =>
                   emit (DebugLogged (NoPrettyName (namespaced_name block_entity)));;
                   mret block_entity
               end)
            bes
  end.

(** The loop over [chunk.block_entities] in [from_universal]. *)
Definition name_from_universal (version : Version) (bes : list BlockEntity)
    : M (list BlockEntity) :=
  match block_entity_map version with
  | None => mret bes
  | Some _ =>
      map_M (λ block_entity,
               match block_entity_map_inverse version
                       !! namespaced_name block_entity with
               | Some n => mret (set_namespaced_name block_entity n)
               | None =>
                   emit (DebugLogged (NoPrettyName (namespaced_name block_entity)));;
                   mret block_entity
               end)
            bes
  end.

(** *** The two public operations *)

Definition to_universal (version : Version) (chunk : Chunk) (palette : Palette)
    (get_chunk_callback : option Resolver) (full_translate : bool)
    : M (Chunk * Palette) :=
  let palette := _unpack_palette version palette in
  universal_biomes ← _biomes_to_universal version (biomes chunk);
  let chunk := set_biomes chunk universal_biomes in
  named ← name_to_universal version (block_entities chunk);
  let chunk := set_block_entities chunk named in
  _translate chunk palette get_chunk_callback
             (to_universal_translate version) full_translate.

(** [__debug__] is the interpreter constant the inner [translate] reads. *)
Definition from_universal (__debug__ : bool) (version : Version) (chunk : Chunk)
    (palette : Palette) (get_chunk_callback : option Resolver)
    (full_translate : bool) : M (Chunk * Palette) :=
  '(chunk, palette) ← _translate chunk palette get_chunk_callback
                        (from_universal_translate __debug__ version)
                        full_translate;
  let palette := _pack_palette version palette in
  version_biomes ← _biomes_from_universal version (biomes chunk);
  let chunk := set_biomes chunk version_biomes in
  named ← name_from_universal version (block_entities chunk);
  let chunk := set_block_entities chunk named in
  mret (chunk, palette).

End Translator.

(** ** Vocabulary of the statements *)

Module Spec.
Import Api Numpy Translator.

(** A computation returned [a]. *)
Definition returns {A} (m : M A) (a : A) : Prop := outcome m = inr a.

(** A computation raised. *)
Definition fails {A} (m : M A) : Prop := ∃ e, outcome m = inl e.

(** The wrapper of a direction; [__debug__] is read by the backward one
    only. *)
Definition translate_for (__debug__ : bool) (d : Direction) (version : Version)
    : TranslateCallback :=
  match d with
  | ToUniversal => to_universal_translate version
  | FromUniversal => from_universal_translate __debug__ version
  end.

(** The block-like and the entity-like outputs among the layers' outputs. *)
Definition block_outputs (outs : list RuleOutput) : list Block :=
  omap (λ out : RuleOutput,
          match out.1.1 with OutBlock b => Some b | OutEntity _ => None end) outs.

Definition entity_outputs (outs : list RuleOutput) : list Entity :=
  omap (λ out : RuleOutput,
          match out.1.1 with OutEntity e => Some e | OutBlock _ => None end) outs.

(** Blocks stacked in order on the first one. *)
Definition compose_blocks (bs : list Block) : option Block :=
  match bs with
  | [] => None
  | b :: bs' => Some (foldl block_add b bs')
  end.

(** Blocks stacked in order on what has been composed so far. *)
Definition stack_blocks (fb : option Block) (bs : list Block) : option Block :=
  match fb with
  | None => compose_blocks bs
  | Some b => Some (foldl block_add b bs)
  end.

(** The companion block entity of the layer at depth 0, when that layer's
    output is block-like. *)
Definition depth0_block_entity (outs : list RuleOutput) : option BlockEntity :=
  match outs with
  | (OutBlock _, be, _) :: _ => be
  | _ => None
  end.

(** The logical OR of the layers' needs-context flags. *)
Definition any_flag (outs : list RuleOutput) : bool :=
  existsb (λ out : RuleOutput, out.2) outs.

(** The arguments of the biome-rule calls in a trace. *)
Definition biome_calls (d : Direction) (t : list Event) : list Z :=
  omap (λ ev, match ev with
              | BiomeRuleCalled d' code =>
                  if decide (d' = d) then Some code else None
              | _ => None
              end) t.

(** The recoding [m] of the array [arr] in direction [d]: every event of
    [m] is a call of the direction's biome rule; the calls are on pairwise
    distinct values, exactly the values present in [arr], so the rule is
    called once per distinct value; and [m] returns an array of the shape of
    [arr] holding the image under [rule] of every cell. *)
Definition recodes_once (d : Direction) (rule : Z → Z) (arr : ndarray Z)
    (m : M (ndarray Z)) : Prop :=
  trace m = BiomeRuleCalled d <$> biome_calls d (trace m) ∧
  NoDup (biome_calls d (trace m)) ∧
  (∀ v, v ∈ biome_calls d (trace m) ↔ v ∈ data arr) ∧
  ∃ out, returns m out ∧ shape out = shape arr ∧ data out = rule <$> data arr.

Definition is_block_rule_call (ev : Event) : bool :=
  match ev with BlockRuleCalled _ _ _ => true | _ => false end.

(** A translate callback whose produced-entities list is emptied. *)
Definition without_entities (translate : TranslateCallback) : TranslateCallback :=
  λ input_object get_block_callback,
    r ← translate input_object get_block_callback;
    mret (r.1.1.1, r.1.1.2, [], r.2).

(** [obe] is the first block entity of [bes] whose position is [(x, y, z)],
    or [None] when [bes] has none there: the value of
    [next((be for be in bes if (be.x, be.y, be.z) == (x, y, z)), None)]. *)
Definition first_at (bes : list BlockEntity) (x y z : Z)
    (obe : option BlockEntity) : Prop :=
  match obe with
  | Some be =>
      ∃ before after,
        bes = before ++ be :: after ∧
        (be_x be, be_y be, be_z be) = (x, y, z) ∧
        ∀ b, b ∈ before → (be_x b, be_y b, be_z b) ≠ (x, y, z)
  | None => ∀ b, b ∈ bes → (be_x b, be_y b, be_z b) ≠ (x, y, z)
  end.

(** The lookup [m] resolved against the grid, palette and block entities of
    chunk [c]: it subscripted the grid at [(lx, ly, lz)] the way numpy does
    and the palette at the index found there, raising [IndexError] when
    either subscript is out of range; it answered the palette entry (for a
    tuple of [(version, Block)] pairs, the block of the first pair, and
    [IndexError] when the tuple is empty) together with the first block
    entity of [c] at the absolute position [(ax, ay, az)]. *)
Definition resolves_in (c : Chunk) (p : Palette) (lx ly lz ax ay az : Z)
    (m : M (PaletteEntry * option BlockEntity)) : Prop :=
  match np_getitem3 (blocks c) lx ly lz ≫= λ i, p !! i with
  | None => outcome m = inl IndexError
  | Some (PVersioned []) => outcome m = inl IndexError
  | Some e =>
      ∃ obe,
        outcome m = inr (match e with
                         | PVersioned ((_, b) :: _) => PBlock b
                         | _ => e
                         end, obe) ∧
        first_at (block_entities c) ax ay az obe
  end.

(** What the block at a grid coordinate is. *)
Definition block_at (c : Chunk) (p : Palette) (x y z : nat) : option PaletteEntry :=
  getitem3 (blocks c) x y z ≫= λ i, p !! i.

(** Where the slot-level loop of the commit sends a grid value. *)
Definition remap (pm : list (nat * nat)) (v : nat) : nat :=
  foldl (λ v e, if decide (v = e.1) then e.2 else v) v pm.

(** The context-free result [res] of a palette entry is taken as it is:
    the needs-context flag is false or no resolver was supplied. *)
Definition accepted (translate : TranslateCallback)
    (get_chunk_callback : option Resolver)
    (e : PaletteEntry) (res : TranslateResult) : Prop :=
  returns (translate e None) res ∧ res.2 && supplied get_chunk_callback = false.

(** What holds of the loop variables once the first [k] palette slots went
    through the context-free pass. *)
Definition first_pass_inv (palette : Palette) (translate : TranslateCallback)
    (get_chunk_callback : option Resolver) (k : nat) (w : Work) : Prop :=
  NoDup (finished w) ∧
  length (finished w) ≤ k ∧
  block_mappings w = [] ∧
  StronglySorted (λ a b : nat * nat, a.1 < b.1) (palette_mappings w) ∧
  Forall (λ e : nat * nat, e.1 < k ∧ e.2 ≤ e.1) (palette_mappings w) ∧
  Forall (λ i, i < k) (todo w) ∧
  (∀ i, i < k →
     ∃ e res, palette !! i = Some e ∧ returns (translate e None) res ∧
       (if res.2 && supplied get_chunk_callback
        then (i ∈ todo w) ∧ (∀ s, (i, s) ∉ palette_mappings w)
        else (i ∉ todo w) ∧
             (∃ s, (i, s) ∈ palette_mappings w ∧
                   finished w !! s = Some res.1.1.1))) ∧
  Forall (λ o, ∃ e res, e ∈ palette ∧
                 accepted translate get_chunk_callback e res ∧
                 o = res.1.1.1) (finished w).

(** What the context-aware pass keeps of the state [w0] it started from. *)
Definition second_pass_inv (chunk : Chunk) (w0 w : Work) : Prop :=
  NoDup (finished w) ∧
  finished w0 `prefix_of` finished w ∧
  palette_mappings w = palette_mappings w0 ∧
  todo w = todo w0 ∧
  Forall (λ e : nat * nat * nat * nat,
            ∃ index, index ∈ todo w0 ∧ e.1 ∈ where_eq (blocks chunk) index)
         (block_mappings w).

(** *** Vocabulary of the further properties *)

(** The coordinates the context-aware pass goes through, in its order. *)
Definition deferred_coordinates (chunk : Chunk) (w : Work)
    : list (nat * nat * nat) :=
  todo w ≫= where_eq (blocks chunk).

(** [o] is the block the wrapper returns at coordinate [c] when it is handed
    the neighbour lookup built for [c]. *)
Definition context_output (chunk : Chunk) (palette : Palette)
    (get_chunk_callback : option Resolver) (translate : TranslateCallback)
    (c : nat * nat * nat) (o : option Block) : Prop :=
  ∃ i e res,
    getitem3 (blocks chunk) c.1.1 c.1.2 c.2 = Some i ∧
    palette !! i = Some e ∧
    returns (translate e
               (Some (get_block_at chunk palette get_chunk_callback
                        (Z.of_nat c.1.1) (Z.of_nat c.1.2) (Z.of_nat c.2)))) res ∧
    o = res.1.1.1.

(** What holds of the loop variables once the coordinates [cs] went through
    the context-aware pass that started from [w0]. *)
Definition second_pass_done (chunk : Chunk) (palette : Palette)
    (get_chunk_callback : option Resolver) (translate : TranslateCallback)
    (w0 w : Work) (cs : list (nat * nat * nat)) : Prop :=
  NoDup (finished w) ∧
  finished w0 `prefix_of` finished w ∧
  NoDup (block_mappings w).*1 ∧
  (∀ c s, (c, s) ∈ block_mappings w →
     c ∈ cs ∧
     ∃ o, context_output chunk palette get_chunk_callback translate c o ∧
          finished w !! s = Some o) ∧
  (∀ c, c ∈ cs → ∃ s, (c, s) ∈ block_mappings w) ∧
  Forall (λ o, o ∈ finished w0 ∨
               ∃ c, c ∈ cs ∧
                    context_output chunk palette get_chunk_callback translate c o)
         (finished w).

(** [_translate] takes [companion] as the block entity of the cell [c]:
    the cell holds a palette slot whose entry the wrapper translates without
    a neighbour lookup; when that call asks for context and a resolver was
    supplied, the companion is the one the wrapper returns for the entry
    with the neighbour lookup bound to [c], otherwise it is the one that
    first call returned. *)
Definition cell_companion (chunk : Chunk) (palette : Palette)
    (get_chunk_callback : option Resolver) (translate : TranslateCallback)
    (c : nat * nat * nat) (companion : BlockEntity) : Prop :=
  ∃ i e res0,
    getitem3 (blocks chunk) c.1.1 c.1.2 c.2 = Some i ∧
    palette !! i = Some e ∧
    returns (translate e None) res0 ∧
    if res0.2 && supplied get_chunk_callback
    then ∃ res,
           returns (translate e
                      (Some (get_block_at chunk palette get_chunk_callback
                               (Z.of_nat c.1.1) (Z.of_nat c.1.2)
                               (Z.of_nat c.2)))) res ∧
           res.1.1.2 = Some companion
    else res0.1.1.2 = Some companion.

(** A grid of 16 planes of [h] rows of 16 cells. *)
Definition well_shaped (h : nat) (g : Grid) : Prop :=
  length g = 16 ∧
  Forall (λ plane : list (list nat),
            length plane = h ∧ Forall (λ row : list nat, length row = 16) plane) g.

(** The events of one layer when the rule answers without the callback:
    the rule call, then the diagnostic of the namespace test.  Forward, a
    block output whose namespace does not start with universal is reported;
    backward, one whose namespace does, and only when [__debug__] holds.  An
    entity output is never reported. *)
Definition layer_events (__debug__ : bool) (d : Direction)
    (input_object layer : Block) (out : RuleOutput) : list Event :=
  BlockRuleCalled d layer false ::
  match out.1.1, d with
  | OutBlock b, ToUniversal =>
      if String.prefix "universal" (namespace b) then []
      else [DebugLogged (ErrorTranslatingToUniversal input_object b)]
  | OutBlock b, FromUniversal =>
      if __debug__ && String.prefix "universal" (namespace b)
      then [DebugLogged (ErrorTranslatingFromUniversal input_object b)]
      else []
  | OutEntity _, _ => []
  end.

(** A block entity whose name the forward alias map knows. *)
Definition renamed_to_universal (names : gmap string EntityName)
    (be : BlockEntity) : BlockEntity :=
  match be_namespace be, names !! be_base_name be with
  | None, Some n => set_namespaced_name be n
  | _, _ => be
  end.

(** The calls the wrapper makes at a coordinate of the context-aware pass. *)
Definition context_trace (chunk : Chunk) (palette : Palette)
    (get_chunk_callback : option Resolver) (translate : TranslateCallback)
    (c : nat * nat * nat) : list Event :=
  match getitem3 (blocks chunk) c.1.1 c.1.2 c.2 ≫= λ i, palette !! i with
  | Some e =>
      trace (translate e
               (Some (get_block_at chunk palette get_chunk_callback
                        (Z.of_nat c.1.1) (Z.of_nat c.1.2) (Z.of_nat c.2))))
  | None => []
  end.

End Spec.

(** ** Sample inputs *)

Module Examples.
Import Api Numpy Translator.

Definition simple (ns name : string) : Block :=
  mkBlock (mkBlockState ns name ∅) [].

Definition stone : Block := simple "minecraft" "stone".
Definition granite : Block := simple "minecraft" "granite".
Definition dirt : Block := simple "minecraft" "dirt".
Definition universal_stone : Block := simple "universal_minecraft" "stone".
Definition universal_water : Block := simple "universal_minecraft" "water".
Definition universal_chest : Block := simple "universal_minecraft" "chest".

(** Stone with a water layer. *)
Definition waterlogged_stone : Block :=
  mkBlock (mkBlockState "minecraft" "stone" ∅)
          [mkBlockState "minecraft" "water" ∅].

(** A chest with a water layer and an item-frame layer. *)
Definition framed_chest : Block :=
  mkBlock (mkBlockState "minecraft" "chest" ∅)
          [mkBlockState "minecraft" "water" ∅;
           mkBlockState "minecraft" "item_frame" ∅].

Definition chest_entity : BlockEntity := mkBlockEntity None "Chest" 0 0 0 "{}".
Definition water_entity : BlockEntity :=
  mkBlockEntity (Some "universal_minecraft") "water" 0 0 0 "{}".
Definition frame : Entity := mkEntity "minecraft" "item_frame" (0, 0, 0)%Z ∅.

(** Rules that leave every layer as it is and never need context. *)
Definition identity_version : Version :=
  mkVersion (λ layer _, Return (OutBlock layer, None, false))
            (λ layer _, Return (OutBlock layer, None, false))
            (λ code, code + 100)%Z (λ code, code - 100)%Z
            None ∅.

(** Rules that send stone and granite to one block, make water need
    context and give it a companion block entity, give chests a companion
    block entity, and turn item frames into entities. *)
Definition sample_rule (layer : Block) (with_callback : bool) : Probe RuleOutput :=
  if decide (base_name layer = "stone") then
    Return (OutBlock universal_stone, None, false)
  else if decide (base_name layer = "granite") then
    Return (OutBlock universal_stone, None, false)
  else if decide (base_name layer = "water") then
    Return (OutBlock universal_water, Some water_entity, true)
  else if decide (base_name layer = "chest") then
    Return (OutBlock universal_chest, Some chest_entity, false)
  else if decide (base_name layer = "item_frame") then
    Return (OutEntity frame, None, false)
  else Return (OutBlock layer, None, false).

Definition sample_version : Version :=
  mkVersion sample_rule sample_rule
            (λ code, code + 100)%Z (λ code, code - 100)%Z
            (Some {[ "Chest" := (Some "universal_minecraft", "chest") ]})
            {[ (Some "universal_minecraft", "chest") := (None, "Chest") ]}.

(** A 2 x 2 x 2 chunk at chunk coordinates (2, 5). *)
Definition sample_chunk : Chunk :=
  mkChunk 2 5
          [[[0; 1]; [2; 1]]; [[1; 1]; [0; 2]]]
          (mkArray [2; 2] [3; 1; 3; 2]%Z)
          [mkBlockEntity None "Chest" 32 0 80 "{}"]
          [frame].

Definition sample_palette : Palette := [PBlock stone; PBlock dirt; PBlock granite].

(** What [_translate] makes of them with the sample rules. *)
Definition merged_chunk : Chunk :=
  mkChunk 2 5
          [[[0; 1]; [0; 1]]; [[1; 1]; [0; 0]]]
          (mkArray [2; 2] [3; 1; 3; 2]%Z)
          []
          [frame].

Definition merged_palette : Palette := [PBlock universal_stone; PBlock dirt].

(** What the rule returns for the layers of the waterlogged stone, and the
    loop variables after the context-free pass over a palette holding only
    that block, with no resolver. *)
Definition waterlogged_outputs : list RuleOutput :=
  [(OutBlock universal_stone, None, false);
   (OutBlock universal_water, Some water_entity, true)].

Definition waterlogged_work : Work :=
  mkWork [] [] [Some (block_add universal_stone universal_water)] [(0, 0)] [].

(** What the rule returns for the layers of the framed chest. *)
Definition framed_chest_outputs : list RuleOutput :=
  [(OutBlock universal_chest, Some chest_entity, false);
   (OutBlock universal_water, Some water_entity, true);
   (OutEntity frame, None, false)].

(** A biome array of shape (16, 16). *)
Definition biomes_16x16 : ndarray Z :=
  mkArray [16; 16] ((λ n, Z.of_nat (n `mod` 5)) <$> seq 0 256).

(** A rule that needs context: a fence looks at the block to its east and is
    joined to it when that is a fence too; without a neighbour lookup it
    answers alone and asks for context. *)
Definition fence : Block := simple "minecraft" "fence".
Definition lone_fence : Block := simple "universal_minecraft" "fence".
Definition joined_fence : Block :=
  mkBlock (mkBlockState "universal_minecraft" "fence" {[ "east" := "true" ]}) [].

Definition fence_rule (layer : Block) (with_callback : bool) : Probe RuleOutput :=
  if decide (base_name layer = "fence") then
    if with_callback then
      GetBlock (1, 0, 0)%Z
        (λ found,
           Return (OutBlock match found.1 with
                            | PBlock b =>
                                if decide (b = fence) then joined_fence
                                else lone_fence
                            | _ => lone_fence
                            end,
                   None, false))
    else Return (OutBlock lone_fence, None, true)
  else Return (OutBlock universal_stone, None, false).

Definition fence_version : Version :=
  mkVersion fence_rule fence_rule (λ code, code) (λ code, code) None ∅.

(** A 16 x 1 x 1 row at chunk (0, 0): stone, with fences at x = 14 and 15. *)
Definition fence_chunk : Chunk :=
  mkChunk 0 0
          ((λ x, [[if decide (14 ≤ x) then 1 else 0]]) <$> seq 0 16)
          (mkArray [16; 16] (replicate 256 1%Z))
          [] [].

Definition fence_palette : Palette := [PBlock stone; PBlock fence].

(** The chunk to the east: stone only. *)
Definition stone_chunk : Chunk :=
  mkChunk 1 0 (replicate 16 [[0]]) (mkArray [16; 16] (replicate 256 1%Z)) [] [].

Definition east_is_stone : Resolver :=
  λ dcx dcz, inr (stone_chunk, [PBlock stone]).

(** The chunk east of the sample chunk: chests all over, five cells high,
    with the block entity of the chest at (48, 4, 80). *)
Definition chest : Block := simple "minecraft" "chest".
Definition chest_at_48_4_80 : BlockEntity :=
  mkBlockEntity None "Chest" 48 4 80 "{}".

Definition chest_chunk : Chunk :=
  mkChunk 3 5 (replicate 16 (replicate 5 (replicate 16 1)))
          (mkArray [16; 16] (replicate 256 1%Z))
          [mkBlockEntity None "Chest" 48 3 80 "{}"; chest_at_48_4_80] [].

Definition east_is_chests : Resolver :=
  λ dcx dcz, inr (chest_chunk, [PBlock stone; PBlock chest]).

Definition east_is_missing : Resolver :=
  λ dcx dcz, inl (OtherError "chunk not loaded").

(** What [_translate] makes of the fence row with stone to the east. *)
Definition fenced_chunk : Chunk :=
  mkChunk 0 0
          ((λ x, [[if decide (x = 15) then 2
                   else if decide (x = 14) then 1 else 0]]) <$> seq 0 16)
          (mkArray [16; 16] (replicate 256 1%Z))
          [] [].

Definition fenced_palette : Palette :=
  [PBlock universal_stone; PBlock joined_fence; PBlock lone_fence].

(** A 2 x 1 x 2 chunk at chunk coordinates (2, 5) holding stone, a chest
    and two cells of water, with a block entity of its own; and what
    [_translate] makes of it with the sample rules and a resolver: the chest
    and the water cells get their companions, the water cells after the
    chest because their slot is deferred, and the chunk's own block entity
    is gone. *)
Definition water : Block := simple "minecraft" "water".

Definition pond_chunk : Chunk :=
  mkChunk 2 5 [[[2; 1]]; [[0; 2]]] (mkArray [2; 2] [3; 1; 3; 2]%Z)
          [mkBlockEntity None "Sign" 33 0 81 "{}"] [].

Definition pond_palette : Palette := [PBlock stone; PBlock chest; PBlock water].

Definition furnished_chunk : Chunk :=
  mkChunk 2 5 [[[2; 1]]; [[0; 2]]] (mkArray [2; 2] [3; 1; 3; 2]%Z)
          [mkBlockEntity None "Chest" 32 0 81 "{}";
           mkBlockEntity (Some "universal_minecraft") "water" 32 0 80 "{}";
           mkBlockEntity (Some "universal_minecraft") "water" 33 0 81 "{}"]
          [].

Definition furnished_palette : Palette :=
  [PBlock universal_stone; PBlock universal_chest; PBlock universal_water].

(** Block entities with bare and namespaced names. *)
Definition bare_chest : BlockEntity := mkBlockEntity None "Chest" 32 0 80 "{}".
Definition bare_sign : BlockEntity := mkBlockEntity None "Sign" 33 4 81 "{}".
Definition named_chest : BlockEntity :=
  mkBlockEntity (Some "minecraft") "Chest" 34 5 82 "{}".

(** A 16 x 2 x 16 chunk: a layer of stone under a layer of dirt. *)
Definition slab_chunk : Chunk :=
  mkChunk 0 0 (replicate 16 [replicate 16 0; replicate 16 1])
          (mkArray [16; 16] (replicate 256 1%Z)) [] [].

Definition slab_palette : Palette := [PBlock stone; PBlock dirt].

End Examples.

(** * Part II: lemmas and theorems *)

Import Api Numpy Translator Spec.

(** ** Tuple order *)

Lemma tuple_le_refl a : PyTuple.le a a = true.
Proof. induction a as [|x a IH]; simpl; [done|]. by rewrite Z.eqb_refl. Qed.

Lemma tuple_not_lt_le a b : PyTuple.lt b a = false → PyTuple.le a b = true.
Proof.
  revert b; induction a as [|x a IH]; intros [|y b]; simpl; try done.
  rewrite (Z.eqb_sym y x).
  destruct (Z.eqb_spec x y) as [->|Hne]; [apply IH|].
  intros H%Z.ltb_ge. apply Z.ltb_lt. lia.
Qed.

Lemma tuple_lt_le a b : PyTuple.lt a b = true → PyTuple.le a b = true.
Proof.
  revert b; induction a as [|x a IH]; intros [|y b]; simpl; try done.
  destruct (x =? y)%Z; [apply IH|done].
Qed.

Lemma tuple_min_le_l a b : PyTuple.le (PyTuple.min a b) a = true.
Proof.
  unfold PyTuple.min.
  destruct (PyTuple.lt b a) eqn:H; [by apply tuple_lt_le|apply tuple_le_refl].
Qed.

Lemma tuple_min_le_r a b : PyTuple.le (PyTuple.min a b) b = true.
Proof.
  unfold PyTuple.min.
  destruct (PyTuple.lt b a) eqn:H; [apply tuple_le_refl|by apply tuple_not_lt_le].
Qed.

Lemma tuple_min_cases a b : PyTuple.min a b = a ∨ PyTuple.min a b = b.
Proof. unfold PyTuple.min. destruct (PyTuple.lt b a); auto. Qed.

(** ** The chunk-version table *)

(** C7 (as stated, refuted): the clamp is not the componentwise minimum.
    For chunk version 13 and world version 1.20.0.0 the code answers
    1.11.1.9999 while the componentwise minimum is 1.11.0.0. *)
Lemma chunk_to_game_version_not_componentwise :
  ChunkVersions.dict_get ChunkVersions.chunk_version_to_max_version 13
    = Some ([1; 11; 1; 0], [1; 11; 1; 9999])%Z ∧
  ChunkVersions.chunk_to_game_version [1; 20; 0; 0]%Z 13
    = Some [1; 11; 1; 9999]%Z ∧
  PyTuple.componentwise_min [1; 20; 0; 0]%Z [1; 11; 1; 9999]%Z
    = [1; 11; 0; 0]%Z ∧
  ChunkVersions.chunk_to_game_version [1; 20; 0; 0]%Z 13
    ≠ Some (PyTuple.componentwise_min [1; 20; 0; 0]%Z [1; 11; 1; 9999]%Z).
Proof. repeat split; try reflexivity. discriminate. Qed.

(** C7 (amended): for every game version [g] and every chunk version [v] of
    the table, [chunk_to_game_version g v] is the smaller of [g] and the
    recorded maximum under Python's lexicographic tuple order: it is one of
    the two and is below both.  The two documented values hold:
    [chunk_to_game_version (1,20,0,0) 15 = (1,20,0,0)] and
    [game_to_chunk_version (1,11,1,0) = 13]. *)
Theorem chunk_to_game_version_lexicographic_min
    (g : list Z) (v : Z) (first last : list Z) :
  ChunkVersions.dict_get ChunkVersions.chunk_version_to_max_version v
    = Some (first, last) →
  (∃ r, ChunkVersions.chunk_to_game_version g v = Some r ∧
        (r = g ∨ r = last) ∧
        PyTuple.le r g = true ∧ PyTuple.le r last = true) ∧
  ChunkVersions.chunk_to_game_version [1; 20; 0; 0]%Z 15
    = Some [1; 20; 0; 0]%Z ∧
  ChunkVersions.game_to_chunk_version [1; 11; 1; 0]%Z = Some 13%Z.
Proof.
  intros Hv. split; [|split; reflexivity].
  unfold ChunkVersions.chunk_to_game_version. rewrite Hv. simpl.
  exists (PyTuple.min last g). split; [done|].
  split; [destruct (tuple_min_cases last g); auto|].
  split; [apply tuple_min_le_r|apply tuple_min_le_l].
Qed.

Lemma chunk_to_game_version_lexicographic_min_witness :
  (∃ r, ChunkVersions.chunk_to_game_version [1; 20; 0; 0]%Z 13 = Some r ∧
        (r = [1; 20; 0; 0]%Z ∨ r = [1; 11; 1; 9999]%Z) ∧
        PyTuple.le r [1; 20; 0; 0]%Z = true ∧
        PyTuple.le r [1; 11; 1; 9999]%Z = true) ∧
  ChunkVersions.chunk_to_game_version [1; 20; 0; 0]%Z 15
    = Some [1; 20; 0; 0]%Z ∧
  ChunkVersions.game_to_chunk_version [1; 11; 1; 0]%Z = Some 13%Z.
Proof.
  apply (chunk_to_game_version_lexicographic_min
           [1; 20; 0; 0]%Z 13 [1; 11; 1; 0]%Z [1; 11; 1; 9999]%Z).
  reflexivity.
Defined.

(** ** The result monad *)

Lemma outcome_bind {A B} (m : M A) (f : A → M B) :
  outcome (m ≫= f) =
    match outcome m with inl e => inl e | inr a => outcome (f a) end.
Proof. unfold mbind, M_bind. by destruct (outcome m). Qed.

Lemma trace_bind {A B} (m : M A) (f : A → M B) :
  trace (m ≫= f) =
    match outcome m with inl _ => trace m | inr a => trace m ++ trace (f a) end.
Proof. unfold mbind, M_bind. by destruct (outcome m). Qed.

Lemma returns_bind {A B} (m : M A) (f : A → M B) (b : B) :
  returns (m ≫= f) b ↔ ∃ a, returns m a ∧ returns (f a) b.
Proof.
  unfold returns. rewrite outcome_bind. split.
  - destruct (outcome m) as [e|a]; [done|]. eauto.
  - intros (a & -> & Hf). done.
Qed.

Lemma fails_bind {A B} (m : M A) (f : A → M B) : fails m → fails (m ≫= f).
Proof. intros [e He]. exists e. by rewrite outcome_bind, He. Qed.

Lemma returns_inj {A} (m : M A) (a b : A) : returns m a → returns m b → a = b.
Proof. unfold returns. congruence. Qed.

Lemma lift_index_returns {A} (o : option A) (a : A) :
  returns (lift_index o) a ↔ o = Some a.
Proof. unfold returns. destruct o; simpl; split; congruence. Qed.

Lemma lift_index_trace {A} (o : option A) : trace (lift_index o) = [].
Proof. by destruct o. Qed.

Lemma M_eq {A} (m1 m2 : M A) :
  trace m1 = trace m2 → outcome m1 = outcome m2 → m1 = m2.
Proof. destruct m1, m2. simpl. by intros -> ->. Qed.

Lemma mret_bind {A B} (a : A) (f : A → M B) : mret a ≫= f = f a.
Proof. by apply M_eq. Qed.

Lemma bind_mret {A} (m : M A) : m ≫= mret = m.
Proof.
  apply M_eq.
  - rewrite trace_bind. destruct (outcome m); [done|]. apply app_nil_r.
  - rewrite outcome_bind. by destruct (outcome m).
Qed.

Lemma bind_assoc {A B C} (m : M A) (f : A → M B) (g : B → M C) :
  (m ≫= f) ≫= g = m ≫= λ a, f a ≫= g.
Proof.
  destruct m as [t [e|a]]; unfold mbind, M_bind; simpl; [done|].
  destruct (outcome (f a)); simpl; [done|]. by rewrite app_assoc.
Qed.

Lemma bind_ext {A B} (m : M A) (f g : A → M B) :
  (∀ a, f a = g a) → m ≫= f = m ≫= g.
Proof.
  intros Hfg. unfold mbind, M_bind. destruct (outcome m); [done|]. by rewrite Hfg.
Qed.

(** ** The neighbour lookup *)

Lemma unwrap_entry_trace (e : PaletteEntry) : trace (unwrap_entry e) = [].
Proof. destruct e as [| |[|[]]|]; done. Qed.

Lemma block_in_trace c p dx dy dz ax ay az :
  trace (block_in c p dx dy dz ax ay az) = [].
Proof.
  unfold block_in. rewrite trace_bind, lift_index_trace.
  destruct (outcome (lift_index _)); [done|].
  rewrite trace_bind, lift_index_trace.
  destruct (outcome (lift_index _)); [done|].
  rewrite trace_bind, unwrap_entry_trace.
  by destruct (outcome (unwrap_entry _)).
Qed.

Lemma find_block_entity_first_at (bes : list BlockEntity) (x y z : Z) :
  first_at bes x y z (find_block_entity bes x y z).
Proof.
  unfold find_block_entity.
  induction bes as [|be bes IH]; simpl.
  - by intros b ?%elem_of_nil.
  - case_bool_decide as Hpos.
    + exists [], bes. split; [done|]. split; [done|]. by intros b ?%elem_of_nil.
    + destruct (List.find _ bes) as [found|]; simpl in *.
      * destruct IH as (before & after & -> & Hfound & Hbefore).
        exists (be :: before), after. split; [done|]. split; [done|].
        intros b [->|Hb]%elem_of_cons; [done|by apply Hbefore].
      * intros b [->|Hb]%elem_of_cons; [done|by apply IH].
Qed.

Lemma block_in_resolves (c : Chunk) (p : Palette) (dx dy dz abs_x abs_y abs_z : Z) :
  resolves_in c p (dx `mod` 16) dy (dz `mod` 16) abs_x abs_y abs_z
              (block_in c p dx dy dz abs_x abs_y abs_z).
Proof.
  unfold resolves_in, block_in.
  destruct (np_getitem3 _ _ _ _) as [i|]; [|done]. cbn [lift_index mbind option_bind].
  rewrite mret_bind.
  destruct (p !! i) as [e|]; [|done]. cbn [lift_index]. rewrite mret_bind.
  destruct e as [b|e|[|[v b] rest]|]; try done;
    cbn [unwrap_entry]; rewrite mret_bind;
    (eexists; split; [reflexivity|apply find_block_entity_first_at]).
Qed.

Lemma get_block_at_unfold (chunk : Chunk) (palette : Palette)
    (resolver : Resolver) (x y z dx dy dz : Z) :
  get_block_at chunk palette (Some resolver) x y z (dx, dy, dz)
    = (if decide ((x + dx) `div` 16 = 0 ∧ (z + dz) `div` 16 = 0)%Z
       then block_in chunk palette (x + dx) (y + dy) (z + dz)
                     (x + dx + cx chunk * 16) (y + dy) (z + dz + cz chunk * 16)
       else mkM [ResolverCalled ((x + dx) `div` 16) ((z + dz) `div` 16)]
                (resolver ((x + dx) `div` 16) ((z + dz) `div` 16))%Z ≫= λ found,
            block_in found.1 found.2 (x + dx) (y + dy) (z + dz)
                     (x + dx + cx chunk * 16) (y + dy)
                     (z + dz + cz chunk * 16))%Z.
Proof.
  unfold get_block_at.
  rewrite (Z.add_comm dx x), (Z.add_comm dy y), (Z.add_comm dz z).
  destruct (decide (_ ∧ _)) as [[Hx Hz]|Hne].
  - by rewrite Hx, Hz.
  - assert (bool_decide ((x + dx) `div` 16 = 0)%Z
            && bool_decide ((z + dz) `div` 16 = 0)%Z = false) as ->.
    { apply andb_false_iff.
      destruct (decide ((x + dx) `div` 16 = 0)%Z) as [Hx|Hx];
        [|left; by apply bool_decide_eq_false_2].
      destruct (decide ((z + dz) `div` 16 = 0)%Z) as [Hz|Hz];
        [tauto|right; by apply bool_decide_eq_false_2]. }
    unfold call_resolver, mbind, M_bind. simpl.
    by destruct (resolver _ _) as [|[c p]].
Qed.

Lemma get_block_at_resolves (c : Chunk) (palette : Palette)
    (resolver : Resolver) (x y z dx dy dz : Z) :
  let abs_x := (x + dx + cx c * 16)%Z in
  let abs_y := (y + dy)%Z in
  let abs_z := (z + dz + cz c * 16)%Z in
  let dcx := ((x + dx) `div` 16)%Z in
  let dcz := ((z + dz) `div` 16)%Z in
  let lookup := get_block_at c palette (Some resolver) x y z (dx, dy, dz) in
  if decide (dcx = 0%Z ∧ dcz = 0%Z)
  then trace lookup = [] ∧
       resolves_in c palette (x + dx) (y + dy) (z + dz) abs_x abs_y abs_z lookup
  else trace lookup = [ResolverCalled dcx dcz] ∧
       match resolver dcx dcz with
       | inl err => outcome lookup = inl err
       | inr (local_chunk, local_palette) =>
           resolves_in local_chunk local_palette
                       ((x + dx) `mod` 16) (y + dy) ((z + dz) `mod` 16)
                       abs_x abs_y abs_z lookup
       end.
Proof.
  intros abs_x abs_y abs_z dcx dcz lookup. subst lookup.
  rewrite get_block_at_unfold. fold dcx dcz abs_x abs_y abs_z.
  destruct (decide (_ ∧ _)) as [[Hx Hz]|Hne].
  - split; [apply block_in_trace|].
    pose proof (block_in_resolves c palette (x + dx) (y + dy) (z + dz)
                  abs_x abs_y abs_z) as Hres.
    assert (((x + dx) `mod` 16 = x + dx)%Z) as Hmx.
    { pose proof (Z.div_mod (x + dx) 16 ltac:(lia)). unfold dcx in Hx. lia. }
    assert (((z + dz) `mod` 16 = z + dz)%Z) as Hmz.
    { pose proof (Z.div_mod (z + dz) 16 ltac:(lia)). unfold dcz in Hz. lia. }
    by rewrite Hmx, Hmz in Hres.
  - rewrite trace_bind. cbn [trace outcome].
    destruct (resolver dcx dcz) as [err|[lc lp]] eqn:Hr.
    + split; [done|]. rewrite outcome_bind. cbn [outcome]. done.
    + cbn [fst snd]. rewrite block_in_trace. split; [done|].
      pose proof (block_in_resolves lc lp (x + dx) (y + dy) (z + dz)
                    abs_x abs_y abs_z) as Hres.
      unfold resolves_in in *. rewrite outcome_bind. cbn [outcome fst snd].
      exact Hres.
Qed.

(** C2: for the closure built at local [(x, y, z)] of a chunk and an offset
    [(dx, dy, dz)], the probed absolute position is
    [(x+dx+cx*16, y+dy, z+dz+cz*16)] and the chunk delta is
    [((x+dx) div 16, (z+dz) div 16)] with floor division.  With delta (0,0)
    the resolver is not called and the lookup resolves against the current
    chunk: it answers the palette entry under the index the chunk's grid
    holds at [(x+dx, y+dy, z+dz)] and the first block entity of the chunk at
    the absolute position.  Otherwise the resolver is called, once, with
    exactly that delta; its exception is the lookup's, and the chunk and
    palette it returns are resolved against in the same way, the grid
    subscripted at [((x+dx) mod 16, y+dy, (z+dz) mod 16)].  At local
    (15, y, 0) of chunk (2, 5) with offset (1, 0, 0) the resolver is called
    with (1, 0), and the lookup answers from cell (0, y, 0) of the chunk it
    returns and the block entity at the absolute position (48, y, 80). *)
Theorem get_block_at_coordinates
    (chunk : Chunk) (palette : Palette) (resolver : Resolver)
    (x y z dx dy dz : Z) :
  let abs_x := (x + dx + cx chunk * 16)%Z in
  let abs_y := (y + dy)%Z in
  let abs_z := (z + dz + cz chunk * 16)%Z in
  let dcx := ((x + dx) `div` 16)%Z in
  let dcz := ((z + dz) `div` 16)%Z in
  let lookup := get_block_at chunk palette (Some resolver) x y z (dx, dy, dz) in
  (if decide (dcx = 0%Z ∧ dcz = 0%Z)
   then trace lookup = [] ∧
        resolves_in chunk palette (x + dx) (y + dy) (z + dz)
                    abs_x abs_y abs_z lookup
   else trace lookup = [ResolverCalled dcx dcz] ∧
        match resolver dcx dcz with
        | inl err => outcome lookup = inl err
        | inr (local_chunk, local_palette) =>
            resolves_in local_chunk local_palette
                        ((x + dx) `mod` 16) (y + dy) ((z + dz) `mod` 16)
                        abs_x abs_y abs_z lookup
        end) ∧
  (∀ g b bes es,
     let probe := get_block_at (mkChunk 2 5 g b bes es) palette (Some resolver)
                               15 y 0 (1, 0, 0)%Z in
     trace probe = [ResolverCalled 1 0] ∧
     match resolver 1%Z 0%Z with
     | inl err => outcome probe = inl err
     | inr (local_chunk, local_palette) =>
         resolves_in local_chunk local_palette 0 y 0 48 y 80 probe
     end).
Proof.
  intros abs_x abs_y abs_z dcx dcz lookup. split.
  - apply get_block_at_resolves.
  - intros g b bes es probe.
    pose proof (get_block_at_resolves (mkChunk 2 5 g b bes es) palette resolver
                  15 y 0 1 0 0) as H.
    cbn [cx cz] in H.
    replace (y + 0)%Z with y in H by lia.
    change ((15 + 1) `div` 16)%Z with 1%Z in H.
    change ((0 + 0) `div` 16)%Z with 0%Z in H.
    change ((15 + 1) `mod` 16)%Z with 0%Z in H.
    change ((0 + 0) `mod` 16)%Z with 0%Z in H.
    change (15 + 1 + 2 * 16)%Z with 48%Z in H.
    change (0 + 0 + 5 * 16)%Z with 80%Z in H.
    rewrite decide_False in H by (intros [? _]; done).
    exact H.
Qed.

(** The probe of the claim's instance, against a neighbour whose cell
    (0, 4, 0) holds a chest: the chest and its block entity, the one at
    (48, 4, 80) and not the one a cell below, come back. *)
Lemma get_block_at_coordinates_witness :
  trace (get_block_at Examples.sample_chunk Examples.sample_palette
           (Some Examples.east_is_chests) 15 4 0 (1, 0, 0)%Z)
    = [ResolverCalled 1 0] ∧
  outcome (get_block_at Examples.sample_chunk Examples.sample_palette
             (Some Examples.east_is_chests) 15 4 0 (1, 0, 0)%Z)
    = inr (PBlock Examples.chest, Some Examples.chest_at_48_4_80).
Proof.
  destruct (get_block_at_coordinates Examples.sample_chunk
              Examples.sample_palette Examples.east_is_chests 15 4 0 1 0 0)
    as [_ Hprobe].
  destruct (Hprobe (blocks Examples.sample_chunk) (biomes Examples.sample_chunk)
              (block_entities Examples.sample_chunk)
              (entities Examples.sample_chunk)) as [Htrace Hres].
  split; [exact Htrace|].
  destruct Hres as ([be|] & Hout & Hfirst).
  - etrans; [exact Hout|]. do 2 f_equal.
    destruct Hfirst as (before & after & Hbes & Hpos & Hbefore).
    destruct before as [|b0 [|b1 before]]; simplify_eq/=;
      first [done | by destruct before].
  - exfalso. apply (Hfirst Examples.chest_at_48_4_80); [|done].
    apply list_elem_of_In. simpl. tauto.
Defined.

(** ** The biome recoder *)

Lemma map_M_emit {A B} (ev : A → Event) (f : A → B) (l : list A) :
  map_M (λ a, emit (ev a);; mret (f a)) l = mkM (ev <$> l) (inr (f <$> l)).
Proof.
  induction l as [|a l IH]; [done|].
  cbn [map_M]. rewrite IH.
  unfold mbind, M_bind, mret, M_ret, emit. simpl. by rewrite app_nil_r.
Qed.

Lemma elem_of_unique_values (d : list Z) (v : Z) : v ∈ unique_values d ↔ v ∈ d.
Proof.
  unfold unique_values. rewrite merge_sort_Permutation.
  apply elem_of_remove_dups.
Qed.

Lemma NoDup_unique_values (d : list Z) : NoDup (unique_values d).
Proof.
  unfold unique_values. rewrite merge_sort_Permutation.
  apply NoDup_remove_dups.
Qed.

Lemma Sorted_unique_values (d : list Z) : Sorted Z.le (unique_values d).
Proof. apply (Sorted_merge_sort Z.le). Qed.

Lemma index_of_elem {A} `{EqDecision A} (b : A) (l : list A) :
  b ∈ l → ∃ i, index_of b l = Some i ∧ l !! i = Some b.
Proof.
  induction l as [|x l IH]; [by intros ?%elem_of_nil|].
  intros Hin. simpl. destruct (decide (x = b)) as [->|Hne].
  - exists 0%nat. done.
  - apply elem_of_cons in Hin as [->|Hin]; [done|].
    destruct (IH Hin) as (i & -> & Hi). exists (S i). done.
Qed.

Lemma index_of_Some {A} `{EqDecision A} (b : A) (l : list A) (i : nat) :
  index_of b l = Some i → l !! i = Some b ∧ ∀ j, l !! j = Some b → i ≤ j.
Proof.
  revert i. induction l as [|x l IH]; intros i; [done|].
  simpl. destruct (decide (x = b)) as [->|Hne].
  - intros [= <-]. split; [done|]. intros; lia.
  - destruct (index_of b l) as [i'|] eqn:Hi; [|done].
    intros [= <-]. destruct (IH i' eq_refl) as [Hl Hmin]. split; [done|].
    intros [|j]; simpl; [congruence|]. intros Hj%Hmin. lia.
Qed.

Lemma index_of_None {A} `{EqDecision A} (b : A) (l : list A) :
  index_of b l = None → b ∉ l.
Proof.
  intros Hnone Hin. destruct (index_of_elem b l Hin) as (i & Hi & _). congruence.
Qed.

(** Indexing the mapped palette with the inverse indices maps every cell. *)
Lemma take_unique_inverse (f : Z → Z) (u d : list Z) :
  (∀ v, v ∈ d → v ∈ u) →
  mapM (λ i, (f <$> u) !! i) ((λ v, default 0%nat (index_of v u)) <$> d)
    = Some (f <$> d).
Proof.
  induction d as [|v d IH]; intros Hsub; [done|].
  destruct (index_of_elem v u) as (i & Hi & Hu); [apply Hsub; left|].
  rewrite fmap_cons. cbn [mapM]. rewrite Hi. cbn [default].
  change (id i) with i. rewrite list_lookup_fmap, Hu. cbn [fmap option_fmap option_map mbind option_bind].
  rewrite IH; [done|]. intros w Hw. apply Hsub. by right.
Qed.

Lemma recode_unique (d : Direction) (f : Z → Z) (a : ndarray Z) :
  (map_M (λ biome, emit (BiomeRuleCalled d biome);; mret (f biome))
         (unique a).1 ≫= λ p, lift_index (take p (unique a).2))
    = mkM (BiomeRuleCalled d <$> unique_values (data a))
          (inr (mkArray (shape a) (f <$> data a))).
Proof.
  rewrite map_M_emit. unfold mbind, M_bind. cbn [outcome trace].
  unfold unique, take. cbn [fst snd shape data].
  rewrite take_unique_inverse by (intros v; apply elem_of_unique_values).
  cbn. by rewrite app_nil_r.
Qed.

Lemma _biomes_to_universal_eq (version : Version) (a : ndarray Z) :
  _biomes_to_universal version a
    = mkM (BiomeRuleCalled ToUniversal <$> unique_values (data a))
          (inr (mkArray (shape a) (biome_to_universal version <$> data a))).
Proof. apply (recode_unique ToUniversal). Qed.

Lemma _biomes_from_universal_eq (version : Version) (a : ndarray Z) :
  _biomes_from_universal version a
    = mkM (BiomeRuleCalled FromUniversal <$> unique_values (data a))
          (inr (mkArray (shape a) (biome_from_universal version <$> data a))).
Proof. apply (recode_unique FromUniversal). Qed.

Lemma biome_calls_fmap (d : Direction) (l : list Z) :
  biome_calls d (BiomeRuleCalled d <$> l) = l.
Proof.
  induction l as [|v l IH]; [done|].
  cbn. rewrite decide_True by done. cbn. f_equal. exact IH.
Qed.

Lemma recodes_once_intro (d : Direction) (rule : Z → Z) (arr : ndarray Z)
    (m : M (ndarray Z)) :
  m = mkM (BiomeRuleCalled d <$> unique_values (data arr))
          (inr (mkArray (shape arr) (rule <$> data arr))) →
  recodes_once d rule arr m.
Proof.
  intros ->. unfold recodes_once. cbn [trace outcome].
  rewrite biome_calls_fmap.
  split; [done|]. split; [apply NoDup_unique_values|].
  split; [apply elem_of_unique_values|]. by eexists.
Qed.

(** C6: in either direction, recoding a biome array of any shape calls the
    direction's biome rule on the distinct values of the array, each exactly
    once (the calls are duplicate-free and cover exactly the values present),
    never once per cell, and makes no other call; the result has the shape
    of the input and holds the image of every cell.  This needs nothing of
    the rules.  When the backward rule inverts the forward rule on the values
    present, recoding forward and then backward returns the input array;
    this holds in particular for every array of shape (16,16). *)
Theorem biome_recoding (version : Version) (arr : ndarray Z) :
  recodes_once ToUniversal (biome_to_universal version) arr
               (_biomes_to_universal version arr) ∧
  recodes_once FromUniversal (biome_from_universal version) arr
               (_biomes_from_universal version arr) ∧
  ((∀ v, v ∈ data arr →
         biome_from_universal version (biome_to_universal version v) = v) →
   ∃ universal,
     returns (_biomes_to_universal version arr) universal ∧
     returns (_biomes_from_universal version universal) arr).
Proof.
  split; [apply recodes_once_intro, _biomes_to_universal_eq|].
  split; [apply recodes_once_intro, _biomes_from_universal_eq|].
  intros Hinv.
  exists (mkArray (shape arr) (biome_to_universal version <$> data arr)).
  rewrite _biomes_to_universal_eq. split; [done|].
  rewrite _biomes_from_universal_eq. unfold returns. cbn [outcome shape data].
  f_equal. destruct arr as [sh d]. cbn [shape data] in *. f_equal.
  rewrite <- list_fmap_compose.
  rewrite <- (list_fmap_id d) at 2.
  apply list_fmap_ext. intros i v Hv. apply Hinv.
  by apply list_elem_of_lookup_2 in Hv.
Qed.

(** ** The block grid *)

Lemma getitem3_mask_assign (g : Grid) (old new x y z : nat) :
  getitem3 (mask_assign g old new) x y z
    = (λ v, if decide (v = old) then new else v) <$> getitem3 g x y z.
Proof.
  unfold getitem3, mask_assign. rewrite list_lookup_fmap.
  destruct (g !! x) as [plane|]; [|done]. simpl.
  rewrite list_lookup_fmap. destruct (plane !! y) as [row|]; [|done]. simpl.
  by rewrite list_lookup_fmap.
Qed.

Lemma getitem3_foldl_mask (pm : list (nat * nat)) (g : Grid) (x y z : nat) :
  getitem3 (foldl (λ g e, mask_assign g e.1 e.2) g pm) x y z
    = remap pm <$> getitem3 g x y z.
Proof.
  revert g. induction pm as [|e pm IH]; intros g; simpl.
  - by destruct (getitem3 g x y z).
  - rewrite IH, getitem3_mask_assign. by destruct (getitem3 g x y z).
Qed.

Lemma getitem3_setitem3_ne (g : Grid) (c : nat * nat * nat) (new x y z : nat) :
  c ≠ (x, y, z) → getitem3 (setitem3 g c new) x y z = getitem3 g x y z.
Proof.
  destruct c as [[x' y'] z']. unfold setitem3, getitem3. simpl. intros Hne.
  destruct (decide (x' = x)) as [->|Hx]; [|by rewrite list_lookup_alter_ne].
  rewrite list_lookup_alter_eq. destruct (g !! x) as [plane|]; [|done]. simpl.
  destruct (decide (y' = y)) as [->|Hy]; [|by rewrite list_lookup_alter_ne].
  rewrite list_lookup_alter_eq. destruct (plane !! y) as [row|]; [|done]. simpl.
  rewrite list_lookup_insert_ne; [done|congruence].
Qed.

Lemma getitem3_foldl_setitem3 (bm : list (nat * nat * nat * nat)) (g : Grid)
    (x y z : nat) :
  Forall (λ e, e.1 ≠ (x, y, z)) bm →
  getitem3 (foldl (λ g e, setitem3 g e.1 e.2) g bm) x y z = getitem3 g x y z.
Proof.
  revert g. induction bm as [|e bm IH]; intros g Hne; [done|].
  apply Forall_cons in Hne as [He Hbm]. simpl.
  rewrite IH by done. by apply getitem3_setitem3_ne.
Qed.

(** The coordinates [numpy.where] yields are those holding the value. *)
Lemma elem_of_where_eq (g : Grid) (i x y z : nat) :
  (x, y, z) ∈ where_eq g i ↔ getitem3 g x y z = Some i.
Proof.
  unfold where_eq, getitem3. rewrite list_elem_of_join. split.
  - intros (l & Hin & Hl). apply elem_of_lookup_imap in Hl as (x' & plane & -> & Hx).
    apply list_elem_of_join in Hin as (l & Hin & Hl).
    apply elem_of_lookup_imap in Hl as (y' & row & -> & Hy).
    apply list_elem_of_join in Hin as (l & Hin & Hl).
    apply elem_of_lookup_imap in Hl as (z' & v & -> & Hz).
    destruct (decide (v = i)) as [->|]; [|by apply elem_of_nil in Hin].
    apply list_elem_of_singleton in Hin as [= -> -> ->].
    rewrite Hx. simpl. rewrite Hy. simpl. done.
  - destruct (g !! x) as [plane|] eqn:Hx; [|done]. simpl.
    destruct (plane !! y) as [row|] eqn:Hy; [|done]. simpl. intros Hz.
    eexists. split; last by apply (elem_of_lookup_imap_2 _ _ _ _ Hx).
    apply list_elem_of_join. eexists.
    split; last by apply (elem_of_lookup_imap_2 _ _ _ _ Hy).
    apply list_elem_of_join. eexists.
    split; last by apply (elem_of_lookup_imap_2 _ _ _ _ Hz).
    simpl. rewrite decide_True by done. by apply list_elem_of_singleton.
Qed.

(** ** The slot-level loop of the commit *)

Lemma remap_not_key (pm : list (nat * nat)) (v : nat) :
  Forall (λ e, e.1 ≠ v) pm → remap pm v = v.
Proof.
  unfold remap. induction pm as [|e pm IH]; intros Hne; [done|].
  apply Forall_cons in Hne as [He Hpm]. simpl.
  rewrite decide_False by done. by apply IH.
Qed.

(** The mappings are applied one after the other, so a cell could be
    remapped twice.  It is not: keys come in increasing order and no slot is
    sent above itself. *)
Lemma remap_key (pm : list (nat * nat)) (v s : nat) :
  StronglySorted (λ a b : nat * nat, a.1 < b.1) pm →
  Forall (λ e : nat * nat, e.2 ≤ e.1) pm →
  (v, s) ∈ pm → remap pm v = s.
Proof.
  induction pm as [|[k n] pm IH]; intros Hsorted Hle Hin;
    [by apply elem_of_nil in Hin|].
  apply StronglySorted_cons in Hsorted as [Hlt Hsorted].
  apply Forall_cons in Hle as [Hn Hle]. simpl in Hn.
  unfold remap. simpl. fold (remap pm).
  apply elem_of_cons in Hin as [[= -> ->]|Hin].
  - rewrite decide_True by done. apply remap_not_key.
    eapply Forall_impl; [exact Hlt|]. simpl. intros e He. lia.
  - assert (k < v) as Hkv.
    { rewrite Forall_forall in Hlt. apply (Hlt _ Hin). }
    rewrite decide_False by lia. fold (remap pm v). by apply IH.
Qed.

(** ** The deduplicating table *)

Lemma get_add_block_spec {A} `{EqDecision A} (m : list A) (b : A) :
  NoDup m →
  NoDup (get_add_block m b).2 ∧
  m `prefix_of` (get_add_block m b).2 ∧
  (get_add_block m b).2 !! (get_add_block m b).1 = Some b ∧
  (get_add_block m b).1 ≤ length m ∧
  (∀ x, x ∈ (get_add_block m b).2 → x ∈ m ∨ x = b).
Proof.
  intros Hnd. unfold get_add_block.
  destruct (index_of b m) as [i|] eqn:Hi; simpl.
  - apply index_of_Some in Hi as [Hi _].
    split; [done|]. split; [done|]. split; [done|].
    split; [apply lookup_lt_Some in Hi; lia|auto].
  - apply index_of_None in Hi.
    split; [apply NoDup_app; split; [done|]; split; [|apply NoDup_singleton];
            intros x Hx ->%list_elem_of_singleton; done|].
    split; [by apply prefix_app_r|].
    split; [by rewrite lookup_app_r, Nat.sub_diag by lia|].
    split; [lia|].
    intros x [Hx|Hx%list_elem_of_singleton]%elem_of_app; auto.
Qed.

Lemma dict_set_fresh {V} (d : list (nat * V)) (k : nat) (v : V) :
  Forall (λ e, e.1 < k) d → dict_set d k v = d ++ [(k, v)].
Proof.
  induction d as [|[k' v'] d IH]; intros Hlt; [done|].
  apply Forall_cons in Hlt as [Hk Hd]. simpl in *.
  rewrite decide_False by lia. by rewrite IH.
Qed.

Lemma elem_of_dict_set {K V} `{EqDecision K} (d : list (K * V)) (k : K) (v : V) e :
  e ∈ dict_set d k v → e ∈ d ∨ e = (k, v).
Proof.
  induction d as [|[k' v'] d IH]; simpl.
  - intros ->%list_elem_of_singleton. by right.
  - destruct (decide (k' = k)) as [->|Hne].
    + intros [->|Hin]%elem_of_cons; [by right|left; by right].
    + intros [->|Hin]%elem_of_cons; [left; by left|].
      destruct (IH Hin) as [?|?]; [left; by right|by right].
Qed.

(** ** Loops *)

Lemma outcome_cases {A} (m : M A) : fails m ∨ ∃ a, returns m a.
Proof. unfold fails, returns. destruct (outcome m); eauto. Qed.

Lemma returns_then_fails {A B} (m : M A) (f : A → M B) (a : A) :
  returns m a → fails (f a) → fails (m ≫= f).
Proof. intros Hm [e He]. exists e. by rewrite outcome_bind, Hm. Qed.

Lemma foldM_cons {A S} (f : S → A → M S) (a : A) (l : list A) (s s' : S) :
  returns (foldM f (a :: l) s) s' ↔
  ∃ s1, returns (f s a) s1 ∧ returns (foldM f l s1) s'.
Proof. apply returns_bind. Qed.

(** An invariant of the loop body is an invariant of the loop. *)
Lemma foldM_inv {A S} (P : S → Prop) (f : S → A → M S) (l : list A) (s s' : S) :
  P s →
  (∀ s a s', a ∈ l → P s → returns (f s a) s' → P s') →
  returns (foldM f l s) s' → P s'.
Proof.
  revert s. induction l as [|a l IH]; intros s Hs Hstep.
  - intros [= <-]. done.
  - intros (s1 & Hf & Hrest)%foldM_cons.
    apply (IH s1); [|by intros; eapply Hstep; [right|..]|done].
    eapply Hstep; [left|done..].
Qed.

(** A loop whose body returns on every element returns. *)
Lemma foldM_total {A S} (f : S → A → M S) (l : list A) (s : S) :
  (∀ s a, a ∈ l → ∃ s', returns (f s a) s') → ∃ s', returns (foldM f l s) s'.
Proof.
  revert s. induction l as [|a l IH]; intros s Hstep; [by exists s|].
  destruct (Hstep s a) as [s1 Hs1]; [left|].
  destruct (IH s1) as [s' Hs']; [intros; apply Hstep; by right|].
  exists s'. apply foldM_cons. eauto.
Qed.

(** A loop with an element on which the body always raises, raises. *)
Lemma foldM_fails {A S} (f : S → A → M S) (l : list A) (a : A) (s : S) :
  a ∈ l → (∀ s, fails (f s a)) → fails (foldM f l s).
Proof.
  revert s. induction l as [|a' l IH]; intros s Hin Hfail;
    [by apply elem_of_nil in Hin|].
  simpl. destruct (outcome_cases (f s a')) as [Hf|[s1 Hs1]];
    [by apply fails_bind|].
  apply elem_of_cons in Hin as [->|Hin].
  - by apply fails_bind.
  - eapply returns_then_fails; [done|]. by apply IH.
Qed.

Lemma foldM_ext {A S} (f g : S → A → M S) (l : list A) (s : S) :
  (∀ s a, f s a = g s a) → foldM f l s = foldM g l s.
Proof.
  intros Hfg. revert s. induction l as [|a l IH]; intros s; [done|].
  simpl. rewrite Hfg. unfold mbind, M_bind.
  destruct (outcome (g s a)); [done|]. by rewrite IH.
Qed.

Lemma map_M_total {A B} (f : A → M B) (l : list A) :
  (∀ a, ∃ b, returns (f a) b) →
  ∃ l', returns (map_M f l) l' ∧ length l' = length l.
Proof.
  intros Hf. induction l as [|a l (l' & Hl' & Hlen)]; [by exists []|].
  destruct (Hf a) as [b Hb]. exists (b :: l'). split; [|by simpl; rewrite Hlen].
  simpl. apply returns_bind. exists b. split; [done|].
  apply returns_bind. exists l'. done.
Qed.

Lemma elem_of_enumerate_from {A} (l : list A) (n i : nat) (a : A) :
  (i, a) ∈ enumerate_from n l ↔ n ≤ i ∧ l !! (i - n) = Some a.
Proof.
  revert n. induction l as [|x l IH]; intros n; simpl.
  - split; [by intros ?%elem_of_nil|by intros [_ ?]].
  - rewrite elem_of_cons, IH. split.
    + intros [[= -> ->]|[Hle Hl]].
      * by rewrite Nat.sub_diag.
      * split; [lia|]. by replace (i - n) with (S (i - S n)) by lia.
    + intros [Hle Hl]. destruct (decide (i = n)) as [->|Hne].
      * left. rewrite Nat.sub_diag in Hl. simpl in Hl. congruence.
      * right. split; [lia|].
        by replace (i - n) with (S (i - S n)) in Hl by lia.
Qed.

(** ** The context-free pass *)

Lemma first_pass_step_returns chunk r (tr : TranslateCallback) w i e w' :
  returns (first_pass_step chunk r tr w (i, e)) w' ↔
  ∃ res, returns (tr e None) res ∧
    w' = if res.2 && supplied r
         then mkWork (todo w ++ [i]) (output_block_entities w) (finished w)
                     (palette_mappings w) (block_mappings w)
         else mkWork (todo w)
                (output_block_entities w ++
                   match res.1.1.2 with
                   | Some be => place chunk be <$> where_eq (blocks chunk) i
                   | None => []
                   end)
                (get_add_block (finished w) res.1.1.1).2
                (dict_set (palette_mappings w) i
                          (get_add_block (finished w) res.1.1.1).1)
                (block_mappings w).
Proof.
  unfold first_pass_step. rewrite returns_bind. simpl.
  split; intros ([[[ob obe] oents] extra] & Htr & Hw); eexists; (split; [exact Htr|]);
    simpl in *; destruct (extra && supplied r); unfold returns in *; simpl in *;
    congruence.
Qed.

Lemma first_pass_step_inv chunk palette r (tr : TranslateCallback) k e w w' :
  palette !! k = Some e →
  first_pass_inv palette tr r k w →
  returns (first_pass_step chunk r tr w (k, e)) w' →
  first_pass_inv palette tr r (S k) w'.
Proof.
  intros Hk (Hnd & Hlen & Hbm & Hsorted & Hpm & Htodo & Hslots & Hfin).
  intros (res & Hres & ->)%first_pass_step_returns.
  assert (Hold : ∀ i, i < S k → i < k ∨ i = k) by (intros; lia).
  destruct (res.2 && supplied r) eqn:Hflag.
  - (* deferred *)
    split; [done|]. split; [simpl; lia|]. split; [done|]. split; [done|].
    split; [eapply Forall_impl; [exact Hpm|]; simpl; intros ? [??]; split; lia|].
    split.
    { simpl. apply Forall_app. split.
      - eapply Forall_impl; [exact Htodo|]. simpl. intros; lia.
      - apply Forall_singleton. lia. }
    split; [|done].
    intros i [Hi| ->]%Hold.
    + destruct (Hslots i Hi) as (e' & res' & He' & Hres' & Hcase).
      exists e', res'. split; [done|]. split; [done|].
      destruct (res'.2 && supplied r); simpl.
      * destruct Hcase as [Hin Hnot]. split; [|done].
        apply elem_of_app. by left.
      * destruct Hcase as [Hnin Hex]. split; [|done].
        intros [Hin|Hin%list_elem_of_singleton]%elem_of_app; [done|lia].
    + exists e, res. split; [done|]. split; [done|]. rewrite Hflag. simpl.
      split; [apply elem_of_app; right; by apply list_elem_of_singleton|].
      intros s Hin. rewrite Forall_forall in Hpm.
      destruct (Hpm _ Hin) as [Hlt _]. simpl in Hlt. lia.
  - (* accepted *)
    destruct (get_add_block_spec (finished w) res.1.1.1 Hnd)
      as (Hnd' & Hpre & Hget & Hle & Hsub).
    assert (Hfresh : Forall (λ e : nat * nat, e.1 < k) (palette_mappings w)).
    { eapply Forall_impl; [exact Hpm|]. simpl. by intros ? [??]. }
    simpl. rewrite (dict_set_fresh _ _ _ Hfresh).
    split; [done|]. split.
    { simpl. etrans; [|apply le_n_S, Hlen].
      unfold get_add_block. destruct (index_of _ _); simpl; [lia|].
      rewrite length_app. simpl. lia. }
    split; [done|]. split.
    { simpl. apply StronglySorted_app_2; [|done|repeat constructor].
      intros x1 x2 Hx1 ->%list_elem_of_singleton. simpl.
      rewrite Forall_forall in Hfresh. by apply Hfresh. }
    split.
    { simpl. apply Forall_app. split.
      - eapply Forall_impl; [exact Hpm|]. simpl. intros ? [??]. split; lia.
      - apply Forall_singleton. simpl. split; lia. }
    split; [simpl; eapply Forall_impl; [exact Htodo|]; simpl; intros; lia|].
    split.
    + intros i [Hi| ->]%Hold.
      * destruct (Hslots i Hi) as (e' & res' & He' & Hres' & Hcase).
        exists e', res'. split; [done|]. split; [done|].
        destruct (res'.2 && supplied r); simpl.
        -- destruct Hcase as [Hin Hnot]. split; [done|].
           intros s [Hs|Hs%list_elem_of_singleton]%elem_of_app;
             [by apply (Hnot s)|]. injection Hs as -> ->. lia.
        -- destruct Hcase as [Hnin (s & Hs & Hfs)]. split; [done|].
           exists s. split; [apply elem_of_app; by left|].
           by apply (prefix_lookup_Some _ _ _ _ Hfs).
      * exists e, res. split; [done|]. split; [done|]. rewrite Hflag. simpl.
        split.
        { intros Hin. rewrite Forall_forall in Htodo.
          specialize (Htodo _ Hin). lia. }
        eexists. split; [apply elem_of_app; right; by apply list_elem_of_singleton|].
        done.
    + simpl. apply Forall_forall. intros o [Ho| ->]%Hsub.
      * rewrite Forall_forall in Hfin. by apply Hfin.
      * exists e, res. split; [by apply list_elem_of_lookup_2 in Hk|]. done.
Qed.

Lemma first_pass_inv_from chunk palette r (tr : TranslateCallback) l pre w0 w :
  palette = pre ++ l →
  first_pass_inv palette tr r (length pre) w0 →
  returns (foldM (first_pass_step chunk r tr) (enumerate_from (length pre) l) w0) w →
  first_pass_inv palette tr r (length palette) w.
Proof.
  revert pre w0. induction l as [|e l IH]; intros pre w0 Hpal Hinv.
  - intros [= <-]. subst palette. by rewrite app_nil_r in *.
  - simpl. intros (w1 & Hstep & Hrest)%foldM_cons.
    apply (IH (pre ++ [e]) w1).
    + by rewrite <- app_assoc.
    + rewrite length_app. simpl. rewrite Nat.add_1_r.
      eapply first_pass_step_inv; [|done..].
      rewrite Hpal. by rewrite lookup_app_r, Nat.sub_diag by lia.
    + rewrite length_app. simpl. by rewrite Nat.add_1_r.
Qed.

Lemma first_pass_inv_empty palette tr r : first_pass_inv palette tr r 0 empty_work.
Proof.
  split; [constructor|]. split; [done|]. split; [done|].
  split; [constructor|]. split; [constructor|]. split; [constructor|].
  split; [intros; lia|constructor].
Qed.

Lemma first_pass_returns_inv chunk palette r (tr : TranslateCallback) w :
  returns (first_pass chunk palette r tr) w →
  first_pass_inv palette tr r (length palette) w.
Proof.
  apply (first_pass_inv_from chunk palette r tr palette [] empty_work);
    [done|apply first_pass_inv_empty].
Qed.

(** The context-free pass returns when the wrapper returns on every slot. *)
Lemma first_pass_total chunk palette r (tr : TranslateCallback) :
  (∀ e, e ∈ palette → ∃ res, returns (tr e None) res) →
  ∃ w, returns (first_pass chunk palette r tr) w.
Proof.
  intros Htr. apply foldM_total. intros w [i e] Hin.
  apply elem_of_enumerate_from in Hin as [_ Hin].
  destruct (Htr e) as [res Hres]; [by apply list_elem_of_lookup_2 in Hin|].
  eexists. apply first_pass_step_returns. eauto.
Qed.

(** ** The context-aware pass *)

Lemma second_pass_step_returns chunk palette r (tr : TranslateCallback) w c w' :
  returns (second_pass_step chunk palette r tr w c) w' →
  ∃ o obe,
    w' = mkWork (todo w) obe (get_add_block (finished w) o).2
                (palette_mappings w)
                (dict_set (block_mappings w) c (get_add_block (finished w) o).1).
Proof.
  unfold second_pass_step.
  intros (idx & _ & (input & _ & ([[[ob obe] oents] extra] & _ & Hw)%returns_bind)
            %returns_bind)%returns_bind.
  injection Hw as <-. eauto.
Qed.

Lemma second_pass_step_inv chunk palette r (tr : TranslateCallback) w0 w c index w' :
  index ∈ todo w0 →
  c ∈ where_eq (blocks chunk) index →
  second_pass_inv chunk w0 w →
  returns (second_pass_step chunk palette r tr w c) w' →
  second_pass_inv chunk w0 w'.
Proof.
  intros Hindex Hc (Hnd & Hpre & Hpm & Htodo & Hbm).
  intros (o & obe & ->)%second_pass_step_returns.
  destruct (get_add_block_spec (finished w) o Hnd) as (Hnd' & Hpre' & _).
  split; [done|]. split; [by etrans|]. split; [done|]. split; [done|].
  simpl. apply Forall_forall. intros e [He| ->]%elem_of_dict_set.
  - rewrite Forall_forall in Hbm. by apply Hbm.
  - exists index. done.
Qed.

Lemma second_pass_returns_inv chunk palette r (tr : TranslateCallback) w0 w :
  NoDup (finished w0) →
  block_mappings w0 = [] →
  returns (second_pass chunk palette r tr w0) w →
  second_pass_inv chunk w0 w.
Proof.
  intros Hnd Hbm. unfold second_pass.
  apply (foldM_inv (second_pass_inv chunk w0)).
  - split; [done|]. split; [done|]. split; [done|]. split; [done|].
    rewrite Hbm. constructor.
  - intros w1 index w2 Hindex Hw1.
    apply (foldM_inv (second_pass_inv chunk w0)); [done|].
    intros w3 c w4 Hc Hw3. by eapply second_pass_step_inv.
Qed.

(** ** [_translate] as a whole *)

Lemma _translate_returns chunk palette r (tr : TranslateCallback) chunk' palette' :
  returns (_translate chunk palette r tr true) (chunk', palette') ↔
  ∃ w1 w2,
    returns (first_pass chunk palette r tr) w1 ∧
    returns (second_pass chunk palette r tr w1) w2 ∧
    chunk' = set_block_entities
               (set_blocks chunk
                  (commit (blocks chunk) (palette_mappings w2) (block_mappings w2)))
               (output_block_entities w2) ∧
    palette' = entry_of_output <$> finished w2.
Proof.
  unfold _translate. simpl. rewrite returns_bind. split.
  - intros (w1 & Hw1 & (w2 & Hw2 & [= <- <-])%returns_bind). eauto 10.
  - intros (w1 & w2 & Hw1 & Hw2 & -> & ->). exists w1. split; [done|].
    apply returns_bind. by exists w2.
Qed.

#[global] Instance entry_of_output_inj : Inj (=) (=) entry_of_output.
Proof. intros [a|] [b|]; simpl; congruence. Qed.

(** A slot accepted in the context-free pass ends in one slot of the output
    palette, the only one holding its output, and every grid cell that held
    the input slot holds that output slot after the commit. *)
Lemma _translate_accepted_slot chunk palette r (tr : TranslateCallback)
    chunk' palette' i e res :
  returns (_translate chunk palette r tr true) (chunk', palette') →
  palette !! i = Some e →
  accepted tr r e res →
  ∃ s,
    palette' !! s = Some (entry_of_output res.1.1.1) ∧
    (∀ s', palette' !! s' = Some (entry_of_output res.1.1.1) → s' = s) ∧
    (∀ x y z, getitem3 (blocks chunk) x y z = Some i →
              getitem3 (blocks chunk') x y z = Some s).
Proof.
  intros Hret Hi [Hres Hflag].
  apply _translate_returns in Hret as (w1 & w2 & Hw1 & Hw2 & -> & ->).
  apply first_pass_returns_inv in Hw1
    as (Hnd & Hlen & Hbm & Hsorted & Hpm & Htodo & Hslots & Hfin).
  apply second_pass_returns_inv in Hw2
    as (Hnd2 & Hpre & Hpm2 & Htodo2 & Hbm2); [|done..].
  destruct (Hslots i) as (e' & res' & He' & Hres' & Hcase);
    [by apply lookup_lt_Some in Hi|].
  assert (e' = e) as -> by congruence.
  assert (res' = res) as -> by (by eapply returns_inj).
  rewrite Hflag in Hcase. destruct Hcase as (Hnin & s & Hs & Hfs).
  assert (Hfs2 : finished w2 !! s = Some res.1.1.1)
    by (by apply (prefix_lookup_Some _ _ _ _ Hfs)).
  exists s. split; [by rewrite list_lookup_fmap, Hfs2|]. split.
  - intros s'. rewrite list_lookup_fmap.
    destruct (finished w2 !! s') as [o|] eqn:Hs'; [|done].
    intros [= Ho%(inj entry_of_output)]. subst o.
    by apply (NoDup_lookup _ _ _ _ Hnd2 Hs' Hfs2).
  - intros x y z Hcell. simpl. unfold commit.
    rewrite getitem3_foldl_setitem3.
    + rewrite getitem3_foldl_mask, Hcell, Hpm2. simpl. f_equal.
      apply remap_key; [done| |done].
      eapply Forall_impl; [exact Hpm|]. simpl. by intros ? [??].
    + eapply Forall_impl; [exact Hbm2|]. simpl.
      intros [c n] (index & Hindex & Hc). simpl in *. intros ->.
      apply elem_of_where_eq in Hc. rewrite Hcell in Hc.
      injection Hc as <-. done.
Qed.

(** When every slot is accepted in the context-free pass, [_translate]
    returns, and its palette holds nothing but outputs of accepted slots. *)
Lemma _translate_context_free chunk palette r (tr : TranslateCallback) :
  (∀ e, e ∈ palette → ∃ res, accepted tr r e res) →
  ∃ chunk' palette',
    returns (_translate chunk palette r tr true) (chunk', palette') ∧
    (∀ p, p ∈ palette' →
       ∃ e res, e ∈ palette ∧ accepted tr r e res ∧ p = entry_of_output res.1.1.1).
Proof.
  intros Hacc.
  destruct (first_pass_total chunk palette r tr) as [w1 Hw1].
  { intros e He. destruct (Hacc e He) as (res & Hres & _). eauto. }
  pose proof (first_pass_returns_inv _ _ _ _ _ Hw1)
    as (Hnd & Hlen & Hbm & Hsorted & Hpm & Htodo & Hslots & Hfin).
  assert (todo w1 = []) as Hnil.
  { destruct (todo w1) as [|i t] eqn:Ht; [done|exfalso].
    apply Forall_cons in Htodo as [Hi _].
    destruct (Hslots i Hi) as (e & res & He & Hres & Hcase).
    destruct (Hacc e) as (res' & Hres' & Hflag);
      [by apply list_elem_of_lookup_2 in He|].
    assert (res' = res) as -> by (by eapply returns_inj).
    rewrite Hflag in Hcase. destruct Hcase as [Hnin _]. apply Hnin. left. }
  eexists _, _. split.
  - apply _translate_returns. exists w1, w1. split; [done|].
    split; [|done]. unfold second_pass. by rewrite Hnil.
  - intros p (o & -> & Ho)%list_elem_of_fmap.
    rewrite Forall_forall in Hfin. destruct (Hfin o Ho) as (e & res & ? & ? & ->).
    eauto.
Qed.

(** ** The per-block wrapper *)

Lemma check_namespace_returns __debug__ d input output :
  returns (check_namespace __debug__ d input output) ().
Proof.
  unfold check_namespace.
  destruct __debug__, d, (String.prefix "universal" (namespace output)); done.
Qed.

Lemma translate_layer_returns __debug__ d version input cb acc n layer res :
  returns (translate_layer __debug__ d version input cb acc (n, layer)) res ↔
  ∃ out, returns (run_probe cb (block_rule d version layer (supplied cb))) out ∧
         res = merge_layer n out acc.
Proof.
  unfold translate_layer. rewrite returns_bind. simpl. split.
  - intros ([] & _ & (out & Hout & (? & _ & [= <-])%returns_bind)%returns_bind).
    eauto.
  - intros (out & Hout & ->). exists (). split; [done|].
    apply returns_bind. exists out. split; [done|].
    apply returns_bind. exists (). split; [|done].
    destruct out.1.1; [apply check_namespace_returns|done].
Qed.

(** The layers below the first one: the companion block entity composed so
    far stays, block-like outputs are stacked, entity-like outputs are
    appended to the produced entities, the flags are OR-ed. *)
Lemma translate_layers_deep __debug__ d version input cb layers outs n fb fbe fents fx :
  n ≠ 0 →
  Forall2 (λ layer out,
             returns (run_probe cb (block_rule d version layer (supplied cb))) out)
          layers outs →
  returns (foldM (translate_layer __debug__ d version input cb) (enumerate_from n layers)
                 (fb, fbe, fents, fx))
          (stack_blocks fb (block_outputs outs), fbe,
           fents ++ entity_outputs outs, fx || any_flag outs).
Proof.
  intros Hn Hall. revert n Hn fb fents fx.
  induction Hall as [|layer [[obj obe] extra] layers outs Hout Hall IH];
    intros n Hn fb fents fx.
  - unfold returns. simpl. rewrite app_nil_r, orb_false_r. by destruct fb.
  - cbn [enumerate_from]. apply foldM_cons. eexists. split.
    { apply translate_layer_returns. eauto. }
    destruct obj as [b|e]; simpl.
    + rewrite decide_False by done.
      specialize (IH (S n) ltac:(lia)
                     (Some match fb with None => b | Some fb => block_add fb b end)
                     fents (fx || extra)).
      rewrite <- orb_assoc in IH. unfold any_flag in *. simpl in *.
      by destruct fb.
    + specialize (IH (S n) ltac:(lia) fb (fents ++ [e]) (fx || extra)).
      rewrite <- orb_assoc, <- app_assoc in IH. done.
Qed.

Lemma translate_block_returns __debug__ d version b cb outs :
  Forall2 (λ layer out,
             returns (run_probe cb (block_rule d version layer (supplied cb))) out)
          (base_block b :: extra_blocks b) outs →
  returns (translate_block __debug__ d version b cb)
          (compose_blocks (block_outputs outs), depth0_block_entity outs,
           entity_outputs outs, any_flag outs).
Proof.
  intros Hall. inversion Hall as [|layer [[obj obe] extra] layers outs' Hout Hrest];
    subst.
  unfold translate_block, enumerate. cbn [enumerate_from].
  apply foldM_cons. eexists. split.
  { apply translate_layer_returns. eauto. }
  destruct obj as [b0|e]; simpl.
  - apply (translate_layers_deep _ _ _ _ _ _ _ 1 (Some b0) obe [] extra); done.
  - apply (translate_layers_deep _ _ _ _ _ _ _ 1 None None [e] extra); done.
Qed.

Lemma translate_for_block __debug__ d version b cb :
  translate_for __debug__ d version (PBlock b) cb
    = translate_block __debug__ d version b cb.
Proof. by destruct d. Qed.

(** C8: for a block with any number of layers, in both directions, when the
    rule returns [outs] for the layers in order, the wrapper returns: as
    block, the block-like outputs stacked in order (entity-like outputs are
    not part of it); as companion block entity, that of the layer at depth 0
    (and none when that layer's output is entity-like), whatever companion
    block entities the deeper layers produced; as produced entities, the
    entity-like outputs in order; as flag, the OR of the layers' flags. *)
Theorem layer_merge (__debug__ : bool) (d : Direction) (version : Version)
    (b : Block) (cb : option GetBlockCallback) (outs : list RuleOutput) :
  Forall2 (λ layer out,
             returns (run_probe cb (block_rule d version layer (supplied cb))) out)
          (base_block b :: extra_blocks b) outs →
  returns (translate_for __debug__ d version (PBlock b) cb)
          (compose_blocks (block_outputs outs), depth0_block_entity outs,
           entity_outputs outs, any_flag outs).
Proof. rewrite translate_for_block. apply translate_block_returns. Qed.

(** C4: in the context-free pass, a slot holding a block is deferred if and
    only if the OR of the flags the rule returned for its layers is true and
    a neighbour resolver was supplied; otherwise it is not deferred and its
    context-free output is in the output palette under the slot recorded for
    it.  The flag the wrapper returns is that OR. *)
Theorem deferral_rule (__debug__ : bool) (d : Direction) (version : Version)
    (chunk : Chunk) (palette : Palette) (r : option Resolver) (w : Work)
    (i : nat) (b : Block) (outs : list RuleOutput) :
  returns (first_pass chunk palette r (translate_for __debug__ d version)) w →
  palette !! i = Some (PBlock b) →
  Forall2 (λ layer out,
             returns (run_probe None (block_rule d version layer false)) out)
          (base_block b :: extra_blocks b) outs →
  (∃ res, returns (translate_for __debug__ d version (PBlock b) None) res ∧
          res.2 = any_flag outs) ∧
  (i ∈ todo w ↔ any_flag outs = true ∧ supplied r = true) ∧
  (if any_flag outs && supplied r
   then ∀ s, (i, s) ∉ palette_mappings w
   else ∃ s, (i, s) ∈ palette_mappings w ∧
             finished w !! s = Some (compose_blocks (block_outputs outs))).
Proof.
  intros Hw Hi Houts.
  assert (Hres : returns (translate_for __debug__ d version (PBlock b) None)
            (compose_blocks (block_outputs outs), depth0_block_entity outs,
             entity_outputs outs, any_flag outs)).
  { rewrite translate_for_block. by apply translate_block_returns. }
  split; [eexists; split; [exact Hres|done]|].
  apply first_pass_returns_inv in Hw as (_ & _ & _ & _ & _ & _ & Hslots & _).
  destruct (Hslots i) as (e & res & He & Hres' & Hcase);
    [by apply lookup_lt_Some in Hi|].
  assert (e = PBlock b) as -> by congruence.
  pose proof (returns_inj _ _ _ Hres' Hres) as ->. simpl in Hcase.
  destruct (any_flag outs && supplied r) eqn:Hflag.
  - destruct Hcase as [Hin Hnot]. split; [|done].
    apply andb_true_iff in Hflag. tauto.
  - destruct Hcase as [Hnin Hex]. split; [|done].
    split; [done|]. intros [H1 H2]. rewrite H1, H2 in Hflag. done.
Qed.

(** ** Palette deduplication *)

(** The output palette never holds a definition twice, deferred slots or
    not. *)
Lemma _translate_palette_NoDup chunk palette r (tr : TranslateCallback)
    chunk' palette' :
  returns (_translate chunk palette r tr true) (chunk', palette') →
  NoDup palette'.
Proof.
  intros Hret.
  apply _translate_returns in Hret as (w1 & w2 & Hw1 & Hw2 & _ & ->).
  apply first_pass_returns_inv in Hw1 as (Hnd & _ & Hbm & _).
  apply second_pass_returns_inv in Hw2 as (Hnd2 & _); [|done..].
  by apply (NoDup_fmap_2 entry_of_output).
Qed.

(** C3: in a call of [_translate] with [full_translate] true that returns,
    if two distinct palette slots are translated in the context-free pass
    (their results are accepted there) to equal blocks, then exactly one
    slot of the output palette holds that block, and every grid coordinate
    that held either input slot holds that slot after the commit.  The
    output palette as a whole is duplicate-free. *)
Theorem palette_dedup (chunk : Chunk) (palette : Palette) (r : option Resolver)
    (tr : TranslateCallback) (chunk' : Chunk) (palette' : Palette)
    (i j : nat) (ei ej : PaletteEntry) (resi resj : TranslateResult) (b : Block) :
  returns (_translate chunk palette r tr true) (chunk', palette') →
  i ≠ j →
  palette !! i = Some ei → palette !! j = Some ej →
  accepted tr r ei resi → accepted tr r ej resj →
  resi.1.1.1 = Some b → resj.1.1.1 = Some b →
  NoDup palette' ∧
  ∃ s,
    palette' !! s = Some (PBlock b) ∧
    (∀ s', palette' !! s' = Some (PBlock b) → s' = s) ∧
    (∀ x y z,
       getitem3 (blocks chunk) x y z = Some i ∨
       getitem3 (blocks chunk) x y z = Some j →
       getitem3 (blocks chunk') x y z = Some s).
Proof.
  intros Hret _ Hi Hj Hacci Haccj Hbi Hbj.
  split; [by eapply _translate_palette_NoDup|].
  destruct (_translate_accepted_slot _ _ _ _ _ _ _ _ _ Hret Hi Hacci)
    as (s & Hs & Huniq & Hcells).
  destruct (_translate_accepted_slot _ _ _ _ _ _ _ _ _ Hret Hj Haccj)
    as (s2 & Hs2 & _ & Hcells2).
  rewrite Hbi in Hs, Huniq. rewrite Hbj in Hs2. simpl in *.
  assert (s2 = s) as -> by (by apply Huniq).
  exists s. split; [done|]. split; [done|].
  intros x y z [Hc|Hc]; auto.
Qed.

(** ** The two public operations *)

Lemma name_to_universal_total version bes :
  ∃ named, returns (name_to_universal version bes) named ∧
           length named = length bes.
Proof.
  unfold name_to_universal. destruct (block_entity_map version) as [names|];
    [|by exists bes].
  apply map_M_total. intros be.
  destruct (be_namespace be), (names !! be_base_name be); by eexists.
Qed.

Lemma name_from_universal_total version bes :
  ∃ named, returns (name_from_universal version bes) named ∧
           length named = length bes.
Proof.
  unfold name_from_universal. destruct (block_entity_map version) as [names|];
    [|by exists bes].
  apply map_M_total. intros be.
  destruct (block_entity_map_inverse version !! namespaced_name be); by eexists.
Qed.

Lemma to_universal_returns version chunk palette r deep c' p' :
  returns (to_universal version chunk palette r deep) (c', p') ↔
  ∃ named,
    returns (name_to_universal version (block_entities chunk)) named ∧
    returns (_translate
               (mkChunk (cx chunk) (cz chunk) (blocks chunk)
                  (mkArray (shape (biomes chunk))
                           (biome_to_universal version <$> data (biomes chunk)))
                  named (entities chunk))
               palette r (to_universal_translate version) deep) (c', p').
Proof.
  unfold to_universal. rewrite _biomes_to_universal_eq, returns_bind. split.
  - intros (ub & [= <-] & (named & Hnamed & Htr)%returns_bind). eauto.
  - intros (named & Hnamed & Htr). eexists. split; [done|].
    apply returns_bind. eauto.
Qed.

Lemma from_universal_returns __debug__ version chunk palette r deep c' p' :
  returns (from_universal __debug__ version chunk palette r deep) (c', p') ↔
  ∃ c1 named,
    returns (_translate chunk palette r
               (from_universal_translate __debug__ version) deep)
            (c1, p') ∧
    returns (name_from_universal version (block_entities c1)) named ∧
    c' = mkChunk (cx c1) (cz c1) (blocks c1)
           (mkArray (shape (biomes c1))
                    (biome_from_universal version <$> data (biomes c1)))
           named (entities c1).
Proof.
  unfold from_universal. rewrite returns_bind. split.
  - intros ([c1 p1] & Htr & Hrest). rewrite _biomes_from_universal_eq in Hrest.
    apply returns_bind in Hrest as (vb & [= <-] & Hrest).
    apply returns_bind in Hrest as (named & Hnamed & [= <- <-]). eauto 10.
  - intros (c1 & named & Htr & Hnamed & ->). exists (c1, p'). split; [done|].
    rewrite _biomes_from_universal_eq. apply returns_bind. eexists. split; [done|].
    apply returns_bind. exists named. split; [exact Hnamed|done].
Qed.

(** The wrapper on a block without extra layers whose rule is the identity. *)
Lemma translate_for_identity __debug__ d version b be :
  extra_states b = [] →
  block_rule d version b false = Return (OutBlock b, be, false) →
  returns (translate_for __debug__ d version (PBlock b) None)
          (Some b, be, [], false).
Proof.
  intros Hextra Hrule. rewrite translate_for_block.
  apply (translate_block_returns __debug__ d version b None
           [(OutBlock b, be, false)]).
  destruct b as [base extras]. simpl in Hextra. subst extras.
  unfold base_block, extra_blocks. simpl.
  constructor; [|constructor]. simpl. by rewrite Hrule.
Qed.

(** C1: for a palette of blocks without extra layers on which the rules of
    both directions are the identity and report no need for context,
    [to_universal] followed by [from_universal], both with [full_translate]
    true, return, and the block at every grid coordinate of the final chunk
    is the block the original chunk had there (so its identifier is the
    original one). *)
Theorem round_trip (__debug__ : bool) (v1 v2 : Version) (chunk : Chunk)
    (palette : Palette) (r1 r2 : option Resolver) :
  (∀ e, e ∈ palette → ∃ b, e = PBlock b ∧ extra_states b = []) →
  (∀ b, PBlock b ∈ palette →
        ∃ be, block_to_universal v1 b false = Return (OutBlock b, be, false)) →
  (∀ b, PBlock b ∈ palette →
        ∃ be, block_from_universal v2 b false = Return (OutBlock b, be, false)) →
  ∃ c1 p1 c2 p2,
    returns (to_universal v1 chunk palette r1 true) (c1, p1) ∧
    returns (from_universal __debug__ v2 c1 p1 r2 true) (c2, p2) ∧
    ∀ x y z b,
      block_at chunk palette x y z = Some (PBlock b) →
      block_at c2 p2 x y z = Some (PBlock b) ∧
      ∃ i, getitem3 (blocks c2) x y z = Some i ∧ p2 !! i = Some (PBlock b).
Proof.
  intros Hflat Hto Hfrom.
  (* every slot is accepted in both directions, with itself as output *)
  assert (Hacc : ∀ d v r,
            (∀ b, PBlock b ∈ palette →
                  ∃ be, block_rule d v b false = Return (OutBlock b, be, false)) →
            ∀ e, e ∈ palette →
              ∃ b be, e = PBlock b ∧
                      accepted (translate_for __debug__ d v) r e (Some b, be, [], false)).
  { intros d v r Hrule e He. destruct (Hflat e He) as (b & -> & Hextra).
    destruct (Hrule b He) as [be Hbe]. exists b, be. split; [done|].
    split; [by apply translate_for_identity|done]. }
  (* to_universal *)
  destruct (name_to_universal_total v1 (block_entities chunk)) as (named1 & Hn1 & _).
  set (chunk1 := mkChunk (cx chunk) (cz chunk) (blocks chunk)
                   (mkArray (shape (biomes chunk))
                      (biome_to_universal v1 <$> data (biomes chunk)))
                   named1 (entities chunk)).
  destruct (_translate_context_free chunk1 palette r1 (translate_for __debug__ ToUniversal v1))
    as (c1 & p1 & Hret1 & Hp1).
  { intros e He. destruct (Hacc ToUniversal v1 r1 Hto e He) as (b & be & -> & ?).
    eauto. }
  assert (Hsub : ∀ p, p ∈ p1 → p ∈ palette).
  { intros p (e & res & He & [Hres Hflag] & ->)%Hp1.
    destruct (Hacc ToUniversal v1 r1 Hto e He) as (b & be & -> & [Hres' _]).
    by rewrite (returns_inj _ _ _ Hres Hres'). }
  (* from_universal *)
  destruct (_translate_context_free c1 p1 r2 (translate_for __debug__ FromUniversal v2))
    as (c1' & p2 & Hret2 & _).
  { intros e He%Hsub.
    destruct (Hacc FromUniversal v2 r2 Hfrom e He) as (b & be & -> & ?). eauto. }
  destruct (name_from_universal_total v2 (block_entities c1')) as (named2 & Hn2 & _).
  eexists c1, p1, _, p2. split; [apply to_universal_returns; eauto|].
  split; [apply from_universal_returns; eauto 10|].
  intros x y z b. unfold block_at.
  destruct (getitem3 (blocks chunk) x y z) as [i|] eqn:Hcell; [|done].
  simpl. intros Hi.
  assert (Hin : PBlock b ∈ palette) by (by apply list_elem_of_lookup_2 in Hi).
  destruct (Hacc ToUniversal v1 r1 Hto _ Hin) as (b' & be & [= <-] & Hacc1).
  destruct (_translate_accepted_slot _ _ _ _ _ _ _ _ _ Hret1 Hi Hacc1)
    as (s & Hs & _ & Hcells).
  specialize (Hcells x y z Hcell). simpl in Hs.
  destruct (Hacc FromUniversal v2 r2 Hfrom _ Hin) as (b' & be' & [= <-] & Hacc2).
  destruct (_translate_accepted_slot _ _ _ _ _ _ _ _ _ Hret2 Hs Hacc2)
    as (s' & Hs' & _ & Hcells').
  specialize (Hcells' x y z Hcells). simpl in *.
  rewrite Hcells'. simpl. eauto.
Qed.

(** ** Entity inputs *)

Lemma first_pass_fails chunk palette r (tr : TranslateCallback) e :
  e ∈ palette → fails (tr e None) → fails (first_pass chunk palette r tr).
Proof.
  intros [i Hi]%list_elem_of_lookup Hfail. unfold first_pass, enumerate.
  apply (foldM_fails _ _ (i, e)).
  - apply elem_of_enumerate_from. split; [lia|]. by rewrite Nat.sub_0_r.
  - intros w. unfold first_pass_step. simpl. by apply fails_bind.
Qed.

(** C5 (as stated, refuted): [from_universal] does not hand an entity input
    back in an entity list.  On the item frame its wrapper returns an empty
    produced-entities list, and a [from_universal] call on a palette holding
    the item frame returns a chunk whose entity list and a palette neither of
    which holds it. *)
Lemma from_universal_drops_entity :
  ¬ (∃ res, returns (from_universal_translate true Examples.sample_version
                       (PEntity Examples.frame) None) res ∧
            Examples.frame ∈ res.1.2) ∧
  ∃ c' p',
    returns (from_universal true Examples.sample_version
               (set_entities Examples.sample_chunk [])
               [PEntity Examples.frame; PBlock Examples.stone] None true)
            (c', p') ∧
    (Examples.frame ∉ entities c') ∧
    p' = [PNone; PBlock Examples.universal_stone].
Proof.
  split.
  - intros (res & [= <-] & Hin). by apply elem_of_nil in Hin.
  - eexists _, _. split; [vm_compute; reflexivity|].
    split; [apply not_elem_of_nil|done].
Qed.

(** C5 (amended): on every entity input the wrapper of [to_universal]
    raises [NotImplementedError], and a [to_universal] call with
    [full_translate] true on a palette holding the entity raises, so no
    chunk or palette is returned; the wrapper of [from_universal] does not
    raise on the same input and returns no block, no block entity, an empty
    produced-entities list and a false flag. *)
Theorem entity_inputs (__debug__ : bool) (version : Version) (e : Entity)
    (cb : option GetBlockCallback) (chunk : Chunk) (palette : Palette)
    (r : option Resolver) :
  PEntity e ∈ palette →
  to_universal_translate version (PEntity e) cb = throw NotImplementedError ∧
  fails (to_universal version chunk palette r true) ∧
  from_universal_translate __debug__ version (PEntity e) cb = mret (None, None, [], false).
Proof.
  intros Hin. split; [done|]. split; [|done].
  unfold to_universal. rewrite _biomes_to_universal_eq.
  eapply returns_then_fails; [done|].
  destruct (name_to_universal_total version (block_entities chunk))
    as (named & Hnamed & _).
  eapply returns_then_fails; [exact Hnamed|].
  unfold _translate. simpl. apply fails_bind.
  apply (first_pass_fails _ _ _ _ (PEntity e)); [done|].
  by exists NotImplementedError.
Qed.

(** ** Calls with [full_translate] false *)

Lemma map_M_no_block_rule {A B} (f : A → M B) (l : list A) :
  (∀ a, Forall (λ ev, is_block_rule_call ev = false) (trace (f a))) →
  Forall (λ ev, is_block_rule_call ev = false) (trace (map_M f l)).
Proof.
  intros Hf. induction l as [|a l IH]; [constructor|].
  simpl. rewrite trace_bind. destruct (outcome (f a)); [apply Hf|].
  apply Forall_app. split; [apply Hf|].
  rewrite trace_bind. destruct (outcome (map_M f l)); [done|].
  apply Forall_app. split; [done|constructor].
Qed.

Lemma name_to_universal_no_block_rule version bes :
  Forall (λ ev, is_block_rule_call ev = false)
         (trace (name_to_universal version bes)).
Proof.
  unfold name_to_universal. destruct (block_entity_map version) as [names|];
    [|constructor].
  apply map_M_no_block_rule. intros be.
  destruct (be_namespace be), (names !! be_base_name be);
    repeat constructor.
Qed.

(** What a call with [full_translate] false does keep: the block grid and
    the palette are returned as they came, and no per-block rule is
    called. *)
Lemma shallow_to_universal_frame version chunk palette r c' p' :
  returns (to_universal version chunk palette r false) (c', p') →
  blocks c' = blocks chunk ∧ p' = palette ∧
  Forall (λ ev, is_block_rule_call ev = false)
         (trace (to_universal version chunk palette r false)).
Proof.
  intros (named & Hnamed & [= <- <-])%to_universal_returns.
  split; [done|]. split; [done|].
  unfold to_universal. rewrite _biomes_to_universal_eq, trace_bind. simpl.
  apply Forall_app. split.
  { apply Forall_fmap, Forall_true. done. }
  rewrite trace_bind, Hnamed. simpl. rewrite app_nil_r.
  apply name_to_universal_no_block_rule.
Qed.

Lemma name_from_universal_no_block_rule version bes :
  Forall (λ ev, is_block_rule_call ev = false)
         (trace (name_from_universal version bes)).
Proof.
  unfold name_from_universal. destruct (block_entity_map version) as [names|];
    [|constructor].
  apply map_M_no_block_rule. intros be.
  destruct (block_entity_map_inverse version !! namespaced_name be);
    repeat constructor.
Qed.

Lemma shallow_from_universal_frame __debug__ version chunk palette r c' p' :
  returns (from_universal __debug__ version chunk palette r false) (c', p') →
  blocks c' = blocks chunk ∧ p' = palette ∧
  Forall (λ ev, is_block_rule_call ev = false)
         (trace (from_universal __debug__ version chunk palette r false)).
Proof.
  intros (c1 & named & [= <- <-] & Hnamed & ->)%from_universal_returns.
  split; [done|]. split; [done|].
  unfold from_universal, _translate. cbn [negb].
  rewrite (mret_bind (chunk, palette)).
  rewrite _biomes_from_universal_eq, trace_bind. simpl.
  apply Forall_app. split.
  { apply Forall_fmap, Forall_true. done. }
  rewrite trace_bind. simpl in Hnamed. rewrite Hnamed. simpl. rewrite app_nil_r.
  apply name_from_universal_no_block_rule.
Qed.

(** C9: a [to_universal] call with [full_translate] false is documented to
    just unpack the palette, but the biome array and the block-entity list
    do not come back as they went in: on the sample chunk the biomes
    3, 1, 3, 2 come back as 103, 101, 103, 102 and the block entity named
    Chest comes back named universal_minecraft:chest.  [from_universal]
    recodes the biomes likewise.  The block grid and the palette are
    returned unchanged. *)
Theorem shallow_call_recodes_biomes :
  ∃ c' p' c'' p'',
    returns (to_universal Examples.sample_version Examples.sample_chunk
               Examples.sample_palette None false) (c', p') ∧
    blocks c' = blocks Examples.sample_chunk ∧
    p' = Examples.sample_palette ∧
    biomes Examples.sample_chunk = mkArray [2; 2] [3; 1; 3; 2]%Z ∧
    biomes c' = mkArray [2; 2] [103; 101; 103; 102]%Z ∧
    namespaced_name <$> block_entities Examples.sample_chunk = [(None, "Chest")] ∧
    namespaced_name <$> block_entities c'
      = [(Some "universal_minecraft", "chest")] ∧
    returns (from_universal true Examples.sample_version Examples.sample_chunk
               Examples.sample_palette None false) (c'', p'') ∧
    biomes c'' = mkArray [2; 2] [-97; -99; -97; -98]%Z.
Proof.
  eexists _, _, _, _.
  do 8 (split; [vm_compute; reflexivity|]).
  vm_compute; reflexivity.
Qed.

(** ** The entity list *)

Lemma _translate_frame chunk palette r (tr : TranslateCallback) deep c' p' :
  returns (_translate chunk palette r tr deep) (c', p') →
  entities c' = entities chunk ∧ cx c' = cx chunk ∧ cz c' = cz chunk ∧
  biomes c' = biomes chunk.
Proof.
  destruct deep.
  - intros Hret. apply _translate_returns in Hret as (w1 & w2 & _ & _ & -> & _).
    done.
  - by intros [= <- <-].
Qed.

(** The chunk's entity list has no part in [_translate]. *)
Lemma _translate_set_entities chunk es palette r (tr : TranslateCallback) deep :
  _translate (set_entities chunk es) palette r tr deep
    = _translate chunk palette r tr deep ≫= λ cp,
      mret (set_entities cp.1 es, cp.2).
Proof.
  destruct deep; [|done]. unfold _translate. simpl.
  change (first_pass (set_entities chunk es) palette r tr)
    with (first_pass chunk palette r tr).
  rewrite bind_assoc. apply bind_ext. intros w1.
  change (second_pass (set_entities chunk es) palette r tr w1)
    with (second_pass chunk palette r tr w1).
  rewrite bind_assoc. apply bind_ext. intros w2.
  by rewrite mret_bind.
Qed.

Lemma first_pass_step_without_entities chunk r (tr : TranslateCallback) w slot :
  first_pass_step chunk r (without_entities tr) w slot
    = first_pass_step chunk r tr w slot.
Proof.
  unfold first_pass_step, without_entities. rewrite bind_assoc.
  apply bind_ext. intros [[[ob obe] oents] extra]. by rewrite mret_bind.
Qed.

Lemma second_pass_step_without_entities chunk palette r (tr : TranslateCallback) w c :
  second_pass_step chunk palette r (without_entities tr) w c
    = second_pass_step chunk palette r tr w c.
Proof.
  unfold second_pass_step, without_entities.
  apply bind_ext. intros idx. apply bind_ext. intros input.
  rewrite bind_assoc. apply bind_ext. intros [[[ob obe] oents] extra].
  by rewrite mret_bind.
Qed.

(** The produced-entities list of the wrapper has no part in [_translate]. *)
Lemma _translate_without_entities chunk palette r (tr : TranslateCallback) deep :
  _translate chunk palette r (without_entities tr) deep
    = _translate chunk palette r tr deep.
Proof.
  destruct deep; [|done]. unfold _translate. simpl.
  unfold first_pass.
  rewrite (foldM_ext _ (first_pass_step chunk r tr))
    by apply first_pass_step_without_entities.
  apply bind_ext. intros w1. unfold second_pass.
  rewrite (foldM_ext _ (λ w index,
             foldM (second_pass_step chunk palette r tr)
                   (where_eq (blocks chunk) index) w)); [done|].
  intros w index. apply foldM_ext. apply second_pass_step_without_entities.
Qed.

(** C10: the engine does nothing with entities.  In both directions and for
    either value of [full_translate], a call that returns hands back the
    chunk's entity list as it was; the result of [_translate] is the same
    when the produced-entities lists of the wrapper are emptied; and calling
    an operation on a chunk with another entity list gives the same calls and
    the same result, but for that entity list. *)
Theorem entity_list_untouched (__debug__ : bool) (version : Version)
    (chunk : Chunk) (palette : Palette) (r : option Resolver) (deep : bool)
    (tr : TranslateCallback) (es : list Entity) :
  (∀ c' p', returns (to_universal version chunk palette r deep) (c', p') →
            entities c' = entities chunk) ∧
  (∀ c' p', returns (from_universal __debug__ version chunk palette r deep) (c', p') →
            entities c' = entities chunk) ∧
  (∀ c' p', returns (_translate chunk palette r tr deep) (c', p') →
            entities c' = entities chunk) ∧
  _translate chunk palette r (without_entities tr) deep
    = _translate chunk palette r tr deep ∧
  to_universal version (set_entities chunk es) palette r deep
    = (to_universal version chunk palette r deep ≫= λ cp,
       mret (set_entities cp.1 es, cp.2)) ∧
  from_universal __debug__ version (set_entities chunk es) palette r deep
    = (from_universal __debug__ version chunk palette r deep ≫= λ cp,
       mret (set_entities cp.1 es, cp.2)).
Proof.
  split; [|split; [|split; [|split; [|split]]]].
  - intros c' p' (named & _ & Hret)%to_universal_returns.
    by apply _translate_frame in Hret as (-> & _).
  - intros c' p' (c1 & named & Hret & _ & ->)%from_universal_returns.
    by apply _translate_frame in Hret as (<- & _).
  - intros c' p' Hret. by apply _translate_frame in Hret as (-> & _).
  - apply _translate_without_entities.
  - unfold to_universal. simpl. rewrite bind_assoc. apply bind_ext. intros ub.
    rewrite bind_assoc. apply bind_ext. intros named.
    apply (_translate_set_entities
             (set_block_entities (set_biomes chunk ub) named) es).
  - unfold from_universal. rewrite _translate_set_entities, !bind_assoc.
    apply bind_ext. intros [c1 p1]. rewrite mret_bind. simpl.
    rewrite bind_assoc. apply bind_ext. intros vb.
    rewrite bind_assoc. apply bind_ext. intros named.
    by rewrite mret_bind.
Qed.

(** ** The statements at the sample inputs *)

Lemma round_trip_witness :
  ∃ c1 p1 c2 p2,
    returns (to_universal Examples.identity_version Examples.sample_chunk
               Examples.sample_palette None true) (c1, p1) ∧
    returns (from_universal true Examples.identity_version c1 p1 None true)
            (c2, p2) ∧
    ∀ x y z b,
      block_at Examples.sample_chunk Examples.sample_palette x y z
        = Some (PBlock b) →
      block_at c2 p2 x y z = Some (PBlock b) ∧
      ∃ i, getitem3 (blocks c2) x y z = Some i ∧ p2 !! i = Some (PBlock b).
Proof.
  apply (round_trip true Examples.identity_version Examples.identity_version
           Examples.sample_chunk Examples.sample_palette None None).
  - intros e He. apply list_elem_of_In in He. simpl in He.
    destruct He as [<-|[<-|[<-|[]]]]; eexists; split; reflexivity.
  - intros b _. exists None. reflexivity.
  - intros b _. exists None. reflexivity.
Defined.

Lemma palette_dedup_witness :
  NoDup Examples.merged_palette ∧
  ∃ s,
    Examples.merged_palette !! s = Some (PBlock Examples.universal_stone) ∧
    (∀ s', Examples.merged_palette !! s' = Some (PBlock Examples.universal_stone) →
           s' = s) ∧
    (∀ x y z,
       getitem3 (blocks Examples.sample_chunk) x y z = Some 0 ∨
       getitem3 (blocks Examples.sample_chunk) x y z = Some 2 →
       getitem3 (blocks Examples.merged_chunk) x y z = Some s).
Proof.
  apply (palette_dedup Examples.sample_chunk Examples.sample_palette None
           (to_universal_translate Examples.sample_version)
           Examples.merged_chunk Examples.merged_palette 0 2
           (PBlock Examples.stone) (PBlock Examples.granite)
           (Some Examples.universal_stone, None, [], false)
           (Some Examples.universal_stone, None, [], false)
           Examples.universal_stone).
  - vm_compute. reflexivity.
  - lia.
  - reflexivity.
  - reflexivity.
  - split; vm_compute; reflexivity.
  - split; vm_compute; reflexivity.
  - reflexivity.
  - reflexivity.
Defined.

Lemma deferral_rule_witness :
  (∃ res, returns (translate_for true ToUniversal Examples.sample_version
                     (PBlock Examples.waterlogged_stone) None) res ∧
          res.2 = any_flag Examples.waterlogged_outputs) ∧
  (0 ∈ todo Examples.waterlogged_work ↔
     any_flag Examples.waterlogged_outputs = true ∧
     supplied (None : option Resolver) = true) ∧
  (if any_flag Examples.waterlogged_outputs && supplied (None : option Resolver)
   then ∀ s, (0, s) ∉ palette_mappings Examples.waterlogged_work
   else ∃ s, (0, s) ∈ palette_mappings Examples.waterlogged_work ∧
             finished Examples.waterlogged_work !! s
               = Some (compose_blocks (block_outputs Examples.waterlogged_outputs))).
Proof.
  apply (deferral_rule true ToUniversal Examples.sample_version Examples.sample_chunk
           [PBlock Examples.waterlogged_stone] None Examples.waterlogged_work 0
           Examples.waterlogged_stone Examples.waterlogged_outputs).
  - vm_compute. reflexivity.
  - reflexivity.
  - repeat constructor.
Defined.

Lemma entity_inputs_witness :
  to_universal_translate Examples.sample_version (PEntity Examples.frame) None
    = throw NotImplementedError ∧
  fails (to_universal Examples.sample_version Examples.sample_chunk
           [PBlock Examples.stone; PEntity Examples.frame] None true) ∧
  from_universal_translate true Examples.sample_version (PEntity Examples.frame) None
    = mret (None, None, [], false).
Proof.
  apply (entity_inputs true Examples.sample_version Examples.frame None
           Examples.sample_chunk
           [PBlock Examples.stone; PEntity Examples.frame] None).
  apply list_elem_of_In. simpl. tauto.
Defined.

Lemma biome_recoding_witness :
  shape Examples.biomes_16x16 = [16; 16] ∧
  recodes_once ToUniversal (biome_to_universal Examples.identity_version)
               Examples.biomes_16x16
               (_biomes_to_universal Examples.identity_version
                  Examples.biomes_16x16) ∧
  recodes_once FromUniversal (biome_from_universal Examples.identity_version)
               Examples.biomes_16x16
               (_biomes_from_universal Examples.identity_version
                  Examples.biomes_16x16) ∧
  ∃ universal,
    returns (_biomes_to_universal Examples.identity_version Examples.biomes_16x16)
            universal ∧
    returns (_biomes_from_universal Examples.identity_version universal)
            Examples.biomes_16x16.
Proof.
  split; [reflexivity|].
  destruct (biome_recoding Examples.identity_version Examples.biomes_16x16)
    as (Hto & Hfrom & Hback).
  split; [exact Hto|]. split; [exact Hfrom|].
  apply Hback. intros v _. simpl. lia.
Defined.

Lemma layer_merge_witness :
  returns (translate_for true ToUniversal Examples.sample_version
             (PBlock Examples.framed_chest) None)
          (compose_blocks (block_outputs Examples.framed_chest_outputs),
           depth0_block_entity Examples.framed_chest_outputs,
           entity_outputs Examples.framed_chest_outputs,
           any_flag Examples.framed_chest_outputs).
Proof.
  apply (layer_merge true ToUniversal Examples.sample_version Examples.framed_chest
           None Examples.framed_chest_outputs).
  repeat constructor.
Defined.

Lemma entity_list_untouched_witness :
  entities Examples.merged_chunk = entities Examples.sample_chunk.
Proof.
  apply (proj1 (proj2 (proj2
           (entity_list_untouched true Examples.sample_version Examples.sample_chunk
              Examples.sample_palette None true
              (to_universal_translate Examples.sample_version) [])))
           Examples.merged_chunk Examples.merged_palette).
  vm_compute. reflexivity.
Defined.

(** * Part III: further properties of the code *)

(** ** The order on version tuples *)

Lemma tuple_le_lt a b : PyTuple.le a b = negb (PyTuple.lt b a).
Proof.
  revert b; induction a as [|x a IH]; intros [|y b]; simpl; try done.
  rewrite (Z.eqb_sym y x). destruct (Z.eqb_spec x y) as [->|Hne]; [apply IH|].
  destruct (Z.ltb_spec x y), (Z.ltb_spec y x); simpl; try done; lia.
Qed.

Lemma tuple_le_trans a b c :
  PyTuple.le a b = true → PyTuple.le b c = true → PyTuple.le a c = true.
Proof.
  revert b c; induction a as [|x a IH]; intros [|y b] [|z c]; simpl; try done.
  destruct (Z.eqb_spec x y) as [->|Hxy].
  - destruct (Z.eqb_spec y z) as [->|Hyz]; [apply IH|done].
  - intros Hlt%Z.ltb_lt. destruct (Z.eqb_spec y z) as [->|Hyz].
    + intros _. destruct (Z.eqb_spec x z); [lia|]. by apply Z.ltb_lt.
    + intros Hlt'%Z.ltb_lt. destruct (Z.eqb_spec x z); [lia|].
      apply Z.ltb_lt. lia.
Qed.

Lemma tuple_le_antisym a b :
  PyTuple.le a b = true → PyTuple.le b a = true → a = b.
Proof.
  revert b; induction a as [|x a IH]; intros [|y b]; simpl; try done.
  rewrite (Z.eqb_sym y x). destruct (Z.eqb_spec x y) as [->|Hxy].
  - intros H1 H2. f_equal. by apply IH.
  - intros H1%Z.ltb_lt H2%Z.ltb_lt. lia.
Qed.

Lemma tuple_le_total a b : PyTuple.le a b = true ∨ PyTuple.le b a = true.
Proof.
  rewrite (tuple_le_lt a b). destruct (PyTuple.lt b a) eqn:H; [|by left].
  right. by apply tuple_lt_le.
Qed.

(** ** The chunk-version table, continued *)

(** What [game_to_chunk_version] answers is an entry whose range holds the
    version. *)
Lemma first_containing_sound d g v :
  ChunkVersions.first_containing d g = Some v →
  ∃ first last, (v, (first, last)) ∈ d ∧
                PyTuple.le first g = true ∧ PyTuple.le g last = true.
Proof.
  induction d as [|[v' [f l]] d IH]; simpl; [done|].
  destruct (PyTuple.le f g && PyTuple.le g l) eqn:Hin.
  - intros [= <-]. apply andb_true_iff in Hin as [??].
    exists f, l. split; [left|done].
  - intros (f' & l' & ? & ?)%IH. exists f', l'. split; [by right|done].
Qed.

Lemma dict_get_elem {V} (d : list (Z * V)) (k : Z) (x : V) :
  NoDup d.*1 → (k, x) ∈ d → ChunkVersions.dict_get d k = Some x.
Proof.
  induction d as [|[k' x'] d IH]; simpl; [by intros _ ?%elem_of_nil|].
  intros [Hnin Hnd]%NoDup_cons [[= -> ->]|Hin]%elem_of_cons.
  - by rewrite Z.eqb_refl.
  - destruct (Z.eqb_spec k' k) as [->|Hne]; [|by apply IH].
    destruct Hnin. apply list_elem_of_fmap. by exists (k, x).
Qed.

Lemma table_keys_NoDup : NoDup ChunkVersions.chunk_version_to_max_version.*1.
Proof. apply (bool_decide_unpack _). by vm_compute. Qed.

(** X1: clamping a game version by the chunk version it maps to gives the
    game version back: whenever [game_to_chunk_version g] answers [v],
    [chunk_to_game_version g v] answers [g], and never raises [KeyError]. *)
Theorem chunk_to_game_version_of_game_to_chunk_version (g : list Z) (v : Z) :
  ChunkVersions.game_to_chunk_version g = Some v →
  ChunkVersions.chunk_to_game_version g v = Some g.
Proof.
  intros (f & l & Hin & Hf & Hl)%first_containing_sound.
  unfold ChunkVersions.chunk_to_game_version.
  rewrite (dict_get_elem _ _ _ table_keys_NoDup Hin). simpl. f_equal.
  unfold PyTuple.min. destruct (PyTuple.lt g l) eqn:Hlt; [done|].
  apply tuple_le_antisym; [by apply tuple_not_lt_le|done].
Qed.

Lemma chunk_to_game_version_of_game_to_chunk_version_witness :
  ChunkVersions.chunk_to_game_version [1; 11; 1; 5]%Z 13 = Some [1; 11; 1; 5]%Z.
Proof.
  apply (chunk_to_game_version_of_game_to_chunk_version [1; 11; 1; 5]%Z 13).
  reflexivity.
Defined.

(** A table whose ranges start in non-decreasing order and whose chunk
    versions increase answers monotonically. *)
Lemma first_containing_mono d g1 g2 v1 v2 :
  StronglySorted (λ a b : Z * (list Z * list Z),
                    (a.1 < b.1)%Z ∧ PyTuple.le a.2.1 b.2.1 = true) d →
  PyTuple.le g1 g2 = true →
  ChunkVersions.first_containing d g1 = Some v1 →
  ChunkVersions.first_containing d g2 = Some v2 →
  (v1 ≤ v2)%Z.
Proof.
  intros Hsorted Hg. revert v1 v2.
  induction d as [|[v [f l]] d IH]; intros v1 v2; simpl; [done|].
  apply StronglySorted_cons in Hsorted as [Hhd Hsorted].
  rewrite Forall_forall in Hhd.
  destruct (PyTuple.le f g1 && PyTuple.le g1 l) eqn:H1.
  - intros [= <-].
    destruct (PyTuple.le f g2 && PyTuple.le g2 l); [by intros [= <-]|].
    intros (f' & l' & Hin & _)%first_containing_sound.
    destruct (Hhd _ Hin) as [Hlt _]. simpl in Hlt. lia.
  - intros Hv1. pose proof Hv1 as (f' & l' & Hin & Hf' & _)%first_containing_sound.
    destruct (Hhd _ Hin) as [_ Hff']. simpl in Hff'.
    assert (PyTuple.le f g1 = true) as Hfg1 by (by eapply tuple_le_trans).
    rewrite Hfg1 in H1. simpl in H1.
    assert (PyTuple.le g2 l = false) as Hg2.
    { destruct (PyTuple.le g2 l) eqn:Hg2; [|done].
      rewrite (tuple_le_trans _ _ _ Hg Hg2) in H1. done. }
    rewrite Hg2, andb_false_r. by apply IH.
Qed.

Lemma table_sorted :
  StronglySorted (λ a b : Z * (list Z * list Z),
                    (a.1 < b.1)%Z ∧ PyTuple.le a.2.1 b.2.1 = true)
                 ChunkVersions.chunk_version_to_max_version.
Proof.
  unfold ChunkVersions.chunk_version_to_max_version.
  repeat first [ apply SSorted_nil | apply SSorted_cons | apply Forall_nil
               | apply Forall_cons_2 | split; reflexivity ].
Qed.

(** X2: a newer game version never maps to an older chunk version: when
    [g1 <= g2] in tuple order and both are supported, the chunk version of
    [g1] is at most that of [g2]. *)
Theorem game_to_chunk_version_monotone (g1 g2 : list Z) (v1 v2 : Z) :
  PyTuple.le g1 g2 = true →
  ChunkVersions.game_to_chunk_version g1 = Some v1 →
  ChunkVersions.game_to_chunk_version g2 = Some v2 →
  (v1 ≤ v2)%Z.
Proof. apply first_containing_mono, table_sorted. Qed.

Lemma game_to_chunk_version_monotone_witness :
  ChunkVersions.game_to_chunk_version [0; 18; 0; 0]%Z = Some 4%Z ∧
  ChunkVersions.game_to_chunk_version [0; 18; 0; 1]%Z = Some 5%Z ∧
  (4 ≤ 5)%Z.
Proof.
  split; [reflexivity|]. split; [reflexivity|].
  apply (game_to_chunk_version_monotone [0; 18; 0; 0]%Z [0; 18; 0; 1]%Z 4 5);
    reflexivity.
Defined.

Lemma first_containing_skip d1 d2 g :
  Forall (λ e : Z * (list Z * list Z),
            PyTuple.le e.2.1 g && PyTuple.le g e.2.2 = false) d1 →
  ChunkVersions.first_containing (d1 ++ d2) g
    = ChunkVersions.first_containing d2 g.
Proof.
  induction 1 as [|[v [f l]] d1 Hhd _ IH]; [done|].
  simpl in *. by rewrite Hhd.
Qed.

(** X3: a game version outside the span of the table is unsupported: below
    0.9.0.0 or above 999.999.999.9999 [game_to_chunk_version] falls off the
    end of its loop and answers [None]. *)
Theorem game_to_chunk_version_outside (g : list Z) :
  PyTuple.lt g [0; 9; 0; 0]%Z = true ∨
  PyTuple.lt [999; 999; 999; 9999]%Z g = true →
  ChunkVersions.game_to_chunk_version g = None.
Proof.
  intros Hout.
  destruct (ChunkVersions.game_to_chunk_version g) as [v|] eqn:Hv; [|done].
  exfalso. apply first_containing_sound in Hv as (f & l & Hin & Hf & Hl).
  assert (Hspan : Forall (λ e : Z * (list Z * list Z),
                    PyTuple.le [0; 9; 0; 0]%Z e.2.1 = true ∧
                    PyTuple.le e.2.2 [999; 999; 999; 9999]%Z = true)
                  ChunkVersions.chunk_version_to_max_version).
  { unfold ChunkVersions.chunk_version_to_max_version.
    repeat first [ apply Forall_nil | apply Forall_cons_2 | split; reflexivity ]. }
  rewrite Forall_forall in Hspan. destruct (Hspan _ Hin) as [Hlo Hhi].
  cbn [fst snd] in Hlo, Hhi. destruct Hout as [Hlt|Hlt].
  - pose proof (tuple_le_trans _ _ _ Hlo Hf) as Hle.
    rewrite tuple_le_lt, Hlt in Hle. done.
  - pose proof (tuple_le_trans _ _ _ Hl Hhi) as Hle.
    rewrite tuple_le_lt, Hlt in Hle. done.
Qed.

Lemma game_to_chunk_version_outside_witness :
  ChunkVersions.game_to_chunk_version [0; 8; 999; 9999]%Z = None.
Proof.
  apply (game_to_chunk_version_outside [0; 8; 999; 9999]%Z).
  left. reflexivity.
Defined.

(** X4: [chunk_to_game_version] answers exactly for the chunk versions 0 to
    15; for any other chunk version the table subscript is a [KeyError]. *)
Theorem chunk_to_game_version_defined (g : list Z) (v : Z) :
  is_Some (ChunkVersions.chunk_to_game_version g v) ↔ (0 ≤ v ≤ 15)%Z.
Proof.
  unfold ChunkVersions.chunk_to_game_version. split.
  - intros [r Hr].
    destruct (ChunkVersions.dict_get _ v) as [range|] eqn:Hget; [|done].
    clear Hr. unfold ChunkVersions.chunk_version_to_max_version in Hget.
    cbn [ChunkVersions.dict_get] in Hget.
    repeat match type of Hget with
           | context [(?k =? v)%Z] =>
               destruct (Z.eqb_spec k v) as [<-|_]; [lia|]
           end.
    done.
  - intros Hv.
    assert (v = 0 ∨ v = 1 ∨ v = 2 ∨ v = 3 ∨ v = 4 ∨ v = 5 ∨ v = 6 ∨ v = 7 ∨
            v = 8 ∨ v = 9 ∨ v = 10 ∨ v = 11 ∨ v = 12 ∨ v = 13 ∨ v = 14 ∨
            v = 15)%Z as Hcases by lia.
    repeat destruct Hcases as [->|Hcases]; try subst v; by eexists.
Qed.

(** X5: where two ranges of the table start at the same game version, the
    earlier entry wins and is answered for that one version only: chunk
    version 4 is answered exactly for 0.18.0.0 and chunk version 6 exactly
    for 1.2.0.0. *)
Theorem game_to_chunk_version_overlap (g : list Z) :
  (ChunkVersions.game_to_chunk_version g = Some 4%Z ↔ g = [0; 18; 0; 0]%Z) ∧
  (ChunkVersions.game_to_chunk_version g = Some 6%Z ↔ g = [1; 2; 0; 0]%Z).
Proof.
  assert (Hone : ∀ v f,
            (∀ f' l', (v, (f', l')) ∈ ChunkVersions.chunk_version_to_max_version →
                      f' = f ∧ l' = f) →
            ChunkVersions.game_to_chunk_version f = Some v →
            ChunkVersions.game_to_chunk_version g = Some v ↔ g = f).
  { intros v f Hentry Hf. split; [|by intros ->].
    intros (f' & l' & Hin & Hlo & Hhi)%first_containing_sound.
    destruct (Hentry _ _ Hin) as [-> ->]. by apply tuple_le_antisym. }
  assert (Hentries : ∀ v f' l',
            (v, (f', l')) ∈ ChunkVersions.chunk_version_to_max_version →
            ChunkVersions.dict_get ChunkVersions.chunk_version_to_max_version v
              = Some (f', l')).
  { intros v f' l'. apply dict_get_elem, table_keys_NoDup. }
  split; apply Hone; try reflexivity.
  - intros f' l' [= -> ->]%Hentries. done.
  - intros f' l' [= -> ->]%Hentries. done.
Qed.

(** X6: every game version from 1.12.0.0 up to the open-ended maximum
    999.999.999.9999 maps to chunk version 15. *)
Theorem game_to_chunk_version_latest (g : list Z) :
  PyTuple.le [1; 12; 0; 0]%Z g = true →
  PyTuple.le g [999; 999; 999; 9999]%Z = true →
  ChunkVersions.game_to_chunk_version g = Some 15%Z.
Proof.
  intros Hlo Hhi. unfold ChunkVersions.game_to_chunk_version.
  change ChunkVersions.chunk_version_to_max_version
    with (firstn 15 ChunkVersions.chunk_version_to_max_version ++
          [(15, ([1; 12; 0; 0], [999; 999; 999; 9999]))%Z]).
  rewrite first_containing_skip.
  - cbn [ChunkVersions.first_containing]. by rewrite Hlo, Hhi.
  - assert (Hbelow : Forall (λ e : Z * (list Z * list Z),
                       PyTuple.lt e.2.2 [1; 12; 0; 0]%Z = true)
                     (firstn 15 ChunkVersions.chunk_version_to_max_version)).
    { simpl.
      repeat first [ apply Forall_nil | apply Forall_cons_2 | reflexivity ]. }
    eapply Forall_impl; [exact Hbelow|]. intros [v [f l]] Hlt.
    cbn [fst snd] in *.
    apply andb_false_iff. right.
    destruct (PyTuple.le g l) eqn:Hgl; [|done].
    pose proof (tuple_le_trans _ _ _ Hlo Hgl) as Hle.
    rewrite tuple_le_lt, Hlt in Hle. done.
Qed.

Lemma game_to_chunk_version_latest_witness :
  ChunkVersions.game_to_chunk_version [1; 16; 100; 7]%Z = Some 15%Z.
Proof.
  apply (game_to_chunk_version_latest [1; 16; 100; 7]%Z); reflexivity.
Defined.

(** ** Loops, continued *)

Lemma foldM_app_returns {A S} (f : S → A → M S) (l1 l2 : list A) (s s' : S) :
  returns (foldM f (l1 ++ l2) s) s' ↔
  ∃ s1, returns (foldM f l1 s) s1 ∧ returns (foldM f l2 s1) s'.
Proof.
  revert s. induction l1 as [|a l1 IH]; intros s; simpl.
  - split; [by exists s|]. by intros (s1 & [= <-] & ?).
  - rewrite !returns_bind. split.
    + intros (s0 & Hf & (s1 & H1 & H2)%IH). exists s1. split; [|done].
      apply returns_bind. eauto.
    + intros (s1 & (s0 & Hf & H1)%returns_bind & H2). exists s0. split; [done|].
      apply IH. eauto.
Qed.

(** A nested loop goes through the concatenation of the inner lists. *)
Lemma foldM_nested_returns {A B S} (g : S → B → M S) (h : A → list B)
    (l : list A) (s s' : S) :
  returns (foldM (λ s a, foldM g (h a) s) l s) s' ↔
  returns (foldM g (l ≫= h) s) s'.
Proof.
  revert s. induction l as [|a l IH]; intros s; [done|].
  cbn [foldM]. rewrite bind_cons, foldM_app_returns, returns_bind.
  by setoid_rewrite IH.
Qed.

(** An invariant that follows the elements gone through. *)
Lemma foldM_inv_prefix {A S} (P : list A → S → Prop) (f : S → A → M S)
    (l : list A) (s s' : S) :
  P [] s →
  (∀ pre a s s', a ∈ l → P pre s → returns (f s a) s' → P (pre ++ [a]) s') →
  returns (foldM f l s) s' → P l s'.
Proof.
  intros Hnil Hstep.
  enough (∀ pre s, P pre s → (∀ a, a ∈ l → a ∈ l) →
                   returns (foldM f l s) s' → P (pre ++ l) s')
    as Hgen by (by apply (Hgen [])).
  clear Hnil s. intros pre s Hpre _. revert pre s Hpre.
  induction l as [|a l IH]; intros pre s Hpre.
  - intros [= <-]. by rewrite app_nil_r.
  - intros (s1 & Hf & Hrest)%foldM_cons.
    rewrite (cons_middle a pre l), app_assoc.
    apply (IH (λ pre a s s' Ha, Hstep pre a s s' (list_elem_of_further _ _ _ Ha))
              (pre ++ [a]) s1); [|done].
    eapply Hstep; [left|done..].
Qed.

(** ** Dicts in insertion order *)

Lemma elem_of_dict_set_same {K V} `{EqDecision K} (d : list (K * V)) k v :
  (k, v) ∈ dict_set d k v.
Proof.
  induction d as [|[k' v'] d IH]; simpl; [left|].
  destruct (decide (k' = k)); [left|right; exact IH].
Qed.

Lemma elem_of_dict_set_ne {K V} `{EqDecision K} (d : list (K * V)) k v e :
  e ∈ d → e.1 ≠ k → e ∈ dict_set d k v.
Proof.
  induction d as [|[k' v'] d IH]; simpl; [by intros ?%elem_of_nil|].
  intros [->|Hin]%elem_of_cons Hne.
  - simpl in Hne. rewrite decide_False by done. left.
  - destruct (decide (k' = k)); right; [done|by apply IH].
Qed.

Lemma dict_set_keys {K V} `{EqDecision K} (d : list (K * V)) k v :
  (dict_set d k v).*1 = if decide (k ∈ d.*1) then d.*1 else d.*1 ++ [k].
Proof.
  induction d as [|[k' v'] d IH]; cbn [dict_set fmap list_fmap fst].
  - rewrite decide_False; [done|apply not_elem_of_nil].
  - destruct (decide (k' = k)) as [->|Hne]; cbn [fmap list_fmap fst].
    + rewrite decide_True; [done|left].
    + rewrite IH. destruct (decide (k ∈ d.*1)) as [Hin|Hnin].
      * rewrite decide_True; [done|by right].
      * rewrite decide_False; [done|].
        intros [?|?]%elem_of_cons; congruence.
Qed.

Lemma dict_set_keys_NoDup {K V} `{EqDecision K} (d : list (K * V)) k v :
  NoDup d.*1 → NoDup (dict_set d k v).*1.
Proof.
  intros Hnd. rewrite dict_set_keys. destruct (decide (k ∈ d.*1)); [done|].
  apply NoDup_app. split; [done|]. split; [|apply NoDup_singleton].
  intros x Hx ->%list_elem_of_singleton. done.
Qed.

Lemma dict_elem_unique {K V} (d : list (K * V)) k v v' :
  NoDup d.*1 → (k, v) ∈ d → (k, v') ∈ d → v = v'.
Proof.
  induction d as [|[k0 v0] d IH]; simpl; [by intros _ ?%elem_of_nil|].
  intros [Hnin Hnd]%NoDup_cons Hv Hv'.
  assert (Hkey : ∀ x, (k0, x) ∈ d → False).
  { intros x Hx. apply Hnin. apply list_elem_of_fmap. by exists (k0, x). }
  apply elem_of_cons in Hv as [Heq|Hv];
    apply elem_of_cons in Hv' as [Heq'|Hv']; simplify_eq; try done.
  - by destruct (Hkey _ Hv').
  - by destruct (Hkey _ Hv).
  - by apply IH.
Qed.

(** ** The block grid, continued *)

Lemma getitem3_setitem3_eq (g : Grid) (x y z new : nat) :
  is_Some (getitem3 g x y z) → getitem3 (setitem3 g (x, y, z) new) x y z = Some new.
Proof.
  unfold setitem3, getitem3. simpl. rewrite list_lookup_alter_eq.
  destruct (g !! x) as [plane|]; simpl; [|by intros [??]].
  rewrite list_lookup_alter_eq.
  destruct (plane !! y) as [row|]; simpl; [|by intros [??]].
  intros [v Hv]. apply list_lookup_insert_eq. by apply lookup_lt_Some in Hv.
Qed.

Lemma getitem3_setitem3_is_Some (g : Grid) c new x y z :
  is_Some (getitem3 (setitem3 g c new) x y z) ↔ is_Some (getitem3 g x y z).
Proof.
  destruct (decide (c = (x, y, z))) as [->|Hne];
    [|by rewrite getitem3_setitem3_ne].
  split.
  - unfold setitem3, getitem3. simpl. rewrite list_lookup_alter_eq.
    destruct (g !! x) as [plane|]; simpl; [|done].
    rewrite list_lookup_alter_eq.
    destruct (plane !! y) as [row|]; simpl; [|done].
    intros [v Hv]. apply lookup_lt_is_Some. apply lookup_lt_Some in Hv.
    by rewrite length_insert in Hv.
  - intros H. rewrite getitem3_setitem3_eq by done. by eexists.
Qed.

(** The coordinate-level loop of the commit leaves, at a coordinate it has a
    mapping for, the slot of that mapping. *)
Lemma getitem3_foldl_setitem3_key (bm : list (nat * nat * nat * nat)) (g : Grid)
    (x y z s : nat) :
  NoDup bm.*1 → ((x, y, z), s) ∈ bm → is_Some (getitem3 g x y z) →
  getitem3 (foldl (λ g e, setitem3 g e.1 e.2) g bm) x y z = Some s.
Proof.
  revert g. induction bm as [|[c n] bm IH]; intros g; simpl;
    [by intros _ ?%elem_of_nil|].
  intros [Hnin Hnd]%NoDup_cons [[= <- <-]|Hin]%elem_of_cons Hsome.
  - rewrite getitem3_foldl_setitem3; [by apply getitem3_setitem3_eq|].
    apply Forall_forall. intros e He Heq. apply Hnin.
    apply list_elem_of_fmap. by exists e.
  - apply IH; [done..|]. by apply getitem3_setitem3_is_Some.
Qed.

Lemma commit_is_Some (g : Grid) pm bm x y z :
  is_Some (getitem3 (commit g pm bm) x y z) ↔ is_Some (getitem3 g x y z).
Proof.
  unfold commit.
  transitivity (is_Some (getitem3 (foldl (λ g e, mask_assign g e.1 e.2) g pm) x y z)).
  - generalize (foldl (λ g e, mask_assign g e.1 e.2) g pm). clear g.
    induction bm as [|e bm IH]; intros g; simpl; [done|].
    by rewrite IH, getitem3_setitem3_is_Some.
  - rewrite getitem3_foldl_mask. by rewrite fmap_is_Some.
Qed.

(** ** The context-aware pass, coordinate by coordinate *)

Lemma second_pass_step_returns_iff chunk palette r (tr : TranslateCallback) w c w' :
  returns (second_pass_step chunk palette r tr w c) w' ↔
  ∃ i e res,
    getitem3 (blocks chunk) c.1.1 c.1.2 c.2 = Some i ∧
    palette !! i = Some e ∧
    returns (tr e (Some (get_block_at chunk palette r
                           (Z.of_nat c.1.1) (Z.of_nat c.1.2) (Z.of_nat c.2)))) res ∧
    w' = mkWork (todo w)
           (output_block_entities w ++
              match res.1.1.2 with
              | Some be => [place chunk be c]
              | None => []
              end)
           (get_add_block (finished w) res.1.1.1).2
           (palette_mappings w)
           (dict_set (block_mappings w) c (get_add_block (finished w) res.1.1.1).1).
Proof.
  unfold second_pass_step. rewrite returns_bind. split.
  - intros (i & Hi%lift_index_returns & (e & He%lift_index_returns & Hrest)
              %returns_bind).
    apply returns_bind in Hrest as ([[[ob obe] oents] extra] & Hres & [= <-]).
    exists i, e, (ob, obe, oents, extra). done.
  - intros (i & e & [[[ob obe] oents] extra] & Hi & He & Hres & ->).
    exists i. split; [by apply lift_index_returns|].
    apply returns_bind. exists e. split; [by apply lift_index_returns|].
    apply returns_bind. eexists. split; [exact Hres|done].
Qed.

Lemma context_output_inj chunk palette r (tr : TranslateCallback) c o o' :
  context_output chunk palette r tr c o →
  context_output chunk palette r tr c o' → o = o'.
Proof.
  intros (i & e & res & Hi & He & Hres & ->) (i' & e' & res' & Hi' & He' & Hres' & ->).
  assert (i' = i) as -> by congruence. assert (e' = e) as -> by congruence.
  by rewrite (returns_inj _ _ _ Hres Hres').
Qed.

Lemma second_pass_done_step chunk palette r (tr : TranslateCallback) w0 w cs c w' :
  second_pass_done chunk palette r tr w0 w cs →
  returns (second_pass_step chunk palette r tr w c) w' →
  second_pass_done chunk palette r tr w0 w' (cs ++ [c]).
Proof.
  intros (Hnd & Hpre & Hkeys & Hbm & Hcs & Hfin).
  intros (i & e & res & Hi & He & Hres & ->)%second_pass_step_returns_iff.
  destruct (get_add_block_spec (finished w) res.1.1.1 Hnd)
    as (Hnd' & Hpre' & Hget & _ & Hsub).
  assert (Hout : context_output chunk palette r tr c res.1.1.1)
    by (by exists i, e, res).
  split; [done|]. split; [by etrans|]. split; [by apply dict_set_keys_NoDup|].
  simpl. split; [|split].
  - intros c' s [Hin| [= -> ->]]%elem_of_dict_set.
    + destruct (Hbm _ _ Hin) as (Hc' & o & Ho & Hs).
      split; [apply elem_of_app; by left|].
      exists o. split; [done|]. by apply (prefix_lookup_Some _ _ _ _ Hs).
    + split; [apply elem_of_app; right; by apply list_elem_of_singleton|].
      eauto.
  - intros c' [Hc'|Hc'%list_elem_of_singleton]%elem_of_app.
    + destruct (decide (c' = c)) as [->|Hne];
        [eexists; apply elem_of_dict_set_same|].
      destruct (Hcs _ Hc') as [s Hs]. exists s.
      by apply elem_of_dict_set_ne.
    + subst c'. eexists. apply elem_of_dict_set_same.
  - apply Forall_forall. intros o [Ho| ->]%Hsub.
    + rewrite Forall_forall in Hfin. destruct (Hfin _ Ho) as [?|(c' & ? & ?)];
        [by left|]. right. exists c'. split; [apply elem_of_app; by left|done].
    + right. exists c. split; [|done].
      apply elem_of_app. right. by apply list_elem_of_singleton.
Qed.

Lemma second_pass_returns_done chunk palette r (tr : TranslateCallback) w0 w :
  NoDup (finished w0) →
  block_mappings w0 = [] →
  returns (second_pass chunk palette r tr w0) w →
  second_pass_done chunk palette r tr w0 w (deferred_coordinates chunk w0).
Proof.
  intros Hnd Hbm Hret. unfold second_pass in Hret.
  apply foldM_nested_returns in Hret. revert Hret.
  apply (foldM_inv_prefix (λ cs w, second_pass_done chunk palette r tr w0 w cs)).
  - split; [done|]. split; [done|]. rewrite Hbm.
    split; [constructor|]. split; [by intros ?? ?%elem_of_nil|].
    split; [by intros ? ?%elem_of_nil|].
    apply Forall_forall. by left.
  - intros cs c w1 w2 _. apply second_pass_done_step.
Qed.

(** A coordinate holding a deferred slot ends in the slot of the output
    palette that holds the block translated for that very coordinate. *)
Lemma _translate_deferred_slot chunk palette r (tr : TranslateCallback)
    chunk' palette' x y z i e res0 :
  returns (_translate chunk palette r tr true) (chunk', palette') →
  getitem3 (blocks chunk) x y z = Some i →
  palette !! i = Some e →
  returns (tr e None) res0 →
  res0.2 && supplied r = true →
  ∃ res s,
    returns (tr e (Some (get_block_at chunk palette r
                           (Z.of_nat x) (Z.of_nat y) (Z.of_nat z)))) res ∧
    getitem3 (blocks chunk') x y z = Some s ∧
    palette' !! s = Some (entry_of_output res.1.1.1).
Proof.
  intros Hret Hcell Hi Hres0 Hflag.
  apply _translate_returns in Hret as (w1 & w2 & Hw1 & Hw2 & -> & ->).
  apply first_pass_returns_inv in Hw1
    as (Hnd & _ & Hbm & _ & _ & _ & Hslots & _).
  apply second_pass_returns_done in Hw2
    as (Hnd2 & Hpre & Hkeys & Hbm2 & Hcs & _); [|done..].
  destruct (Hslots i) as (e' & res' & He' & Hres' & Hcase);
    [by apply lookup_lt_Some in Hi|].
  assert (e' = e) as -> by congruence.
  rewrite (returns_inj _ _ _ Hres' Hres0), Hflag in Hcase.
  destruct Hcase as [Htodo _].
  destruct (Hcs (x, y, z)) as [s Hs].
  { apply list_elem_of_bind. exists i. split; [|done]. by apply elem_of_where_eq. }
  destruct (Hbm2 _ _ Hs) as (_ & o & (i' & e' & res & Hi' & He'' & Hres & ->) & Hfs).
  simpl in Hi', Hres. assert (i' = i) as -> by congruence.
  assert (e' = e) as -> by congruence.
  exists res, s. split; [done|]. split; [|by rewrite list_lookup_fmap, Hfs].
  simpl. unfold commit. apply getitem3_foldl_setitem3_key; [done..|].
  rewrite getitem3_foldl_mask, Hcell. by eexists.
Qed.

(** X7: in a call of [_translate] with [full_translate] true that returns,
    a grid coordinate whose slot was deferred (flag true, resolver
    supplied) references, after the commit, the slot of the output palette
    holding the block the wrapper returned for that coordinate with the
    neighbour lookup bound to it. *)
Theorem deferred_coordinate (chunk : Chunk) (palette : Palette)
    (r : option Resolver) (tr : TranslateCallback) (chunk' : Chunk)
    (palette' : Palette) (x y z i : nat) (e : PaletteEntry)
    (res0 : TranslateResult) :
  returns (_translate chunk palette r tr true) (chunk', palette') →
  getitem3 (blocks chunk) x y z = Some i →
  palette !! i = Some e →
  returns (tr e None) res0 →
  res0.2 && supplied r = true →
  ∃ res s,
    returns (tr e (Some (get_block_at chunk palette r
                           (Z.of_nat x) (Z.of_nat y) (Z.of_nat z)))) res ∧
    getitem3 (blocks chunk') x y z = Some s ∧
    palette' !! s = Some (entry_of_output res.1.1.1).
Proof. apply _translate_deferred_slot. Qed.

Lemma deferred_coordinate_witness :
  ∃ res s,
    returns (to_universal_translate Examples.fence_version (PBlock Examples.fence)
               (Some (get_block_at Examples.fence_chunk Examples.fence_palette
                        (Some Examples.east_is_stone)
                        (Z.of_nat 14) (Z.of_nat 0) (Z.of_nat 0)))) res ∧
    getitem3 (blocks Examples.fenced_chunk) 14 0 0 = Some s ∧
    Examples.fenced_palette !! s = Some (entry_of_output res.1.1.1).
Proof.
  apply (deferred_coordinate Examples.fence_chunk Examples.fence_palette
           (Some Examples.east_is_stone)
           (to_universal_translate Examples.fence_version)
           Examples.fenced_chunk Examples.fenced_palette 14 0 0 1
           (PBlock Examples.fence) (Some Examples.lone_fence, None, [], true)).
  - vm_compute. reflexivity.
  - reflexivity.
  - reflexivity.
  - vm_compute. reflexivity.
  - reflexivity.
Defined.

(** X8: a call of [_translate] with [full_translate] true that returns
    keeps the grid's extent (a coordinate is in the grid after the call
    exactly when it was before), and every coordinate whose index was within
    the input palette holds an index within the output palette. *)
Theorem translated_grid_in_range (chunk : Chunk) (palette : Palette)
    (r : option Resolver) (tr : TranslateCallback) (chunk' : Chunk)
    (palette' : Palette) :
  returns (_translate chunk palette r tr true) (chunk', palette') →
  (∀ x y z, is_Some (getitem3 (blocks chunk') x y z) ↔
            is_Some (getitem3 (blocks chunk) x y z)) ∧
  (∀ x y z i, getitem3 (blocks chunk) x y z = Some i → i < length palette →
     ∃ s, getitem3 (blocks chunk') x y z = Some s ∧ s < length palette').
Proof.
  intros Hret. split.
  - pose proof Hret as Hret'.
    apply _translate_returns in Hret' as (w1 & w2 & _ & _ & -> & _).
    intros x y z. simpl. apply commit_is_Some.
  - intros x y z i Hcell [e He]%lookup_lt_is_Some.
    pose proof Hret as Hret'.
    apply _translate_returns in Hret' as (w1 & w2 & Hw1 & _ & _ & _).
    apply first_pass_returns_inv in Hw1 as (_ & _ & _ & _ & _ & _ & Hslots & _).
    destruct (Hslots i) as (e' & res & He' & Hres & _);
      [by apply lookup_lt_Some in He|].
    assert (e' = e) as -> by congruence.
    destruct (res.2 && supplied r) eqn:Hflag.
    + destruct (_translate_deferred_slot _ _ _ _ _ _ _ _ _ _ _ _
                  Hret Hcell He Hres Hflag) as (res' & s & _ & Hs & Hp).
      exists s. split; [done|]. by apply lookup_lt_Some in Hp.
    + destruct (_translate_accepted_slot _ _ _ _ _ _ _ _ _ Hret He
                  (conj Hres Hflag)) as (s & Hp & _ & Hs).
      exists s. split; [by apply Hs|]. by apply lookup_lt_Some in Hp.
Qed.

Lemma translated_grid_in_range_witness :
  (∀ x y z, is_Some (getitem3 (blocks Examples.fenced_chunk) x y z) ↔
            is_Some (getitem3 (blocks Examples.fence_chunk) x y z)) ∧
  (∀ x y z i, getitem3 (blocks Examples.fence_chunk) x y z = Some i →
     i < length Examples.fence_palette →
     ∃ s, getitem3 (blocks Examples.fenced_chunk) x y z = Some s ∧
          s < length Examples.fenced_palette).
Proof.
  apply (translated_grid_in_range Examples.fence_chunk Examples.fence_palette
           (Some Examples.east_is_stone)
           (to_universal_translate Examples.fence_version)).
  vm_compute. reflexivity.
Defined.

(** X9: every entry of the palette a full [_translate] call returns is an
    output of the wrapper: either the context-free output of an accepted
    input slot, or the output translated for a deferred coordinate with its
    neighbour lookup.  No input entry is carried over untranslated. *)
Theorem output_palette_provenance (chunk : Chunk) (palette : Palette)
    (r : option Resolver) (tr : TranslateCallback) (chunk' : Chunk)
    (palette' : Palette) (p : PaletteEntry) :
  returns (_translate chunk palette r tr true) (chunk', palette') →
  p ∈ palette' →
  (∃ e res, e ∈ palette ∧ accepted tr r e res ∧ p = entry_of_output res.1.1.1) ∨
  (∃ c o, is_Some (getitem3 (blocks chunk) c.1.1 c.1.2 c.2) ∧
          context_output chunk palette r tr c o ∧ p = entry_of_output o).
Proof.
  intros Hret Hp.
  apply _translate_returns in Hret as (w1 & w2 & Hw1 & Hw2 & _ & ->).
  apply first_pass_returns_inv in Hw1
    as (Hnd & _ & Hbm & _ & _ & _ & _ & Hfin).
  apply second_pass_returns_done in Hw2 as (_ & _ & _ & _ & _ & Hfin2); [|done..].
  apply list_elem_of_fmap in Hp as (o & -> & Ho).
  rewrite Forall_forall in Hfin2. destruct (Hfin2 _ Ho) as [Ho1|(c & _ & Hc)].
  - left. rewrite Forall_forall in Hfin.
    destruct (Hfin _ Ho1) as (e & res & ? & ? & ->). eauto.
  - right. exists c, o. split; [|done].
    destruct Hc as (i & ? & ? & Hi & _). by eexists.
Qed.

Lemma output_palette_provenance_witness :
  (∃ e res, e ∈ Examples.fence_palette ∧
            accepted (to_universal_translate Examples.fence_version)
                     (Some Examples.east_is_stone) e res ∧
            PBlock Examples.joined_fence = entry_of_output res.1.1.1) ∨
  (∃ c o, is_Some (getitem3 (blocks Examples.fence_chunk) c.1.1 c.1.2 c.2) ∧
          context_output Examples.fence_chunk Examples.fence_palette
            (Some Examples.east_is_stone)
            (to_universal_translate Examples.fence_version) c o ∧
          PBlock Examples.joined_fence = entry_of_output o).
Proof.
  apply (output_palette_provenance Examples.fence_chunk Examples.fence_palette
           (Some Examples.east_is_stone)
           (to_universal_translate Examples.fence_version)
           Examples.fenced_chunk Examples.fenced_palette).
  - vm_compute. reflexivity.
  - apply list_elem_of_In. simpl. tauto.
Defined.

(** ** The rebuilt block-entity list *)

Lemma first_pass_block_entities chunk palette r (tr : TranslateCallback) w :
  returns (first_pass chunk palette r tr) w →
  ∀ be, be ∈ output_block_entities w ↔
    ∃ i e res c companion,
      palette !! i = Some e ∧
      returns (tr e None) res ∧
      res.2 && supplied r = false ∧
      res.1.1.2 = Some companion ∧
      getitem3 (blocks chunk) c.1.1 c.1.2 c.2 = Some i ∧
      be = place chunk companion c.
Proof.
  intros Hret.
  assert (Hpre : ∀ be, be ∈ output_block_entities w ↔
    ∃ i e res c companion,
      (i, e) ∈ enumerate palette ∧
      returns (tr e None) res ∧
      res.2 && supplied r = false ∧
      res.1.1.2 = Some companion ∧
      c ∈ where_eq (blocks chunk) i ∧
      be = place chunk companion c).
  { revert Hret. unfold first_pass.
    apply (foldM_inv_prefix (λ pre w, ∀ be, be ∈ output_block_entities w ↔
      ∃ i e res c companion,
        (i, e) ∈ pre ∧
        returns (tr e None) res ∧
        res.2 && supplied r = false ∧
        res.1.1.2 = Some companion ∧
        c ∈ where_eq (blocks chunk) i ∧
        be = place chunk companion c)).
    - intros be. split; [by intros ?%elem_of_nil|].
      by intros (? & ? & ? & ? & ? & ?%elem_of_nil & _).
    - intros pre [i e] w1 w2 _ IH (res & Hres & ->)%first_pass_step_returns be.
      destruct (res.2 && supplied r) eqn:Hdefer; cbn [output_block_entities].
      + rewrite IH. split.
        * intros (i' & e' & res' & c & comp & Hin & Hrest).
          exists i', e', res', c, comp. split; [|done].
          apply elem_of_app. by left.
        * intros (i' & e' & res' & c & comp
                  & [Hin|Hin%list_elem_of_singleton]%elem_of_app
                  & Hres' & Hacc & Hrest).
          { exists i', e', res', c, comp. done. }
          injection Hin as -> ->.
          rewrite (returns_inj _ _ _ Hres' Hres) in Hacc. congruence.
      + rewrite elem_of_app, IH. split.
        * intros [(i' & e' & res' & c & comp & Hin & Hrest)|Hnew].
          { exists i', e', res', c, comp. split; [|done].
            apply elem_of_app. by left. }
          destruct res.1.1.2 as [comp|] eqn:Hcomp; [|by apply elem_of_nil in Hnew].
          apply list_elem_of_fmap in Hnew as (c & -> & Hc).
          exists i, e, res, c, comp. split; [|done].
          apply elem_of_app. right. by apply list_elem_of_singleton.
        * intros (i' & e' & res' & c & comp
                  & [Hin|Hin%list_elem_of_singleton]%elem_of_app
                  & Hres' & Hacc & Hcomp & Hc & ->).
          { left. exists i', e', res', c, comp. done. }
          injection Hin as -> ->. right.
          rewrite (returns_inj _ _ _ Hres' Hres) in Hcomp. rewrite Hcomp.
          apply list_elem_of_fmap. by exists c. }
  intros be. rewrite Hpre. split.
  - intros (i & e & res & [[x y] z] & comp & Hin%elem_of_enumerate_from & ? & ? & ?
            & Hc%elem_of_where_eq & ->).
    destruct Hin as [_ Hin]. rewrite Nat.sub_0_r in Hin.
    exists i, e, res, (x, y, z), comp. done.
  - intros (i & e & res & [[x y] z] & comp & Hin & ? & ? & ? & Hc & ->).
    exists i, e, res, (x, y, z), comp. split.
    { apply elem_of_enumerate_from. rewrite Nat.sub_0_r. split; [lia|done]. }
    split; [done|]. split; [done|]. split; [done|].
    split; [by apply elem_of_where_eq|done].
Qed.

Lemma second_pass_block_entities chunk palette r (tr : TranslateCallback) w0 w :
  returns (second_pass chunk palette r tr w0) w →
  ∀ be, be ∈ output_block_entities w ↔
    be ∈ output_block_entities w0 ∨
    ∃ c i e res companion,
      c ∈ deferred_coordinates chunk w0 ∧
      getitem3 (blocks chunk) c.1.1 c.1.2 c.2 = Some i ∧
      palette !! i = Some e ∧
      returns (tr e (Some (get_block_at chunk palette r
                             (Z.of_nat c.1.1) (Z.of_nat c.1.2) (Z.of_nat c.2))))
              res ∧
      res.1.1.2 = Some companion ∧
      be = place chunk companion c.
Proof.
  intros Hret. unfold second_pass in Hret.
  apply foldM_nested_returns in Hret. revert Hret.
  apply (foldM_inv_prefix (λ pre w, ∀ be, be ∈ output_block_entities w ↔
    be ∈ output_block_entities w0 ∨
    ∃ c i e res companion,
      c ∈ pre ∧
      getitem3 (blocks chunk) c.1.1 c.1.2 c.2 = Some i ∧
      palette !! i = Some e ∧
      returns (tr e (Some (get_block_at chunk palette r
                             (Z.of_nat c.1.1) (Z.of_nat c.1.2) (Z.of_nat c.2))))
              res ∧
      res.1.1.2 = Some companion ∧
      be = place chunk companion c)).
  - intros be. split; [by left|]. intros [?|(? & ? & ? & ? & ? & ?%elem_of_nil & _)]; done.
  - intros pre c w1 w2 _ IH
      (i & e & res & Hi & He & Hres & ->)%second_pass_step_returns_iff be.
    cbn [output_block_entities]. rewrite elem_of_app, IH. split.
    + intros [[Hold|(c' & i' & e' & res' & comp & Hin & Hrest)]|Hnew].
      * by left.
      * right. exists c', i', e', res', comp. split; [|done].
        apply elem_of_app. by left.
      * destruct res.1.1.2 as [comp|] eqn:Hcomp; [|by apply elem_of_nil in Hnew].
        apply list_elem_of_singleton in Hnew as ->.
        right. exists c, i, e, res, comp. split; [|done].
        apply elem_of_app. right. by apply list_elem_of_singleton.
    + intros [Hold|(c' & i' & e' & res' & comp
                    & [Hin|Hin%list_elem_of_singleton]%elem_of_app
                    & Hi' & He' & Hres' & Hcomp & ->)].
      * left. by left.
      * left. right. exists c', i', e', res', comp. done.
      * subst c'. right.
        assert (i' = i) as -> by congruence.
        assert (e' = e) as -> by congruence.
        rewrite (returns_inj _ _ _ Hres' Hres) in Hcomp. rewrite Hcomp.
        by apply list_elem_of_singleton.
Qed.

(** X10: the block-entity list a full [_translate] call returns is built
    from scratch and holds exactly the companions of the chunk's cells: a
    block entity is in it if and only if it is the companion the wrapper
    returned for the palette entry of some cell [(x, y, z)] (with the
    neighbour lookup bound to that cell when the entry's slot was deferred,
    without a lookup otherwise), moved to that cell's absolute position
    [(x + cx*16, y, z + cz*16)].  The block entities the chunk came with
    are not carried over: when no cell has a companion, the list comes back
    empty. *)
Theorem rebuilt_block_entities (chunk : Chunk) (palette : Palette)
    (r : option Resolver) (tr : TranslateCallback) (chunk' : Chunk)
    (palette' : Palette) :
  returns (_translate chunk palette r tr true) (chunk', palette') →
  (∀ be, be ∈ block_entities chunk' ↔
     ∃ x y z companion,
       cell_companion chunk palette r tr (x, y, z) companion ∧
       be = new_at_location companion
              (Z.of_nat x + cx chunk * 16)%Z (Z.of_nat y)
              (Z.of_nat z + cz chunk * 16)%Z) ∧
  ((∀ c companion, ¬ cell_companion chunk palette r tr c companion) →
   block_entities chunk' = []).
Proof.
  intros Hret.
  apply _translate_returns in Hret as (w1 & w2 & Hw1 & Hw2 & -> & _).
  cbn [block_entities set_block_entities].
  pose proof (first_pass_block_entities _ _ _ _ _ Hw1) as Hfirst.
  pose proof (second_pass_block_entities _ _ _ _ _ _ Hw2) as Hsecond.
  pose proof (first_pass_returns_inv _ _ _ _ _ Hw1)
    as (_ & _ & _ & _ & _ & Htodo & Hslots & _).
  rewrite Forall_forall in Htodo.
  assert (Hiff : ∀ be, be ∈ output_block_entities w2 ↔
     ∃ x y z companion,
       cell_companion chunk palette r tr (x, y, z) companion ∧
       be = new_at_location companion
              (Z.of_nat x + cx chunk * 16)%Z (Z.of_nat y)
              (Z.of_nat z + cz chunk * 16)%Z).
  { intros be. rewrite Hsecond, Hfirst. split.
    - intros [(i & e & res & [[x y] z] & comp & He & Hres & Hacc & Hcomp & Hc & ->)
             |([[x y] z] & i & e & res & comp & Hin & Hc & He & Hres & Hcomp & ->)].
      + exists x, y, z, comp. split; [|done].
        exists i, e, res. split; [done|]. split; [done|]. split; [done|].
        by rewrite Hacc.
      + exists x, y, z, comp. split; [|done].
        apply list_elem_of_bind in Hin as (idx & Hidx%elem_of_where_eq & Htd).
        assert (idx = i) as -> by (simpl in *; congruence).
        destruct (Hslots i (Htodo _ Htd)) as (e0 & res0 & He0 & Hres0 & Hcase).
        assert (e0 = e) as -> by congruence.
        exists i, e, res0. split; [done|]. split; [done|]. split; [done|].
        destruct (res0.2 && supplied r); [by exists res|].
        by destruct Hcase.
    - intros (x & y & z & comp & (i & e & res0 & Hc & He & Hres0 & Hcase) & ->).
      destruct (Hslots i) as (e0 & res0' & He0 & Hres0' & Htd);
        [by apply lookup_lt_Some in He|].
      assert (e0 = e) as -> by congruence.
      rewrite (returns_inj _ _ _ Hres0' Hres0) in Htd.
      destruct (res0.2 && supplied r) eqn:Hdefer.
      + destruct Hcase as (res & Hres & Hcomp). destruct Htd as [Htd _].
        right. exists (x, y, z), i, e, res, comp.
        split; [|done].
        apply list_elem_of_bind. exists i. split; [|done].
        by apply elem_of_where_eq.
      + left. exists i, e, res0, (x, y, z), comp. done. }
  split; [exact Hiff|].
  intros Hnone. destruct (output_block_entities w2) as [|be bes]; [done|].
  destruct (proj1 (Hiff be)) as (x & y & z & comp & Hcell & _);
    [by left|].
  by destruct (Hnone _ _ Hcell).
Qed.

Lemma rebuilt_block_entities_witness :
  mkBlockEntity (Some "universal_minecraft") "water" 33 0 81 "{}"
    ∈ block_entities Examples.furnished_chunk ∧
  (∀ be, be ∈ block_entities Examples.pond_chunk →
         be ∉ block_entities Examples.furnished_chunk).
Proof.
  destruct (rebuilt_block_entities Examples.pond_chunk Examples.pond_palette
              (Some Examples.east_is_stone)
              (to_universal_translate Examples.sample_version)
              Examples.furnished_chunk Examples.furnished_palette)
    as [Hiff _]; [vm_compute; reflexivity|].
  split.
  - apply Hiff. exists 1, 0, 1, Examples.water_entity. split; [|reflexivity].
    exists 2, (PBlock Examples.water),
           (Some Examples.universal_water, Some Examples.water_entity, [], true).
    split; [reflexivity|]. split; [reflexivity|]. split; [reflexivity|].
    cbn [snd supplied andb]. eexists. split; [reflexivity|reflexivity].
  - intros be Hbe Hout. apply list_elem_of_In in Hbe, Hout. simpl in Hbe, Hout.
    destruct Hbe as [<-|[]]. by destruct Hout as [?|[?|[?|[]]]].
Defined.

(** ** The calls a translation makes *)

Lemma foldM_trace {A S} (f : S → A → M S) (t : A → list Event)
    (l : list A) (s s' : S) :
  (∀ s a s1, a ∈ l → returns (f s a) s1 → trace (f s a) = t a) →
  returns (foldM f l s) s' → trace (foldM f l s) = l ≫= t.
Proof.
  revert s. induction l as [|a l IH]; intros s Ht; [done|].
  intros (s1 & Hf & Hrest)%foldM_cons. cbn [foldM].
  rewrite trace_bind, Hf, bind_cons. f_equal.
  - eapply Ht; [left|done].
  - apply IH; [|done]. intros. eapply Ht; [by right|done].
Qed.

Lemma first_pass_step_trace chunk r (tr : TranslateCallback) w slot w' :
  returns (first_pass_step chunk r tr w slot) w' →
  trace (first_pass_step chunk r tr w slot) = trace (tr slot.2 None).
Proof.
  unfold first_pass_step.
  intros ([[[ob obe] oents] extra] & Hres & _)%returns_bind.
  rewrite trace_bind, Hres. destruct (extra && supplied r); apply app_nil_r.
Qed.

Lemma enumerate_from_bind {A B} (f : A → list B) (l : list A) n :
  enumerate_from n l ≫= (λ slot, f slot.2) = l ≫= f.
Proof.
  revert n. induction l as [|a l IH]; intros n; [done|].
  cbn [enumerate_from]. by rewrite !bind_cons, IH.
Qed.

Lemma first_pass_trace chunk palette r (tr : TranslateCallback) w :
  returns (first_pass chunk palette r tr) w →
  trace (first_pass chunk palette r tr) = palette ≫= λ e, trace (tr e None).
Proof.
  intros Hret. unfold first_pass, enumerate in *.
  rewrite (foldM_trace _ (λ slot, trace (tr slot.2 None)) _ _ w).
  - apply (enumerate_from_bind (λ e, trace (tr e None))).
  - intros s a s1 _. apply first_pass_step_trace.
  - done.
Qed.

Lemma second_pass_step_trace chunk palette r (tr : TranslateCallback) w c w' :
  returns (second_pass_step chunk palette r tr w c) w' →
  trace (second_pass_step chunk palette r tr w c)
    = context_trace chunk palette r tr c.
Proof.
  intros Hret. pose proof Hret as
    (i & e & res & Hi & He & Hres & _)%second_pass_step_returns_iff.
  unfold second_pass_step, context_trace. rewrite Hi.
  cbn [lift_index mbind option_bind]. rewrite mret_bind, He.
  cbn [lift_index]. rewrite mret_bind.
  rewrite trace_bind, Hres. by destruct res as [[[??]?]?]; rewrite app_nil_r.
Qed.

Lemma list_bind_bind {A B C} (f : A → list B) (g : B → list C) (l : list A) :
  (l ≫= f) ≫= g = l ≫= λ a, f a ≫= g.
Proof.
  induction l as [|a l IH]; [done|]. by rewrite !bind_cons, bind_app, IH.
Qed.

Lemma second_pass_trace chunk palette r (tr : TranslateCallback) w0 w :
  returns (second_pass chunk palette r tr w0) w →
  trace (second_pass chunk palette r tr w0)
    = deferred_coordinates chunk w0 ≫= context_trace chunk palette r tr.
Proof.
  intros Hret. unfold second_pass, deferred_coordinates in *.
  rewrite list_bind_bind.
  apply (foldM_trace _ (λ index, where_eq (blocks chunk) index
                                   ≫= context_trace chunk palette r tr)
                     _ _ w); [|done].
  intros s index s1 _ Hinner. apply (foldM_trace _ _ _ _ s1); [|done].
  intros s2 c s3 _. apply second_pass_step_trace.
Qed.

(** X11: a full [_translate] call that returns has called the wrapper once
    for every palette slot, in palette order and without a neighbour lookup,
    and then once for every grid coordinate holding a deferred slot, with
    the lookup bound to that coordinate; it made no other call.  Without a
    resolver nothing is deferred, so the calls do not depend on the grid. *)
Theorem translate_calls (chunk : Chunk) (palette : Palette)
    (r : option Resolver) (tr : TranslateCallback) (chunk' : Chunk)
    (palette' : Palette) :
  returns (_translate chunk palette r tr true) (chunk', palette') →
  ∃ w,
    returns (first_pass chunk palette r tr) w ∧
    trace (_translate chunk palette r tr true)
      = (palette ≫= λ e, trace (tr e None)) ++
        (deferred_coordinates chunk w ≫= context_trace chunk palette r tr) ∧
    (supplied r = false → deferred_coordinates chunk w = []).
Proof.
  intros Hret.
  apply _translate_returns in Hret as (w1 & w2 & Hw1 & Hw2 & _ & _).
  exists w1. split; [done|]. split.
  - unfold _translate. cbn [negb]. rewrite trace_bind, Hw1.
    rewrite (first_pass_trace _ _ _ _ _ Hw1). f_equal.
    rewrite trace_bind, Hw2, (second_pass_trace _ _ _ _ _ _ Hw2).
    apply app_nil_r.
  - intros Hnone.
    apply first_pass_returns_inv in Hw1 as (_ & _ & _ & _ & _ & Htodo & Hslots & _).
    unfold deferred_coordinates.
    destruct (todo w1) as [|i t] eqn:Ht; [done|exfalso].
    apply Forall_cons in Htodo as [Hi _].
    destruct (Hslots i Hi) as (e & res & _ & _ & Hcase).
    rewrite Hnone, andb_false_r in Hcase. destruct Hcase as [Hnin _].
    apply Hnin. left.
Qed.

Lemma translate_calls_witness :
  ∃ w,
    returns (first_pass Examples.fence_chunk Examples.fence_palette
               (Some Examples.east_is_stone)
               (to_universal_translate Examples.fence_version)) w ∧
    trace (_translate Examples.fence_chunk Examples.fence_palette
             (Some Examples.east_is_stone)
             (to_universal_translate Examples.fence_version) true)
      = (Examples.fence_palette ≫= λ e,
           trace (to_universal_translate Examples.fence_version e None)) ++
        (deferred_coordinates Examples.fence_chunk w ≫=
           context_trace Examples.fence_chunk Examples.fence_palette
             (Some Examples.east_is_stone)
             (to_universal_translate Examples.fence_version)) ∧
    (supplied (Some Examples.east_is_stone) = false →
     deferred_coordinates Examples.fence_chunk w = []).
Proof.
  apply (translate_calls Examples.fence_chunk Examples.fence_palette
           (Some Examples.east_is_stone)
           (to_universal_translate Examples.fence_version)
           Examples.fenced_chunk Examples.fenced_palette).
  vm_compute. reflexivity.
Defined.

(** ** Exceptions *)

(** X12: an exception of the wrapper on any palette slot in the
    context-free pass aborts a full [_translate] call, whether or not a grid
    cell uses that slot. *)
Theorem context_free_failure_aborts (chunk : Chunk) (palette : Palette)
    (r : option Resolver) (tr : TranslateCallback) (e : PaletteEntry) :
  e ∈ palette → fails (tr e None) →
  fails (_translate chunk palette r tr true).
Proof.
  intros Hin Hfail. unfold _translate. cbn [negb].
  apply fails_bind. by apply (first_pass_fails _ _ _ _ e).
Qed.

Lemma context_free_failure_aborts_witness :
  fails (_translate (set_blocks Examples.sample_chunk [])
           [PBlock Examples.stone; PEntity Examples.frame] None
           (to_universal_translate Examples.sample_version) true).
Proof.
  apply (context_free_failure_aborts (set_blocks Examples.sample_chunk [])
           [PBlock Examples.stone; PEntity Examples.frame] None
           (to_universal_translate Examples.sample_version)
           (PEntity Examples.frame)).
  - apply list_elem_of_In. simpl. tauto.
  - by exists NotImplementedError.
Defined.

(** X13: an exception during the context-aware translation of one
    coordinate, such as a neighbour resolver that cannot supply the chunk
    the rule asks for, aborts the whole [_translate] call. *)
Theorem context_failure_aborts (chunk : Chunk) (palette : Palette)
    (r : option Resolver) (tr : TranslateCallback) (w : Work)
    (x y z i : nat) (e : PaletteEntry) :
  returns (first_pass chunk palette r tr) w →
  i ∈ todo w →
  getitem3 (blocks chunk) x y z = Some i →
  palette !! i = Some e →
  fails (tr e (Some (get_block_at chunk palette r
                       (Z.of_nat x) (Z.of_nat y) (Z.of_nat z)))) →
  fails (_translate chunk palette r tr true).
Proof.
  intros Hw Hi Hcell He Hfail. unfold _translate. cbn [negb].
  eapply returns_then_fails; [exact Hw|]. apply fails_bind.
  unfold second_pass. apply (foldM_fails _ _ i); [done|]. intros w1.
  apply (foldM_fails _ _ (x, y, z)); [by apply elem_of_where_eq|]. intros w2.
  unfold second_pass_step. simpl. rewrite Hcell.
  eapply returns_then_fails; [done|]. rewrite He.
  eapply returns_then_fails; [done|]. by apply fails_bind.
Qed.

Lemma context_failure_aborts_witness :
  fails (_translate Examples.fence_chunk Examples.fence_palette
           (Some Examples.east_is_missing)
           (to_universal_translate Examples.fence_version) true).
Proof.
  apply (context_failure_aborts Examples.fence_chunk Examples.fence_palette
           (Some Examples.east_is_missing)
           (to_universal_translate Examples.fence_version)
           (mkWork [1] [] [Some Examples.universal_stone] [(0, 0)] [])
           15 0 0 1 (PBlock Examples.fence)).
  - vm_compute. reflexivity.
  - apply list_elem_of_In. simpl. tauto.
  - reflexivity.
  - reflexivity.
  - exists (OtherError "chunk not loaded"). vm_compute. reflexivity.
Defined.

(** ** Probing above and below the chunk *)

Lemma np_index_nonneg {A} (l : list A) (i : Z) :
  (0 ≤ i)%Z → np_index l i = l !! Z.to_nat i.
Proof.
  intros Hi. unfold np_index.
  destruct (Z.ltb_spec i 0); [lia|]. destruct (Z.ltb_spec i 0); [lia|done].
Qed.

Lemma np_index_neg {A} (l : list A) (i : Z) :
  (i < 0)%Z →
  np_index l i = if decide (- Z.of_nat (length l) ≤ i)%Z
                 then l !! Z.to_nat (i + Z.of_nat (length l)) else None.
Proof.
  intros Hi. unfold np_index. destruct (Z.ltb_spec i 0); [|lia].
  destruct (Z.ltb_spec (i + Z.of_nat (length l)) 0), (decide _); try done; lia.
Qed.

Lemma np_index_wrap {A} (l : list A) (i : Z) :
  (- Z.of_nat (length l) ≤ i < 0)%Z →
  np_index l i = np_index l (i + Z.of_nat (length l)).
Proof.
  intros Hi. rewrite np_index_neg by lia. rewrite decide_True by lia.
  by rewrite np_index_nonneg by lia.
Qed.

Lemma np_index_is_Some {A} (l : list A) (i : Z) :
  is_Some (np_index l i) ↔ (- Z.of_nat (length l) ≤ i < Z.of_nat (length l))%Z.
Proof.
  destruct (Z.lt_ge_cases i 0) as [Hneg|Hpos].
  - rewrite np_index_neg by done. destruct (decide _) as [Hle|Hgt].
    + rewrite lookup_lt_is_Some. lia.
    + split; [by intros [??]|lia].
  - rewrite np_index_nonneg by done. rewrite lookup_lt_is_Some. lia.
Qed.

(** X14: on a grid of 16 x h x 16 cells the horizontal subscripts
    [dx % 16] and [dz % 16] of a neighbour probe are always in range; the
    vertical one is handed to numpy as it is.  So a probe at or above the
    height, or below [-h], raises [IndexError], while a probe at a height in
    [-h, 0), that is below the bottom of the column, does not fail: it wraps
    around and reads the cell [h] higher. *)
Theorem probe_is_vertically_unchecked (c : Chunk) (p : Palette)
    (dx dy dz abs_x abs_y abs_z : Z) (h : nat) :
  well_shaped h (blocks c) →
  ((dy < - Z.of_nat h ∨ Z.of_nat h ≤ dy)%Z ↔
     np_getitem3 (blocks c) (dx `mod` 16) dy (dz `mod` 16) = None) ∧
  ((dy < - Z.of_nat h ∨ Z.of_nat h ≤ dy)%Z →
     outcome (block_in c p dx dy dz abs_x abs_y abs_z) = inl IndexError) ∧
  ((- Z.of_nat h ≤ dy < 0)%Z →
     block_in c p dx dy dz abs_x abs_y abs_z
       = block_in c p dx (dy + Z.of_nat h) dz abs_x abs_y abs_z).
Proof.
  intros [Hlen Hplanes].
  assert (Hx : (0 ≤ dx `mod` 16 < 16)%Z) by (apply Z.mod_pos_bound; lia).
  assert (Hz : (0 ≤ dz `mod` 16 < 16)%Z) by (apply Z.mod_pos_bound; lia).
  destruct (np_index (blocks c) (dx `mod` 16)) as [plane|] eqn:Hplane.
  2:{ assert (is_Some (np_index (blocks c) (dx `mod` 16))) as [? ?];
        [apply np_index_is_Some; lia|congruence]. }
  assert (Hin : plane ∈ blocks c).
  { rewrite np_index_nonneg in Hplane by lia.
    by apply list_elem_of_lookup_2 in Hplane. }
  rewrite Forall_forall in Hplanes. destruct (Hplanes _ Hin) as [Hh Hrows].
  assert (Hy : np_getitem3 (blocks c) (dx `mod` 16) dy (dz `mod` 16) = None ↔
               (dy < - Z.of_nat h ∨ Z.of_nat h ≤ dy)%Z).
  { unfold np_getitem3. rewrite Hplane. simpl.
    destruct (np_index plane dy) as [row|] eqn:Hrow; simpl.
    - assert (is_Some (np_index plane dy)) as Hs%np_index_is_Some by eauto.
      assert (row ∈ plane) as Hrin.
      { destruct (Z.lt_ge_cases dy 0).
        - rewrite np_index_neg, decide_True in Hrow by lia.
          by apply list_elem_of_lookup_2 in Hrow.
        - rewrite np_index_nonneg in Hrow by lia.
          by apply list_elem_of_lookup_2 in Hrow. }
      rewrite Forall_forall in Hrows. specialize (Hrows _ Hrin).
      assert (is_Some (np_index row (dz `mod` 16))) as [v Hv]
        by (apply np_index_is_Some; lia).
      rewrite Hv. split; [done|lia].
    - split; [|done]. intros _.
      destruct (decide (- Z.of_nat h ≤ dy < Z.of_nat h)%Z) as [Hin'|]; [|lia].
      assert (is_Some (np_index plane dy)) as [? ?];
        [apply np_index_is_Some; lia|congruence]. }
  split; [by symmetry|]. split.
  - intros Hout%Hy. unfold block_in. by rewrite Hout.
  - intros Hwrap. unfold block_in, np_getitem3. rewrite Hplane. simpl.
    rewrite <- Hh. by rewrite (np_index_wrap plane dy) by lia.
Qed.

Lemma probe_is_vertically_unchecked_witness :
  ((-1 < - Z.of_nat 2 ∨ Z.of_nat 2 ≤ -1)%Z ↔
     np_getitem3 (blocks Examples.slab_chunk) (3 `mod` 16) (-1) (20 `mod` 16)
       = None) ∧
  ((-1 < - Z.of_nat 2 ∨ Z.of_nat 2 ≤ -1)%Z →
     outcome (block_in Examples.slab_chunk Examples.slab_palette
                3 (-1) 20 3 (-1) 20) = inl IndexError) ∧
  ((- Z.of_nat 2 ≤ -1 < 0)%Z →
     block_in Examples.slab_chunk Examples.slab_palette 3 (-1) 20 3 (-1) 20
       = block_in Examples.slab_chunk Examples.slab_palette
           3 (-1 + Z.of_nat 2) 20 3 (-1) 20).
Proof.
  apply (probe_is_vertically_unchecked Examples.slab_chunk
           Examples.slab_palette 3 (-1) 20 3 (-1) 20 2).
  split; [reflexivity|]. simpl. repeat constructor.
Defined.

(** ** Block-entity names *)

Lemma map_M_pure {A B} (f : A → M B) (t : A → list Event) (g : A → B)
    (l : list A) :
  (∀ a, a ∈ l → f a = mkM (t a) (inr (g a))) →
  map_M f l = mkM (l ≫= t) (inr (g <$> l)).
Proof.
  induction l as [|a l IH]; intros Hf; [done|].
  cbn [map_M]. rewrite (Hf a) by left. rewrite IH by (intros; apply Hf; by right).
  unfold mbind at 1 2, M_bind. simpl. by rewrite app_nil_r.
Qed.

Lemma name_to_universal_eq version names bes :
  block_entity_map version = Some names →
  name_to_universal version bes
    = mkM (bes ≫= λ be,
             match be_namespace be, names !! be_base_name be with
             | None, Some _ => []
             | _, _ => [DebugLogged (NoPrettyName (namespaced_name be))]
             end)
          (inr (renamed_to_universal names <$> bes)).
Proof.
  intros Hmap. unfold name_to_universal. rewrite Hmap.
  apply map_M_pure. intros be _. unfold renamed_to_universal.
  by destruct (be_namespace be), (names !! be_base_name be).
Qed.



(** X16: renaming to universal names and back returns the block-entity
    list it started from, provided the inverse map sends every name the
    forward map gave back to the bare name it replaced, and has no entry for
    the name of a block entity the forward pass left alone. *)
Theorem name_round_trip (version : Version) (names : gmap string EntityName)
    (bes : list BlockEntity) :
  block_entity_map version = Some names →
  (∀ be, be ∈ bes →
     match be_namespace be, names !! be_base_name be with
     | None, Some n =>
         block_entity_map_inverse version !! n = Some (None, be_base_name be)
     | _, _ => block_entity_map_inverse version !! namespaced_name be = None
     end) →
  returns (name_to_universal version bes ≫= name_from_universal version) bes.
Proof.
  intros Hmap Hinv. rewrite (name_to_universal_eq _ _ _ Hmap).
  apply returns_bind. eexists. split; [done|].
  unfold name_from_universal. rewrite Hmap.
  rewrite (map_M_pure _
             (λ be, match block_entity_map_inverse version !! namespaced_name be with
                    | Some _ => []
                    | None => [DebugLogged (NoPrettyName (namespaced_name be))]
                    end)
             (λ be, match block_entity_map_inverse version !! namespaced_name be with
                    | Some n => set_namespaced_name be n
                    | None => be
                    end)).
  2:{ intros be _.
      by destruct (block_entity_map_inverse version !! namespaced_name be). }
  unfold returns. cbn [outcome]. f_equal.
  rewrite <- list_fmap_compose. rewrite <- (list_fmap_id bes) at 2.
  apply list_fmap_ext. intros i be Hi. apply list_elem_of_lookup_2 in Hi.
  specialize (Hinv be Hi). simpl. unfold renamed_to_universal.
  destruct be as [ns base x y z nbt]. simpl in *.
  destruct ns as [ns|]; [by rewrite Hinv|].
  destruct (names !! base) as [n|]; [|by rewrite Hinv].
  unfold namespaced_name, set_namespaced_name. simpl.
  destruct n as [ns' base']. simpl. by rewrite Hinv.
Qed.

Lemma name_round_trip_witness :
  returns (name_to_universal Examples.sample_version
             [Examples.bare_chest; Examples.bare_sign; Examples.named_chest]
           ≫= name_from_universal Examples.sample_version)
          [Examples.bare_chest; Examples.bare_sign; Examples.named_chest].
Proof.
  apply (name_round_trip Examples.sample_version
           {[ "Chest" := (Some "universal_minecraft", "chest") ]}).
  - reflexivity.
  - intros be Hbe. apply list_elem_of_In in Hbe. simpl in Hbe.
    destruct Hbe as [<-|[<-|[<-|[]]]]; vm_compute; reflexivity.
Defined.

(** ** The calls of the per-block wrapper *)

Lemma run_probe_None_returns {A} (p : Probe A) (a : A) :
  returns (run_probe None p) a → p = Return a.
Proof.
  destruct p; simpl; [by intros [= ->]|done..].
Qed.

Lemma translate_layer_trace __debug__ d version input acc n layer out :
  returns (run_probe None (block_rule d version layer false)) out →
  trace (translate_layer __debug__ d version input None acc (n, layer))
    = layer_events __debug__ d input layer out.
Proof.
  intros Hout%run_probe_None_returns. unfold translate_layer, layer_events.
  cbn [supplied snd fst]. rewrite Hout. cbn [run_probe].
  rewrite trace_bind. cbn [emit outcome trace]. rewrite mret_bind.
  cbn [app]. f_equal. rewrite trace_bind.
  destruct out as [[[b|e] obe] extra]; cbn [fst]; [|done].
  rewrite (check_namespace_returns __debug__ d input b), app_nil_r.
  unfold check_namespace.
  destruct d, __debug__, (String.prefix "universal" (namespace b)); done.
Qed.

Lemma translate_layers_trace __debug__ d version input layers outs n acc :
  Forall2 (λ layer out,
             returns (run_probe None (block_rule d version layer false)) out)
          layers outs →
  trace (foldM (translate_layer __debug__ d version input None)
               (enumerate_from n layers) acc)
    = mjoin (zip_with (layer_events __debug__ d input) layers outs).
Proof.
  intros Hall. revert n acc.
  induction Hall as [|layer out layers outs Hout Hall IH]; intros n acc; [done|].
  cbn [enumerate_from foldM zip_with mjoin list_join].
  rewrite trace_bind.
  assert (returns (translate_layer __debug__ d version input None acc (n, layer))
                  (merge_layer n out acc)) as ->.
  { apply translate_layer_returns. eauto. }
  by rewrite (translate_layer_trace _ _ _ _ _ _ _ _ Hout), IH.
Qed.

(** X17: when the rule answers every layer without a neighbour lookup, the
    wrapper of either direction calls it exactly once per layer of the
    block, base layer first and extra layers in their order.  After each
    call it logs at most one diagnostic: forward, when the output is a block
    whose namespace does not start with universal; backward, when the output
    is a block whose namespace does, and only if [__debug__] holds, so under
    python -O the backward wrapper logs nothing.  The test only logs: the
    wrapper returns whatever the namespaces are. *)
Theorem wrapper_calls (__debug__ : bool) (d : Direction) (version : Version)
    (b : Block) (outs : list RuleOutput) :
  Forall2 (λ layer out,
             returns (run_probe None (block_rule d version layer false)) out)
          (base_block b :: extra_blocks b) outs →
  trace (translate_for __debug__ d version (PBlock b) None)
    = mjoin (zip_with (layer_events __debug__ d b)
               (base_block b :: extra_blocks b) outs) ∧
  filter (λ ev, is_block_rule_call ev = true)
         (trace (translate_for __debug__ d version (PBlock b) None))
    = (λ layer, BlockRuleCalled d layer false)
        <$> (base_block b :: extra_blocks b) ∧
  (d = FromUniversal → __debug__ = false →
   trace (translate_for __debug__ d version (PBlock b) None)
     = (λ layer, BlockRuleCalled d layer false)
         <$> (base_block b :: extra_blocks b)) ∧
  ∃ res, returns (translate_for __debug__ d version (PBlock b) None) res.
Proof.
  intros Hall. rewrite translate_for_block.
  assert (Htrace : trace (translate_block __debug__ d version b None)
            = mjoin (zip_with (layer_events __debug__ d b)
                       (base_block b :: extra_blocks b) outs))
    by (by apply translate_layers_trace).
  split; [done|]. rewrite Htrace. clear Htrace. split; [|split].
  - induction Hall as [|layer out layers outs' Hout Hall IH]; [done|].
    cbn [zip_with fmap list_fmap].
    change (mjoin (?x :: ?xs)) with (x ++ mjoin xs).
    rewrite filter_app, IH.
    unfold layer_events at 1. rewrite filter_cons, decide_True by done.
    cbn [app]. f_equal.
    assert (filter (λ ev, is_block_rule_call ev = true)
              match out.1.1, d with
              | OutBlock b0, ToUniversal =>
                  if String.prefix "universal" (namespace b0) then []
                  else [DebugLogged (ErrorTranslatingToUniversal b b0)]
              | OutBlock b0, FromUniversal =>
                  if __debug__ && String.prefix "universal" (namespace b0)
                  then [DebugLogged (ErrorTranslatingFromUniversal b b0)]
                  else []
              | OutEntity _, _ => []
              end = []) as ->; [|done].
    destruct out.1.1 as [b0|], d; try done;
      by destruct __debug__, (String.prefix "universal" (namespace b0)).
  - intros -> ->.
    induction Hall as [|layer out layers outs' Hout Hall IH]; [done|].
    cbn [zip_with fmap list_fmap].
    change (mjoin (?x :: ?xs)) with (x ++ mjoin xs).
    rewrite IH. unfold layer_events. by destruct out.1.1.
  - eexists. by apply translate_block_returns.
Qed.

Lemma wrapper_calls_witness :
  trace (translate_for true FromUniversal Examples.sample_version
           (PBlock Examples.framed_chest) None)
    = [BlockRuleCalled FromUniversal (Examples.simple "minecraft" "chest") false;
       DebugLogged (ErrorTranslatingFromUniversal Examples.framed_chest
                      Examples.universal_chest);
       BlockRuleCalled FromUniversal (Examples.simple "minecraft" "water") false;
       DebugLogged (ErrorTranslatingFromUniversal Examples.framed_chest
                      Examples.universal_water);
       BlockRuleCalled FromUniversal (Examples.simple "minecraft" "item_frame") false] ∧
  trace (translate_for false FromUniversal Examples.sample_version
           (PBlock Examples.framed_chest) None)
    = [BlockRuleCalled FromUniversal (Examples.simple "minecraft" "chest") false;
       BlockRuleCalled FromUniversal (Examples.simple "minecraft" "water") false;
       BlockRuleCalled FromUniversal (Examples.simple "minecraft" "item_frame") false].
Proof.
  split.
  - destruct (wrapper_calls true FromUniversal Examples.sample_version
                Examples.framed_chest Examples.framed_chest_outputs)
      as (Htrace & _); [repeat constructor|].
    exact Htrace.
  - destruct (wrapper_calls false FromUniversal Examples.sample_version
                Examples.framed_chest Examples.framed_chest_outputs)
      as (_ & _ & Hquiet & _); [repeat constructor|].
    exact (Hquiet eq_refl eq_refl).
Defined.

(** ** The two operations and the rest of the chunk *)

Lemma to_universal_frame version chunk palette r deep c1 p1 :
  returns (to_universal version chunk palette r deep) (c1, p1) →
  data (biomes c1) = biome_to_universal version <$> data (biomes chunk) ∧
  (cx c1, cz c1) = (cx chunk, cz chunk) ∧
  entities c1 = entities chunk.
Proof.
  intros (named & _ & Hret)%to_universal_returns.
  apply _translate_frame in Hret as (-> & -> & -> & ->). done.
Qed.

Lemma from_universal_frame __debug__ version chunk palette r deep c2 p2 :
  returns (from_universal __debug__ version chunk palette r deep) (c2, p2) →
  data (biomes c2) = biome_from_universal version <$> data (biomes chunk) ∧
  (cx c2, cz c2) = (cx chunk, cz chunk) ∧
  entities c2 = entities chunk.
Proof.
  intros (c1 & named & Hret & _ & ->)%from_universal_returns.
  apply _translate_frame in Hret as (-> & -> & -> & ->). done.
Qed.

(** X18: whatever [full_translate] is and whatever the biome rules are, a
    [to_universal] call that returns gives back the chunk at the same chunk
    coordinates, with its entity list, and with every biome code, cell by
    cell in flattened order, sent through the version's forward biome rule;
    a [from_universal] call that returns does the same with the backward
    rule.  So when the backward rule of the target version inverts the
    forward rule of the source version on the codes present, a chunk taken
    to universal and back has the biome codes, chunk coordinates and entity
    list it started with. *)
Theorem universal_and_back_biomes (__debug__ : bool) (v1 v2 : Version)
    (chunk : Chunk) (palette : Palette) (r1 r2 : option Resolver)
    (deep1 deep2 : bool) :
  (∀ c1 p1,
     returns (to_universal v1 chunk palette r1 deep1) (c1, p1) →
     data (biomes c1) = biome_to_universal v1 <$> data (biomes chunk) ∧
     (cx c1, cz c1) = (cx chunk, cz chunk) ∧
     entities c1 = entities chunk) ∧
  (∀ c2 p2,
     returns (from_universal __debug__ v2 chunk palette r2 deep2) (c2, p2) →
     data (biomes c2) = biome_from_universal v2 <$> data (biomes chunk) ∧
     (cx c2, cz c2) = (cx chunk, cz chunk) ∧
     entities c2 = entities chunk) ∧
  (∀ c1 p1 c2 p2,
     (∀ code, code ∈ data (biomes chunk) →
              biome_from_universal v2 (biome_to_universal v1 code) = code) →
     returns (to_universal v1 chunk palette r1 deep1) (c1, p1) →
     returns (from_universal __debug__ v2 c1 p1 r2 deep2) (c2, p2) →
     data (biomes c2) = data (biomes chunk) ∧
     (cx c2, cz c2) = (cx chunk, cz chunk) ∧
     entities c2 = entities chunk).
Proof.
  split; [intros c1 p1; apply to_universal_frame|].
  split; [intros c2 p2; apply from_universal_frame|].
  intros c1 p1 c2 p2 Hinv (Hb1 & Hc1 & He1)%to_universal_frame
         (Hb2 & Hc2 & He2)%from_universal_frame.
  rewrite Hc2, Hc1, He2, He1. split; [|done].
  rewrite Hb2, Hb1, <- list_fmap_compose.
  rewrite <- (list_fmap_id (data (biomes chunk))) at 2.
  apply list_fmap_ext. intros i code Hcode. apply Hinv.
  by apply list_elem_of_lookup_2 in Hcode.
Qed.

Lemma universal_and_back_biomes_witness :
  data (biomes Examples.sample_chunk) = [3; 1; 3; 2]%Z ∧
  ∃ c1 p1 c2 p2,
    returns (to_universal Examples.sample_version Examples.sample_chunk
               Examples.sample_palette None true) (c1, p1) ∧
    returns (from_universal true Examples.sample_version c1 p1 None false)
            (c2, p2) ∧
    data (biomes c1) = [103; 101; 103; 102]%Z ∧
    data (biomes c2) = data (biomes Examples.sample_chunk).
Proof.
  split; [reflexivity|].
  destruct (outcome (to_universal Examples.sample_version Examples.sample_chunk
                       Examples.sample_palette None true))
    as [err|[c1 p1]] eqn:H1; [by vm_compute in H1|].
  destruct (outcome (from_universal true Examples.sample_version c1 p1 None false))
    as [err|[c2 p2]] eqn:H2.
  { apply (f_equal (λ o, match o with inr cp => Some cp | inl _ => None end)) in H1.
    vm_compute in H1. injection H1 as <- <-. by vm_compute in H2. }
  exists c1, p1, c2, p2. split; [exact H1|]. split; [exact H2|].
  destruct (universal_and_back_biomes true Examples.sample_version
              Examples.sample_version Examples.sample_chunk
              Examples.sample_palette None None true false)
    as (Hto & _ & Hback).
  destruct (Hto c1 p1 H1) as (Hb1 & _).
  destruct (Hback c1 p1 c2 p2) as (Hb2 & _); [|exact H1|exact H2|].
  { intros code _. simpl. lia. }
  split; [exact Hb1|exact Hb2].
Defined.
